(** * Monte Carlo tree search for Ultimate Tic-Tac-Toe: [mcts_modified.py]

    A shallow embedding of the search core of [src/tictactoe/mcts_modified.py]
    and the properties its specification states about it.

    Conventions of the embedding.
    - Python objects of class [MCTSNode] live in a store (an arena): a node
      reference is an index into the store, so that the parent back-reference
      and the children dictionary alias the same mutable node.
    - A Python exception is a value [Err e]; the recursion of
      [traverse_nodes] and [backpropagate] and the [while] loop of [rollout]
      carry a fuel argument.
    - Python [int] is [Z].  The quotient [wins / visits] of the recommender is
      an exact rational ([Q]); the UCB score, which needs [sqrt] and [log], is
      a real number ([R]).  Rounding of Python floats is not modelled.
    - [random.choice] reads a tape of draws. *)

From Stdlib Require Import ZArith QArith Reals Lia Lra.
From stdpp Require Import base decidable option list.

#[local] Open Scope Z_scope.

(** ** Exceptions and the error monad *)

Inductive error : Type :=
| ZeroDivisionError   (* [x / 0] *)
| ValueError          (* [math.log] or [math.sqrt] outside its domain *)
| AttributeError      (* attribute access on [None] *)
| TypeError           (* [None] used as a mapping or as an action *)
| IndexError          (* [random.choice] on an empty sequence *)
| AssertionError      (* a failed [assert] *)
| KeyError            (* dictionary lookup of an absent key *)
| InvalidReference    (* an index outside the store; no Python counterpart *)
| OutOfFuel.          (* the fuel of the model ran out *)

Inductive result (A : Type) : Type :=
| Ok (a : A)
| Err (e : error).
Arguments Ok {A} a.
Arguments Err {A} e.

Definition bind {A B : Type} (m : result A) (f : A -> result B) : result B :=
  match m with
  | Ok a => f a
  | Err e => Err e
  end.

Notation "'let*' x ':=' m 'in' k" := (bind m (fun x => k))
  (at level 10, x pattern, m at level 100, k at level 200).

(** ** The game abstraction

    [p2_t3.Board] is imported by the module but is not part of it; the search
    uses it through six methods only.  An action of this game is the tuple
    [(R, C, r, c)]: sub-board row and column, then cell row and column. *)

Definition Action : Type := (Z * Z * Z * Z)%type.
Definition Player : Type := Z.

#[global] Instance Action_eq_dec : EqDecision Action.
Proof. unfold Action. apply _. Defined.

Record Board (State : Type) : Type := mkBoard {
  current_player : State -> Player;
  legal_actions : State -> list Action;
  next_state : State -> Action -> State;
  is_ended : State -> bool;
  (* [None] while the game runs, else the score of each player *)
  points_values : State -> option (Player -> Z);
  (* owner of each sub-board: 0 for nobody, else a player *)
  owned_boxes : State -> Z * Z -> Z
}.
Arguments current_player {State} _ _.
Arguments legal_actions {State} _ _.
Arguments next_state {State} _ _ _.
Arguments is_ended {State} _ _.
Arguments points_values {State} _ _.
Arguments owned_boxes {State} _ _ _.

(** ** Search nodes *)

(** Modelled from the spec: the class [MCTSNode] of [mcts_node.py] is not in
    the module.  The data model gives it a parent back-reference, the action
    that produced it, a mapping from actions to children, the collection of
    untried actions, and the counters [wins] and [visits].  The children
    mapping is a Python dictionary: an association list in insertion order
    with unique keys. *)
Record MCTSNode : Type := mkNode {
  parent : option nat;
  parent_action : option Action;
  child_nodes : list (Action * nat);
  untried_actions : list Action;
  wins : Z;
  visits : Z
}.

(** Modelled from the spec: the constructor
    [MCTSNode(parent, parent_action, action_list)] of [mcts_node.py]: no
    children, the given actions untried, both counters zero. *)
Definition MCTSNode_new (p : option nat) (a : option Action)
    (action_list : list Action) : MCTSNode :=
  mkNode p a [] action_list 0 0.

Abbreviation store := (list MCTSNode).

Definition deref (σ : store) (n : nat) : result MCTSNode :=
  match σ !! n with
  | Some nd => Ok nd
  | None => Err InvalidReference
  end.

(** Dictionary operations: [d[k]] and [d[k] = v].  Assigning to a present
    key keeps its position; a new key goes to the end. *)
Fixpoint dict_get (d : list (Action * nat)) (k : Action) : result nat :=
  match d with
  | [] => Err KeyError
  | (k', v) :: d' => if decide (k' = k) then Ok v else dict_get d' k
  end.

Fixpoint dict_set (d : list (Action * nat)) (k : Action) (v : nat)
    : list (Action * nat) :=
  match d with
  | [] => [(k, v)]
  | (k', v') :: d' =>
      if decide (k' = k) then (k, v) :: d' else (k', v') :: dict_set d' k v
  end.

Definition dict_keys (d : list (Action * nat)) : list Action := map fst d.
Definition dict_values (d : list (Action * nat)) : list nat := map snd d.

(** [list.pop()]: the last element and the list without it. *)
Fixpoint list_pop {A : Type} (l : list A) : option (list A * A) :=
  match l with
  | [] => None
  | [x] => Some ([], x)
  | x :: l' =>
      match list_pop l' with
      | Some (r, y) => Some (x :: r, y)
      | None => None
      end
  end.

(** ** Module constants *)

Definition num_nodes : nat := 100.
Definition explore_faction : R := 2%R.

(** ** [ucb] *)

(** [ucb(node, is_opponent)].  Python evaluates [node.wins / node.visits]
    first (division by zero), then [log(node.parent.visits)] (no parent; a
    non-positive argument), then the square root (a negative argument, which
    for integer counters means [visits < 0] and [parent.visits >= 2]). *)
Definition ucb (σ : store) (node : MCTSNode) (is_opponent : bool) : result R :=
  if visits node =? 0 then Err ZeroDivisionError else
  match parent node with
  | None => Err AttributeError
  | Some p =>
      let* pn := deref σ p in
      if visits pn <=? 0 then Err ValueError else
      if (visits node <? 0) && (2 <=? visits pn) then Err ValueError else
      let rate := (IZR (wins node) / IZR (visits node))%R in
      let explore :=
        (explore_faction * sqrt (ln (IZR (visits pn)) / IZR (visits node)))%R in
      Ok (if is_opponent then rate + explore else (1 - rate) + explore)%R
  end.

(** ** The search, over an arbitrary board *)

Section Search.

Context {State : Type} (board : Board State).

(** *** [traverse_nodes] *)

(** What the [for] loop over the children leaves behind: either it left the
    function through the [return] of line 39, or it ran to its end with the
    best score, node and action found so far. *)
Inductive scan_result : Type :=
| EarlyReturn (node : nat) (state : State)
| Scanned (bestUCB : R) (bestNode : option nat) (bestAction : option Action).

(** The loop [for child in currentNode.child_nodes.keys()], from the keys
    still to visit. *)
Fixpoint scan_children (σ : store) (currentNode : MCTSNode) (state : State)
    (bot_identity : Player) (keys : list Action)
    (bestUCB : R) (bestNode : option nat) (bestAction : option Action)
    : result scan_result :=
  match keys with
  | [] => Ok (Scanned bestUCB bestNode bestAction)
  | child :: rest =>
      let* c := dict_get (child_nodes currentNode) child in
      let* cn := deref σ c in
      if (visits cn =? 0) || (0 <? length (untried_actions currentNode))%nat
      then Ok (EarlyReturn c (next_state board state child))
      else
        let* childUCB :=
          ucb σ cn (bot_identity =? current_player board state) in
        if Rgt_dec childUCB bestUCB
        then scan_children σ currentNode state bot_identity rest
               childUCB (Some c) (Some child)
        else scan_children σ currentNode state bot_identity rest
               bestUCB bestNode bestAction
  end.

(** When the loop found no child, [bestAction] and [bestNode] are [None]:
    the board is asked for the successor under [None] and the recursive call
    reads an attribute of [None]; the model raises [TypeError] there. *)
Fixpoint traverse_nodes (fuel : nat) (σ : store) (node : nat) (state : State)
    (bot_identity : Player) : result (nat * State) :=
  match fuel with
  | O => Err OutOfFuel
  | S fuel' =>
      let* currentNode := deref σ node in
      if (length (untried_actions currentNode) <? 1)%nat
         && negb (is_ended board state)
      then
        let* r := scan_children σ currentNode state bot_identity
                    (dict_keys (child_nodes currentNode))
                    (IZR (-999999)) None None in
        match r with
        | EarlyReturn c s => Ok (c, s)
        | Scanned _ (Some bestNode) (Some bestAction) =>
            traverse_nodes fuel' σ bestNode
              (next_state board state bestAction) bot_identity
        | Scanned _ _ _ => Err TypeError
        end
      else Ok (node, state)
  end.

(** *** [expand_leaf] *)

(** The node is mutated in place (its last untried action is popped and the
    new child is registered under that action); the new node is allocated at
    the end of the store. *)
Definition expand_leaf (σ : store) (node : nat) (state : State)
    : result (store * nat * State) :=
  let* nd := deref σ node in
  match list_pop (untried_actions nd) with
  | Some (rest, parentAction) =>
      let nextState := next_state board state parentAction in
      let actionList := legal_actions board nextState in
      let newNode := length σ in
      let nd' := mkNode (parent nd) (parent_action nd)
                   (dict_set (child_nodes nd) parentAction newNode)
                   rest (wins nd) (visits nd) in
      Ok (<[node := nd']> σ
            ++ [MCTSNode_new (Some node) (Some parentAction) actionList],
          newNode, nextState)
  | None => Ok (σ, node, state)
  end.

(** *** [rollout] *)

(** What the [for] loop over the legal actions leaves behind: the action it
    left the loop with ([break]), or the list [validActions]. *)
Inductive scan_pick : Type :=
| Chosen (nextAction : Action)
| Pool (validActions : list Action).

(** The loop [for action in board.legal_actions(state)], from the actions
    still to visit. *)
Fixpoint scan_actions (state : State) (actions : list Action)
    (validActions : list Action) : scan_pick :=
  match actions with
  | [] => Pool validActions
  | action :: rest =>
      let nextState := next_state board state action in
      let nextStateScore := points_values board nextState in
      let currPlayer := current_player board state in
      let heuristic :=
        let '(R, C, _, _) := action in
        let nextStateBoxes := owned_boxes board nextState in
        if nextStateBoxes (R, C) =? currPlayer then Chosen action
        else if nextStateBoxes (R, C) =? 3 - currPlayer
        then scan_actions state rest validActions
        else scan_actions state rest (validActions ++ [action]) in
      match nextStateScore with
      | Some score =>
          if score currPlayer =? 1 then Chosen action
          else if score currPlayer =? -1
          then scan_actions state rest validActions
          else heuristic
      | None => heuristic
      end
  end.

(** [random.choice(seq)] with the draw at position [k] of the tape. *)
Definition choice (tape : nat -> nat) (k : nat) (seq : list Action)
    : result (Action * nat) :=
  match seq with
  | [] => Err IndexError
  | a :: _ => Ok (nth (tape k mod length seq) seq a, S k)
  end.

(** One turn of the [while] loop: the action applied and the new state. *)
Definition rollout_step (tape : nat -> nat) (k : nat) (state : State)
    : result (Action * State * nat) :=
  let* (nextAction, k') :=
    match scan_actions state (legal_actions board state) [] with
    | Chosen a => Ok (a, k)
    | Pool validActions => choice tape k validActions
    end in
  Ok (nextAction, next_state board state nextAction, k').

Fixpoint rollout (fuel : nat) (tape : nat -> nat) (k : nat) (state : State)
    : result (State * nat) :=
  if is_ended board state then Ok (state, k) else
  match fuel with
  | O => Err OutOfFuel
  | S fuel' =>
      let* (_, state', k') := rollout_step tape k state in
      rollout fuel' tape k' state'
  end.

(** The tests the loop body applies to an action: its successor is terminal
    and scores 1 (resp. -1) for the player to move; the sub-board it plays in
    belongs to the player to move afterwards. *)
Definition is_winning (state : State) (a : Action) : bool :=
  match points_values board (next_state board state a) with
  | Some score => score (current_player board state) =? 1
  | None => false
  end.

Definition is_losing (state : State) (a : Action) : bool :=
  match points_values board (next_state board state a) with
  | Some score => score (current_player board state) =? -1
  | None => false
  end.

Definition claims_box (state : State) (a : Action) : bool :=
  let '(R, C, _, _) := a in
  owned_boxes board (next_state board state a) (R, C)
    =? current_player board state.

(** The rollout arrives at a position after some turns of its loop. *)
Inductive rollout_reaches (tape : nat -> nat)
    : nat -> State -> nat -> State -> nat -> Prop :=
| reaches_here k s : rollout_reaches tape k s k s 0%nat
| reaches_step k s a s1 k1 k2 s2 n :
    is_ended board s = false ->
    rollout_step tape k s = Ok (a, s1, k1) ->
    rollout_reaches tape k1 s1 k2 s2 n ->
    rollout_reaches tape k s k2 s2 (S n).

(** *** [backpropagate] *)

Fixpoint backpropagate (fuel : nat) (σ : store) (node : nat) (won : Z)
    : result store :=
  match fuel with
  | O => Err OutOfFuel
  | S fuel' =>
      let* nd := deref σ node in
      let nd' := mkNode (parent nd) (parent_action nd) (child_nodes nd)
                   (untried_actions nd) (wins nd + won) (visits nd + 1) in
      let σ' := <[node := nd']> σ in
      match parent nd with
      | None => Ok σ'
      | Some p => backpropagate fuel' σ' p won
      end
  end.

(** *** [get_best_action] *)

Definition Qgtb (x y : Q) : bool := negb (Qle_bool x y).

(** The loop [for child in root_node.child_nodes.values()], from the
    children still to visit. *)
Fixpoint scan_rates (σ : store) (children : list nat)
    (action : option Action) (bestRate : Q) : result (option Action) :=
  match children with
  | [] => Ok action
  | c :: rest =>
      let* child := deref σ c in
      if visits child =? 0 then Err ZeroDivisionError else
      let currRate := (inject_Z (wins child) / inject_Z (visits child))%Q in
      if Qgtb currRate bestRate
      then scan_rates σ rest (parent_action child) currRate
      else scan_rates σ rest action bestRate
  end.

(** The result [None] is Python's [None]. *)
Definition get_best_action (σ : store) (root_node : MCTSNode)
    : result (option Action) :=
  scan_rates σ (dict_values (child_nodes root_node)) None
    (inject_Z (-999999)).

(** The win rate [child.wins / child.visits]. *)
Definition win_rate (nd : MCTSNode) : Q :=
  (inject_Z (wins nd) / inject_Z (visits nd))%Q.

(** *** [is_win] *)

Definition is_win (state : State) (identity_of_bot : Player) : result bool :=
  match points_values board state with
  | None => Err AssertionError
  | Some outcome => Ok (outcome identity_of_bot =? 1)
  end.

(** *** [think] *)

(** One turn of the loop [for _ in range(num_nodes)]; the root is the node at
    index 0. *)
Definition think_iteration (fuel : nat) (tape : nat -> nat)
    (current_state : State) (bot_identity : Player) (st : store * nat)
    : result (store * nat) :=
  let '(σ, k) := st in
  let* (leafNode, newState) :=
    traverse_nodes fuel σ 0%nat current_state bot_identity in
  let* (σ1, newLeaf, newState) := expand_leaf σ leafNode newState in
  let* (newState, k') := rollout fuel tape k newState in
  match points_values board newState with
  | None => Err TypeError
  | Some winValue =>
      let* σ2 := backpropagate fuel σ1 newLeaf (winValue bot_identity) in
      Ok (σ2, k')
  end.

Fixpoint think_loop (n : nat) (fuel : nat) (tape : nat -> nat)
    (current_state : State) (bot_identity : Player) (st : store * nat)
    : result (store * nat) :=
  match n with
  | O => Ok st
  | S n' =>
      let* st' := think_iteration fuel tape current_state bot_identity st in
      think_loop n' fuel tape current_state bot_identity st'
  end.

Definition root_store (current_state : State) : store :=
  [MCTSNode_new None None (legal_actions board current_state)].

Definition think (fuel : nat) (tape : nat -> nat) (current_state : State)
    : result (option Action) :=
  let bot_identity := current_player board current_state in
  let* (σ, _) :=
    think_loop num_nodes fuel tape current_state bot_identity
      (root_store current_state, 0%nat) in
  let* root_node := deref σ 0%nat in
  get_best_action σ root_node.

End Search.

Arguments EarlyReturn {State} node state.
Arguments Scanned {State} bestUCB bestNode bestAction.

(** ** Vocabulary of the properties *)

(** The path of parent references from a node up to the root. *)
Inductive parent_chain (σ : store) : nat -> list nat -> Prop :=
| chain_root n nd :
    σ !! n = Some nd -> parent nd = None -> parent_chain σ n [n]
| chain_step n nd p l :
    σ !! n = Some nd -> parent nd = Some p -> parent_chain σ p l ->
    parent_chain σ n (n :: l).

(** What one visit does to a node. *)
Definition visited (won : Z) (nd : MCTSNode) : MCTSNode :=
  mkNode (parent nd) (parent_action nd) (child_nodes nd)
    (untried_actions nd) (wins nd + won) (visits nd + 1).

(** *** The tree built by the search driver *)

Definition visits_at (σ : store) (i : nat) : Z :=
  match σ !! i with
  | Some nd => visits nd
  | None => 0
  end.

(** The sum of the visits of the nodes in a list of references. *)
Fixpoint sum_visits (σ : store) (cs : list nat) : Z :=
  match cs with
  | [] => 0
  | c :: rest => visits_at σ c + sum_visits σ rest
  end.

(** The shape of a tree in the store: parents are allocated before their
    children, only the node at index 0 has no parent, a registered child
    exists and points back to the node that holds it, no child is registered
    twice, and no counter of visits is negative. *)
Record tree_ok (σ : store) : Prop := mkTreeOk {
  ok_root : exists r, σ !! 0%nat = Some r;
  ok_parent_lt : forall i nd p,
    σ !! i = Some nd -> parent nd = Some p -> (p < i)%nat;
  ok_parent_some : forall i nd,
    σ !! i = Some nd -> i <> 0%nat -> parent nd <> None;
  ok_child : forall p pn a c,
    σ !! p = Some pn -> (a, c) ∈ child_nodes pn ->
    exists cn, σ !! c = Some cn /\ parent cn = Some p;
  ok_values : forall p pn,
    σ !! p = Some pn -> NoDup (dict_values (child_nodes pn));
  ok_visits : forall i nd, σ !! i = Some nd -> 0 <= visits nd
}.

(** Every registered child but [except] has been visited, and so has the
    node that holds it. *)
Definition children_visited (σ : store) (except : option nat) : Prop :=
  forall p pn a c cn,
    σ !! p = Some pn -> (a, c) ∈ child_nodes pn -> σ !! c = Some cn ->
    Some c <> except ->
    1 <= visits cn /\ 1 <= visits pn.

(** The root has [k] visits and its children no more than [k] together. *)
Definition root_count (σ : store) (k : Z) : Prop :=
  exists r, σ !! 0%nat = Some r /\ visits r = k
            /\ sum_visits σ (dict_values (child_nodes r)) <= k.

(** Two versions of a node that differ in their counters only, the visits
    not lower in the second. *)
Definition same_shape (nd nd' : MCTSNode) : Prop :=
  parent nd' = parent nd
  /\ parent_action nd' = parent_action nd
  /\ child_nodes nd' = child_nodes nd
  /\ untried_actions nd' = untried_actions nd
  /\ visits nd <= visits nd'.

Definition store_grows (σ σ' : store) : Prop :=
  (forall i nd, σ !! i = Some nd ->
     exists nd', σ' !! i = Some nd' /\ same_shape nd nd')
  /\ (forall i, σ !! i = None -> σ' !! i = None).

(** The node [leaf] and the store after an expansion by its action [a]. *)
Definition expanded_node (σ : store) (nd : MCTSNode) (rest : list Action)
    (a : Action) : MCTSNode :=
  mkNode (parent nd) (parent_action nd)
    (dict_set (child_nodes nd) a (length σ)) rest (wins nd) (visits nd).

Definition expanded (σ : store) (leaf : nat) (nd : MCTSNode)
    (rest : list Action) (a : Action) (action_list : list Action) : store :=
  <[leaf := expanded_node σ nd rest a]> σ
  ++ [MCTSNode_new (Some leaf) (Some a) action_list].

(** The state of the tree between two simulations, after [k] of them. *)
Definition tree_inv (σ : store) (k : Z) : Prop :=
  tree_ok σ /\ children_visited σ None /\ root_count σ k.

(** *** Positions, outcomes and accounts of the tree *)

(** The position a node stands for: the root stands for the position the
    search starts from, a child for the successor of its parent's position
    under its parent action. *)
Inductive represents {State : Type} (board : Board State) (s0 : State)
    (σ : store) : nat -> State -> Prop :=
| rep_root n nd :
    σ !! n = Some nd -> parent nd = None -> represents board s0 σ n s0
| rep_child n nd p a s :
    σ !! n = Some nd -> parent nd = Some p -> parent_action nd = Some a ->
    represents board s0 σ p s ->
    represents board s0 σ n (next_state board s a).

(** The children of every node are registered under their parent action, and
    the untried actions of a node together with the actions of its children
    are the legal actions of its position. *)
Record actions_ok {State : Type} (board : Board State) (s0 : State)
    (σ : store) : Prop := mkActionsOk {
  ok_action : forall p pn a c cn,
    σ !! p = Some pn -> (a, c) ∈ child_nodes pn -> σ !! c = Some cn ->
    parent_action cn = Some a;
  ok_legal : forall n nd s,
    σ !! n = Some nd -> represents board s0 σ n s ->
    forall a, a ∈ legal_actions board s
              <-> (a ∈ untried_actions nd \/ a ∈ dict_keys (child_nodes nd))
}.

(** At every node the untried actions, followed by the actions of the
    children from the last registered to the first, are the list of legal
    actions of the position of the node. *)
Definition order_ok {State : Type} (board : Board State) (s0 : State)
    (σ : store) : Prop :=
  forall n nd s,
    σ !! n = Some nd -> represents board s0 σ n s ->
    untried_actions nd ++ reverse (dict_keys (child_nodes nd))
    = legal_actions board s.

(** Outcomes of the board lie between -1 and 1. *)
Definition outcomes_bounded {State : Type} (board : Board State) : Prop :=
  forall s score p, points_values board s = Some score -> -1 <= score p <= 1.

(** A position that is not ended has a legal action. *)
Definition moves_until_end {State : Type} (board : Board State) : Prop :=
  forall s, is_ended board s = false -> legal_actions board s <> [].

(** The wins of every node lie between minus its visits and its visits. *)
Definition wins_bounded (σ : store) : Prop :=
  forall i nd, σ !! i = Some nd -> - visits nd <= wins nd <= visits nd.

(** The visits of the children of a node sum to no more than its own. *)
Definition children_sum_ok (σ : store) : Prop :=
  forall p pn, σ !! p = Some pn ->
    sum_visits σ (dict_values (child_nodes pn)) <= visits pn.

(** The accumulators [bestNode] and [bestAction] of the scan of the children
    of a node: both [None], or a child and the action it is registered
    under. *)
Definition best_registered (currentNode : MCTSNode) (bestNode : option nat)
    (bestAction : option Action) : Prop :=
  match bestNode, bestAction with
  | Some bn, Some ba => dict_get (child_nodes currentNode) ba = Ok bn
  | None, None => True
  | _, _ => False
  end.

(** *** The score of the selector *)

(** The selection score as the specification writes it, for a child and its
    parent: the win rate of the child when the searching bot is to move at
    the parent, one minus that rate otherwise, plus the exploration term
    with the constant 2. *)
Definition perspective_score (own_turn_at_parent : bool)
    (child parent_node : MCTSNode) : R :=
  let rate := (IZR (wins child) / IZR (visits child))%R in
  let explore :=
    (2 * sqrt (ln (IZR (visits parent_node)) / IZR (visits child)))%R in
  if own_turn_at_parent then (rate + explore)%R else (1 - rate + explore)%R.

(** *** The turns of a rollout *)

(** The last test of the loop body of [rollout]: after the move the sub-board
    played in belongs to the other player. *)
Definition hands_box {State : Type} (board : Board State) (state : State)
    (a : Action) : bool :=
  let '(R, C, _, _) := a in
  owned_boxes board (next_state board state a) (R, C)
    =? 3 - current_player board state.

(** An action the loop leaves with, and an action it appends to
    [validActions]. *)
Definition decisive {State : Type} (board : Board State) (state : State)
    (a : Action) : bool :=
  is_winning board state a
  || (negb (is_losing board state a) && claims_box board state a).

Definition neutral {State : Type} (board : Board State) (state : State)
    (a : Action) : bool :=
  negb (is_winning board state a) && negb (is_losing board state a)
  && negb (claims_box board state a) && negb (hands_box board state a).

(** ** A small board

    A six-position game with the shape of a nested-board game, used to run
    the search on concrete positions.  At [Fork] player 1 may take sub-board
    (0,0) without ending the game, or take sub-board (2,2) and win.  At
    [Captured] player 2 has one move, which ends the game in a draw.  At
    [Trap] the only move of player 1 loses the game at once. *)

Inductive toy_state : Type := Fork | Captured | Won | Drawn | Trap | Lost.

Definition a_capture : Action := (0, 0, 1, 1).
Definition a_win : Action := (2, 2, 1, 1).
Definition a_draw : Action := (1, 1, 0, 0).
Definition a_lose : Action := (1, 1, 2, 2).

Definition toy_board : Board toy_state := {|
  current_player s :=
    match s with
    | Fork | Trap | Drawn => 1
    | Captured | Won | Lost => 2
    end;
  legal_actions s :=
    match s with
    | Fork => [a_capture; a_win]
    | Captured => [a_draw]
    | Trap => [a_lose]
    | Won | Drawn | Lost => []
    end;
  next_state s a :=
    match s with
    | Fork => if decide (a = a_win) then Won else Captured
    | Captured => Drawn
    | Trap => Lost
    | Won | Drawn | Lost => s
    end;
  is_ended s :=
    match s with
    | Won | Drawn | Lost => true
    | Fork | Captured | Trap => false
    end;
  points_values s :=
    match s with
    | Won => Some (fun p => if p =? 1 then 1 else -1)
    | Lost => Some (fun p => if p =? 1 then -1 else 1)
    | Drawn => Some (fun _ => 0)
    | Fork | Captured | Trap => None
    end;
  owned_boxes s box :=
    match s with
    | Captured | Drawn => if decide (box = (0, 0)) then 1 else 0
    | Won => if decide (box = (2, 2)) then 1 else 0
    | Lost => if decide (box = (1, 1)) then 2 else 0
    | Fork | Trap => 0
    end
|}.

(** The tape on which every draw is 0. *)
Definition zero_tape : nat -> nat := fun _ => 0%nat.

(** The tree of a search from [Captured] after [j] simulations: the root and
    its only child, each visited [j] times, every simulation a draw. *)
Definition forced_store (j : Z) : store :=
  [ mkNode None None [(a_draw, 1%nat)] [] 0 j;
    mkNode (Some 0%nat) (Some a_draw) [] [] 0 j ].

(** The small board with another order of the moves at [Fork]: first a move
    into sub-board (1,1) that decides nothing, then the winning move, then
    the capture. *)
Definition win_first_board : Board toy_state :=
  mkBoard toy_state
    (current_player toy_board)
    (fun s => match s with
              | Fork => [a_lose; a_win; a_capture]
              | _ => legal_actions toy_board s
              end)
    (next_state toy_board) (is_ended toy_board)
    (points_values toy_board) (owned_boxes toy_board).

(** A root with three visited children of rates 0, 1/2 and 2/4: the second
    child is the first of greatest rate. *)
Definition rated_store : store :=
  [ mkNode None None [(a_capture, 1%nat); (a_win, 2%nat); (a_draw, 3%nat)]
      [] 3 8;
    mkNode (Some 0%nat) (Some a_capture) [] [] 0 2;
    mkNode (Some 0%nat) (Some a_win) [] [] 1 2;
    mkNode (Some 0%nat) (Some a_draw) [] [] 2 4 ].

(** A root with a visited and an unvisited child. *)
Definition unvisited_store : store :=
  [ mkNode None None [(a_capture, 1%nat); (a_win, 2%nat)] [] 1 1;
    mkNode (Some 0%nat) (Some a_capture) [] [] 1 1;
    mkNode (Some 0%nat) (Some a_win) [] [] 0 0 ].

(** The small board without the move at [Trap]: a position that is not
    ended and has no legal action. *)
Definition stuck_board : Board toy_state :=
  mkBoard toy_state
    (current_player toy_board)
    (fun s => match s with
              | Trap => []
              | _ => legal_actions toy_board s
              end)
    (next_state toy_board) (is_ended toy_board)
    (points_values toy_board) (owned_boxes toy_board).

(** The tree of a search from [Fork] after two simulations: the winning move
    was expanded first, then the capture, whose rollout ended in a draw. *)
Definition fork_store : store :=
  [ mkNode None None [(a_win, 1%nat); (a_capture, 2%nat)] [] 1 2;
    mkNode (Some 0%nat) (Some a_win) [] [] 1 1;
    mkNode (Some 0%nat) (Some a_capture) [] [a_draw] 0 1 ].

(** * Properties *)

(** ** Lists and dictionaries *)

Lemma list_pop_snoc {A : Type} (l : list A) (x : A) :
  list_pop (l ++ [x]) = Some (l, x).
Proof.
  induction l as [|y l IH]; [reflexivity|].
  change ((y :: l) ++ [x]) with (y :: (l ++ [x])).
  simpl. rewrite IH. destruct (l ++ [x]) eqn:E; [|reflexivity].
  destruct l; discriminate.
Qed.

Lemma list_pop_nil {A : Type} (l : list A) : list_pop l = None -> l = [].
Proof.
  induction l as [|y l IH]; [reflexivity|].
  simpl. destruct l as [|z l]; [discriminate|].
  destruct (list_pop (z :: l)) as [[r w]|]; [discriminate|].
  intros _. specialize (IH eq_refl). discriminate.
Qed.

Lemma dict_get_set_eq d k v : dict_get (dict_set d k v) k = Ok v.
Proof.
  induction d as [|[k' v'] d IH]; simpl.
  - destruct (decide (k = k)); congruence.
  - destruct (decide (k' = k)) as [->|Hne]; simpl.
    + destruct (decide (k = k)); congruence.
    + destruct (decide (k' = k)); [contradiction|exact IH].
Qed.

Lemma dict_get_elem d k v : dict_get d k = Ok v -> (k, v) ∈ d.
Proof.
  induction d as [|[k' v'] d IH]; simpl; [discriminate|].
  destruct (decide (k' = k)) as [->|Hne].
  - intros [= ->]. left.
  - intros H. right. auto.
Qed.

Lemma dict_get_key d k : k ∈ dict_keys d -> exists v, dict_get d k = Ok v.
Proof.
  induction d as [|[k' v'] d IH]; simpl.
  - intros H. inversion H.
  - intros H. destruct (decide (k' = k)) as [->|Hne]; [eauto|].
    apply IH. inversion H; subst; [contradiction|assumption].
Qed.

Lemma dict_set_elem d k v k0 v0 :
  (k0, v0) ∈ dict_set d k v -> (k0, v0) ∈ d \/ (k0, v0) = (k, v).
Proof.
  induction d as [|[k' v'] d IH]; simpl.
  - intros H. inversion H; subst; [auto|]. inversion H2.
  - destruct (decide (k' = k)) as [->|Hne]; intros H.
    + inversion H; subst; [auto|]. left. right. assumption.
    + inversion H; subst; [left; left|].
      destruct (IH H2) as [?|?]; [left; right; assumption|auto].
Qed.

Lemma dict_set_values_NoDup d k v :
  NoDup (dict_values d) -> v ∉ dict_values d ->
  NoDup (dict_values (dict_set d k v)).
Proof.
  unfold dict_values. induction d as [|[k' v'] d IH]; simpl; intros Hnd Hv.
  - apply NoDup_singleton.
  - apply NoDup_cons in Hnd as [Hv' Hnd]. apply not_elem_of_cons in Hv as [Hne Hv].
    destruct (decide (k' = k)) as [->|Hk]; simpl.
    + apply NoDup_cons. split; assumption.
    + apply NoDup_cons. split; [|auto].
      intros Hin. apply list_elem_of_fmap in Hin as [[k0 v0] [Heq Hin]].
      simpl in Heq. subst v0. apply dict_set_elem in Hin as [Hin|[= -> ->]].
      * apply Hv'. apply list_elem_of_fmap. exists (k0, v'). auto.
      * congruence.
Qed.

Lemma deref_ok (σ : store) n nd : σ !! n = Some nd -> deref σ n = Ok nd.
Proof. unfold deref. intros ->. reflexivity. Qed.

Lemma deref_inv (σ : store) n nd : deref σ n = Ok nd -> σ !! n = Some nd.
Proof. unfold deref. destruct (σ !! n); [intros [= ->]; reflexivity|discriminate]. Qed.

Lemma bind_ok {A B : Type} (m : result A) (f : A -> result B) b :
  bind m f = Ok b -> exists a, m = Ok a /\ f a = Ok b.
Proof. destruct m; simpl; [eauto|discriminate]. Qed.

(** ** The expander *)

Section Expander.

Context {State : Type} (board : Board State).

(** C8.  A node with at least one untried action, the last of which is [a]:
    [expand_leaf] pops exactly [a], allocates a fresh child whose untried
    actions are the legal actions of [next_state state a] (no children, both
    counters zero, parent the node, parent action [a]), registers it under
    [a] in the node's children (every other field of the node and every
    other node stay as they were) and returns the child with the next state.
    A node without untried actions: the store, the node and the state come
    back unchanged. *)
Theorem expand_leaf_spec (σ : store) (node : nat) (nd : MCTSNode)
    (state : State) :
  σ !! node = Some nd ->
  (forall rest a, untried_actions nd = rest ++ [a] ->
     let nextState := next_state board state a in
     let child := length σ in
     exists σ',
       expand_leaf board σ node state = Ok (σ', child, nextState)
       /\ length σ' = S (length σ)
       /\ σ' !! child
          = Some (mkNode (Some node) (Some a) []
                    (legal_actions board nextState) 0 0)
       /\ σ' !! node
          = Some (mkNode (parent nd) (parent_action nd)
                    (dict_set (child_nodes nd) a child) rest
                    (wins nd) (visits nd))
       /\ dict_get (dict_set (child_nodes nd) a child) a = Ok child
       /\ (forall i, i <> node -> i <> child -> σ' !! i = σ !! i))
  /\ (untried_actions nd = [] ->
      expand_leaf board σ node state = Ok (σ, node, state)).
Proof.
  intros Hnd. pose proof (lookup_lt_Some _ _ _ Hnd) as Hlt. split.
  - intros rest a Hun nextState child. eexists. unfold expand_leaf.
    rewrite (deref_ok _ _ _ Hnd). simpl. rewrite Hun, list_pop_snoc.
    split; [reflexivity|]. split; [|split; [|split; [|split]]].
    + rewrite length_app, length_insert. simpl. lia.
    + rewrite lookup_app_r by (rewrite length_insert; lia).
      rewrite length_insert. subst child. rewrite Nat.sub_diag. reflexivity.
    + rewrite lookup_app_l by (rewrite length_insert; lia).
      apply list_lookup_insert_eq. assumption.
    + apply dict_get_set_eq.
    + intros i Hi Hc. destruct (decide (i < length σ)%nat) as [Hi'|Hi'].
      * rewrite lookup_app_l by (rewrite length_insert; lia).
        apply list_lookup_insert_ne. congruence.
      * rewrite (lookup_ge_None_2 σ) by lia. apply lookup_ge_None_2.
        rewrite length_app, length_insert. simpl. subst child. lia.
  - intros Hun. unfold expand_leaf. rewrite (deref_ok _ _ _ Hnd). simpl.
    rewrite Hun. reflexivity.
Qed.

End Expander.

(** The root of a search from [Fork] has [a_capture] and [a_win] untried, the
    latter added last; a node without untried actions is the other case. *)
Lemma expand_leaf_spec_witness :
  let σ := root_store toy_board Fork in
  let τ := forced_store 1 in
  (exists σ', expand_leaf toy_board σ 0%nat Fork = Ok (σ', 1%nat, Won)
     /\ σ' !! 1%nat = Some (mkNode (Some 0%nat) (Some a_win) [] [] 0 0)
     /\ σ' !! 0%nat
        = Some (mkNode None None [(a_win, 1%nat)] [a_capture] 0 0))
  /\ expand_leaf toy_board τ 1%nat Drawn = Ok (τ, 1%nat, Drawn).
Proof.
  split.
  - destruct (expand_leaf_spec toy_board (root_store toy_board Fork) 0%nat
                _ Fork eq_refl) as [H _].
    destruct (H [a_capture] a_win eq_refl) as (σ' & He & _ & Hc & Hn & _).
    exists σ'. split; [exact He|]. split; [exact Hc|exact Hn].
  - destruct (expand_leaf_spec toy_board (forced_store 1) 1%nat
                _ Drawn eq_refl) as [_ H].
    exact (H eq_refl).
Defined.

(** ** The playout evaluator *)

Section Playout.

Context {State : Type} (board : Board State).

Lemma scan_actions_first_win (state : State) before a after valid :
  is_winning board state a = true ->
  (forall b, b ∈ before ->
     is_winning board state b = false
     /\ (claims_box board state b = false \/ is_losing board state b = true)) ->
  scan_actions board state (before ++ a :: after) valid = Chosen a.
Proof.
  intros Hwin. revert valid.
  induction before as [|b before IH]; intros valid Hbefore.
  - simpl. unfold is_winning in Hwin.
    destruct (points_values board (next_state board state a)) as [score|];
      [|discriminate].
    rewrite Hwin. reflexivity.
  - assert (Hb : b ∈ b :: before) by left.
    destruct (Hbefore b Hb) as [Hw Hc].
    assert (Hrest : forall v,
      scan_actions board state (before ++ a :: after) v = Chosen a).
    { intros v. apply IH. intros b' Hb'. apply Hbefore. right. assumption. }
    change ((b :: before) ++ a :: after) with (b :: (before ++ a :: after)).
    unfold is_winning, is_losing, claims_box in Hw, Hc.
    destruct b as [[[R C] r] c]. cbn [scan_actions].
    destruct (points_values board (next_state board state (R, C, r, c)))
      as [score|].
    + rewrite Hw.
      destruct (score (current_player board state) =? -1) eqn:Hl;
        [apply Hrest|].
      destruct Hc as [Hc|Hc]; [|discriminate]. rewrite Hc.
      destruct (owned_boxes board _ _ =? 3 - _); apply Hrest.
    + destruct Hc as [Hc|Hc]; [|discriminate]. rewrite Hc.
      destruct (owned_boxes board _ _ =? 3 - _); apply Hrest.
Qed.

(** C3, as the code has it.  When an action winning for the player to move is
    legal and no action before it in the order of [legal_actions] is winning
    or claims its sub-board for the player to move without losing at once,
    the turn of the rollout applies that winning action: it leaves the loop
    at the test of line 120, draws nothing from the tape, and the new state
    is the successor under it. *)
Theorem rollout_step_first_win (tape : nat -> nat) (k : nat) (state : State)
    before a after :
  legal_actions board state = before ++ a :: after ->
  is_winning board state a = true ->
  (forall b, b ∈ before ->
     is_winning board state b = false
     /\ (claims_box board state b = false \/ is_losing board state b = true)) ->
  scan_actions board state (legal_actions board state) [] = Chosen a
  /\ rollout_step board tape k state = Ok (a, next_state board state a, k).
Proof.
  intros Hlegal Hwin Hbefore.
  assert (Hscan : scan_actions board state (legal_actions board state) []
                  = Chosen a).
  { rewrite Hlegal. apply scan_actions_first_win; assumption. }
  split; [exact Hscan|].
  unfold rollout_step. rewrite Hscan. reflexivity.
Qed.

Lemma rollout_unfold fuel tape k state :
  is_ended board state = false ->
  rollout board (S fuel) tape k state
  = (let* (_, state', k') := rollout_step board tape k state in
     rollout board fuel tape k' state').
Proof. intros H. simpl. rewrite H. reflexivity. Qed.

(** C9.  The rollout arrives, after any number of turns, at a position that
    is not ended, where the scan of the legal actions chooses nothing and
    leaves the list of valid actions empty: this turn raises [IndexError]
    (from [choice] on the empty list), and so does the whole rollout; no
    state is returned. *)
Theorem rollout_empty_pool (tape : nat -> nat) (k0 : nat) (state0 : State)
    (k : nat) (state : State) (n fuel : nat) :
  rollout_reaches board tape k0 state0 k state n ->
  is_ended board state = false ->
  scan_actions board state (legal_actions board state) [] = Pool [] ->
  (n < fuel)%nat ->
  rollout_step board tape k state = Err IndexError
  /\ rollout board fuel tape k0 state0 = Err IndexError.
Proof.
  intros Hreach Hend Hscan.
  assert (Hstep : rollout_step board tape k state = Err IndexError).
  { unfold rollout_step. rewrite Hscan. reflexivity. }
  intros Hfuel. split; [exact Hstep|]. revert fuel Hfuel.
  induction Hreach as [k s|k s a s1 k1 k2 s2 n Hs Hst _ IH]; intros fuel Hfuel;
    (destruct fuel as [|fuel]; [lia|]); rewrite rollout_unfold by assumption.
  - rewrite Hstep. reflexivity.
  - rewrite Hst. simpl. apply IH; [assumption..|lia].
Qed.

End Playout.

(** At [Trap] the only move loses at once. *)
Lemma rollout_empty_pool_witness :
  rollout_step toy_board zero_tape 0 Trap = Err IndexError
  /\ rollout toy_board 5 zero_tape 0 Trap = Err IndexError.
Proof.
  apply (rollout_empty_pool toy_board zero_tape 0%nat Trap 0%nat Trap 0 5).
  - constructor.
  - reflexivity.
  - reflexivity.
  - lia.
Defined.

Lemma rollout_step_first_win_witness :
  scan_actions win_first_board Fork [a_lose; a_win; a_capture] []
    = Chosen a_win
  /\ rollout_step win_first_board zero_tape 3 Fork = Ok (a_win, Won, 3%nat).
Proof.
  apply (rollout_step_first_win win_first_board zero_tape 3 Fork
           [a_lose] a_win [a_capture]).
  - reflexivity.
  - reflexivity.
  - intros b Hb. apply list_elem_of_singleton in Hb as ->.
    split; [reflexivity|left; reflexivity].
Defined.

(** C3 as stated fails.  At [Fork] the action [a_win] is legal and wins for
    the player to move, but [a_capture] comes first and claims sub-board
    (0,0): the loop leaves at the test of line 132 and the rollout applies
    [a_capture], which does not end the game. *)
Lemma rollout_step_capture_before_win :
  a_win ∈ legal_actions toy_board Fork
  /\ is_winning toy_board Fork a_win = true
  /\ rollout_step toy_board zero_tape 0 Fork = Ok (a_capture, Captured, 0%nat)
  /\ is_winning toy_board Fork a_capture = false
  /\ ~ (exists a k',
          rollout_step toy_board zero_tape 0 Fork
            = Ok (a, next_state toy_board Fork a, k')
          /\ is_winning toy_board Fork a = true).
Proof.
  split; [right; left|]. split; [reflexivity|]. split; [reflexivity|].
  split; [reflexivity|].
  intros (a & k' & Hstep & Hwin).
  assert (Ha : a = a_capture).
  { change (rollout_step toy_board zero_tape 0 Fork)
      with (@Ok (Action * toy_state * nat) (a_capture, Captured, 0%nat))
      in Hstep.
    congruence. }
  subst a. discriminate.
Qed.

(** ** The action recommender *)

(** C5, as the code has it.  On a root without children the loop body never
    runs and [get_best_action] returns [None], the initial value of
    [action]: a normal return, no exception. *)
Theorem get_best_action_no_children (σ : store) p pa untried w v :
  get_best_action σ (mkNode p pa [] untried w v) = Ok None.
Proof. reflexivity. Qed.

(** C5 as stated fails: no exception reaches the caller.  On the fresh root
    of a terminal position [get_best_action] returns [None], and so does a
    whole search from that position, whose root never gets a child. *)
Lemma get_best_action_no_children_no_error :
  let root_node := MCTSNode_new None None [] in
  get_best_action [root_node] root_node = Ok None
  /\ ~ (exists e, get_best_action [root_node] root_node = Err e)
  /\ think toy_board 2 zero_tape Won = Ok None.
Proof.
  split; [reflexivity|]. split.
  - intros [e He]. discriminate He.
  - vm_compute. reflexivity.
Qed.

Lemma Qgtb_true x y : Qgtb x y = true <-> (y < x)%Q.
Proof.
  unfold Qgtb. rewrite negb_true_iff. split.
  - intros H. apply Qnot_le_lt. intros Hle.
    apply Qle_bool_iff in Hle. congruence.
  - intros H. destruct (Qle_bool x y) eqn:E; [|reflexivity].
    apply Qle_bool_iff in E. exfalso. exact (Qlt_not_le _ _ H E).
Qed.

Lemma Qgtb_false x y : Qgtb x y = false <-> (x <= y)%Q.
Proof.
  unfold Qgtb. rewrite negb_false_iff. apply Qle_bool_iff.
Qed.

(** The loop of [get_best_action] from any point: either no remaining child
    beats the best rate so far and the action so far stays, or the result is
    the parent action of the first remaining child of greatest rate. *)
Lemma scan_rates_spec (σ : store) (children : list nat) :
  (forall c, c ∈ children -> exists child, σ !! c = Some child /\ 0 < visits child) ->
  forall action bestRate,
  exists res, scan_rates σ children action bestRate = Ok res
    /\ ((res = action
         /\ forall c child, c ∈ children -> σ !! c = Some child ->
              (win_rate child <= bestRate)%Q)
        \/ (exists j c best,
              children !! j = Some c /\ σ !! c = Some best
              /\ res = parent_action best
              /\ (bestRate < win_rate best)%Q
              /\ forall i c' child,
                   children !! i = Some c' -> σ !! c' = Some child ->
                   (win_rate child <= win_rate best)%Q
                   /\ ((i < j)%nat -> (win_rate child < win_rate best)%Q))).
Proof.
  induction children as [|c rest IH]; intros Hall action bestRate.
  - exists action. split; [reflexivity|]. left. split; [reflexivity|].
    intros c child Hc. inversion Hc.
  - destruct (Hall c) as (child & Hchild & Hv); [left|].
    assert (Hrest : forall c', c' ∈ rest ->
              exists child', σ !! c' = Some child' /\ 0 < visits child').
    { intros c' Hc'. apply Hall. right. assumption. }
    specialize (IH Hrest). cbn [scan_rates].
    rewrite (deref_ok _ _ _ Hchild). cbn [bind].
    destruct (visits child =? 0) eqn:Hz; [apply Z.eqb_eq in Hz; lia|].
    fold (win_rate child).
    destruct (Qgtb (win_rate child) bestRate) eqn:Hgt.
    + apply Qgtb_true in Hgt.
      destruct (IH (parent_action child) (win_rate child))
        as (res & Hres & [[-> Hle]|(j & c1 & best & Hj & Hb & -> & Hlt & Hmax)]).
      * exists (parent_action child). split; [exact Hres|]. right.
        exists 0%nat, c, child. repeat split; try assumption; try reflexivity.
        -- destruct i as [|i]; simpl in H.
           ++ injection H as <-. rewrite Hchild in H0. injection H0 as <-.
              apply Qle_refl.
           ++ apply (Hle c'); [|assumption].
              apply list_elem_of_lookup. eauto.
        -- lia.
      * exists (parent_action best). split; [exact Hres|]. right.
        exists (S j), c1, best. repeat split; try assumption.
        -- eapply Qlt_trans; eassumption.
        -- destruct i as [|i]; simpl in H.
           ++ injection H as <-. rewrite Hchild in H0. injection H0 as <-.
              apply Qlt_le_weak. assumption.
           ++ apply (Hmax i c'); assumption.
        -- destruct i as [|i]; simpl in H.
           ++ injection H as <-. rewrite Hchild in H0. injection H0 as <-.
              intros _. assumption.
           ++ intros Hi. apply (Hmax i c'); [assumption..|lia].
    + apply Qgtb_false in Hgt.
      destruct (IH action bestRate)
        as (res & Hres & [[-> Hle]|(j & c1 & best & Hj & Hb & -> & Hlt & Hmax)]).
      * exists action. split; [exact Hres|]. left. split; [reflexivity|].
        intros c' child' Hc' Hchild'. inversion Hc'; subst.
        -- rewrite Hchild in Hchild'. injection Hchild' as <-. assumption.
        -- apply (Hle c'); assumption.
      * exists (parent_action best). split; [exact Hres|]. right.
        exists (S j), c1, best. repeat split; try assumption.
        -- destruct i as [|i]; simpl in H.
           ++ injection H as <-. rewrite Hchild in H0. injection H0 as <-.
              apply Qlt_le_weak. eapply Qle_lt_trans; eassumption.
           ++ apply (Hmax i c'); assumption.
        -- destruct i as [|i]; simpl in H.
           ++ injection H as <-. rewrite Hchild in H0. injection H0 as <-.
              intros _. eapply Qle_lt_trans; eassumption.
           ++ intros Hi. apply (Hmax i c'); [assumption..|lia].
Qed.

(** C4.  The root has at least one child, every child has been visited and
    has a win rate above the initial [bestRate] of -999999 (outcomes lie in
    -1..1, so every rate the search produces is at least -1).  Then
    [get_best_action] returns the parent action of a child of the root that
    exists in the tree with [visits > 0], whose rate no child exceeds and
    which every child before it in the order of the mapping falls short
    of. *)
Theorem get_best_action_argmax (σ : store) (root_node : MCTSNode) :
  child_nodes root_node <> [] ->
  (forall c, c ∈ dict_values (child_nodes root_node) ->
     exists child, σ !! c = Some child /\ 0 < visits child
                   /\ (inject_Z (-999999) < win_rate child)%Q) ->
  exists j c best,
    dict_values (child_nodes root_node) !! j = Some c
    /\ σ !! c = Some best
    /\ 0 < visits best
    /\ get_best_action σ root_node = Ok (parent_action best)
    /\ forall i c' child,
         dict_values (child_nodes root_node) !! i = Some c' ->
         σ !! c' = Some child ->
         (win_rate child <= win_rate best)%Q
         /\ ((i < j)%nat -> (win_rate child < win_rate best)%Q).
Proof.
  intros Hne Hall. unfold get_best_action.
  destruct (scan_rates_spec σ (dict_values (child_nodes root_node)))
    with (action := @None Action) (bestRate := inject_Z (-999999))
    as (res & Hres & [[-> Hle]|(j & c & best & Hj & Hb & -> & Hlt & Hmax)]).
  - intros c Hc. destruct (Hall c Hc) as (child & ? & ? & _). eauto.
  - exfalso. destruct (child_nodes root_node) as [|[a c] d]; [congruence|].
    destruct (Hall c) as (child & Hchild & _ & Hlt); [left|].
    apply (Qlt_not_le _ _ Hlt). apply (Hle c); [left|assumption].
  - exists j, c, best. split; [assumption|]. split; [assumption|].
    split; [|split; assumption].
    destruct (Hall c) as (child & Hchild & Hv & _).
    { apply list_elem_of_lookup. eauto. }
    congruence.
Qed.

Example get_best_action_rated :
  (let* root_node := deref rated_store 0 in
   get_best_action rated_store root_node) = Ok (Some a_win).
Proof. vm_compute. reflexivity. Qed.

Lemma get_best_action_argmax_witness :
  exists root_node, rated_store !! 0%nat = Some root_node
  /\ exists j c best,
    dict_values (child_nodes root_node) !! j = Some c
    /\ rated_store !! c = Some best
    /\ 0 < visits best
    /\ get_best_action rated_store root_node = Ok (parent_action best)
    /\ forall i c' child,
         dict_values (child_nodes root_node) !! i = Some c' ->
         rated_store !! c' = Some child ->
         (win_rate child <= win_rate best)%Q
         /\ ((i < j)%nat -> (win_rate child < win_rate best)%Q).
Proof.
  eexists. split; [reflexivity|].
  apply get_best_action_argmax.
  - discriminate.
  - intros c Hc. simpl in Hc.
    repeat (apply elem_of_cons in Hc as [->|Hc]);
      [| | |inversion Hc];
      (eexists; split; [reflexivity|]; split; reflexivity).
Defined.

(** ** The backpropagator *)

Lemma parent_chain_det (σ : store) n l1 l2 :
  parent_chain σ n l1 -> parent_chain σ n l2 -> l1 = l2.
Proof.
  intros H1. revert l2.
  induction H1 as [n nd Hn Hp|n nd p l Hn Hp _ IH]; intros l2 H2;
    inversion H2; subst; try congruence.
  f_equal. apply IH. congruence.
Qed.

Lemma parent_chain_from (σ : store) n l m :
  parent_chain σ n l -> m ∈ l ->
  exists l', parent_chain σ m l' /\ (length l' <= length l)%nat.
Proof.
  intros H. induction H as [n nd Hn Hp|n nd p l Hn Hp Hl IH]; intros Hm.
  - apply list_elem_of_singleton in Hm as ->. exists [n].
    split; [econstructor; eassumption|lia].
  - apply elem_of_cons in Hm as [->|Hm].
    + exists (n :: l). split; [econstructor; eassumption|lia].
    + destruct (IH Hm) as (l' & Hl' & Hlen). exists l'.
      split; [assumption|simpl; lia].
Qed.

Lemma parent_chain_NoDup (σ : store) n l : parent_chain σ n l -> NoDup l.
Proof.
  intros H. induction H as [n nd Hn Hp|n nd p l Hn Hp Hl IH].
  - apply NoDup_singleton.
  - apply NoDup_cons. split; [|assumption]. intros Hin.
    destruct (parent_chain_from σ p l n Hl Hin) as (l' & Hl' & Hlen).
    assert (Heq : l' = n :: l).
    { eapply parent_chain_det; [eassumption|]. econstructor; eassumption. }
    subst l'. simpl in Hlen. lia.
Qed.

Lemma parent_chain_ext (σ σ' : store) n l :
  (forall i, parent <$> (σ' !! i) = parent <$> (σ !! i)) ->
  parent_chain σ n l -> parent_chain σ' n l.
Proof.
  intros Hext H. induction H as [n nd Hn Hp|n nd p l Hn Hp Hl IH].
  - specialize (Hext n). rewrite Hn in Hext.
    destruct (σ' !! n) as [nd'|] eqn:E; [|discriminate].
    injection Hext as Hext. apply (chain_root _ n nd'); [assumption|congruence].
  - specialize (Hext n). rewrite Hn in Hext.
    destruct (σ' !! n) as [nd'|] eqn:E; [|discriminate].
    injection Hext as Hext.
    apply (chain_step _ n nd' p l); [assumption|congruence|assumption].
Qed.

Lemma visit_parents (σ : store) n nd won i :
  σ !! n = Some nd ->
  parent <$> (<[n := visited won nd]> σ !! i) = parent <$> (σ !! i).
Proof.
  intros Hn. destruct (decide (i = n)) as [->|Hne].
  - rewrite list_lookup_insert_eq by (eapply lookup_lt_Some; eassumption).
    rewrite Hn. reflexivity.
  - rewrite list_lookup_insert_ne by congruence. reflexivity.
Qed.

(** The effect of [backpropagate] along the path it walks. *)
Lemma backpropagate_chain (σ : store) (node : nat) (l : list nat)
    (won : Z) (fuel : nat) :
  parent_chain σ node l ->
  (length l <= fuel)%nat ->
  exists σ',
    backpropagate fuel σ node won = Ok σ'
    /\ length σ' = length σ
    /\ NoDup l
    /\ head l = Some node
    /\ (forall i nd, i ∈ l -> σ !! i = Some nd ->
          σ' !! i = Some (visited won nd)
          /\ wins (visited won nd) = wins nd + won
          /\ visits (visited won nd) = visits nd + 1)
    /\ (forall i, i ∉ l -> σ' !! i = σ !! i).
Proof.
  intros Hchain. pose proof (parent_chain_NoDup _ _ _ Hchain) as Hnd.
  assert (Hhead : head l = Some node) by (destruct Hchain; reflexivity).
  revert σ node fuel Hchain Hnd Hhead.
  induction l as [|n l IH]; intros σ node fuel Hchain Hnd _ Hfuel;
    [inversion Hchain|].
  destruct fuel as [|fuel]; [simpl in Hfuel; lia|].
  assert (Hnode : n = node) by (inversion Hchain; reflexivity). subst n.
  assert (exists nd, σ !! node = Some nd) as [nd Hn]
    by (inversion Hchain; eauto).
  pose proof (lookup_lt_Some _ _ _ Hn) as Hlt.
  cbn [backpropagate]. rewrite (deref_ok _ _ _ Hn). cbn [bind].
  fold (visited won nd).
  inversion Hchain as [n0 nd0 Hn0 Hp|n0 nd0 p l0 Hn0 Hp Hl]; subst;
    assert (nd0 = nd) as -> by congruence; rewrite Hp.
  - eexists. split; [reflexivity|]. split; [apply length_insert|].
    split; [assumption|]. split; [reflexivity|]. split.
    + intros i nd' Hi Hnd'. apply list_elem_of_singleton in Hi as ->.
      assert (nd' = nd) as -> by congruence.
      split; [|split; reflexivity].
      apply list_lookup_insert_eq. assumption.
    + intros i Hi. apply list_lookup_insert_ne. intros ->. apply Hi. left.
  - pose proof Hnd as Hnd0. apply NoDup_cons in Hnd as [Hnl Hndl].
    assert (Hl' : parent_chain (<[node := visited won nd]> σ) p l).
    { eapply parent_chain_ext; [|exact Hl].
      intros i. apply visit_parents. assumption. }
    simpl in Hfuel.
    destruct (IH _ p fuel Hl' Hndl) as (σ' & Hrun & Hlen & _ & _ & Hon & Hoff);
      [destruct Hl'; reflexivity|lia|].
    exists σ'. split; [exact Hrun|].
    split; [rewrite Hlen; apply length_insert|].
    split; [assumption|]. split; [reflexivity|]. split.
    + intros i nd' Hi Hnd'. apply elem_of_cons in Hi as [->|Hi].
      * assert (nd' = nd) as -> by congruence.
        split; [|split; reflexivity].
        rewrite (Hoff node Hnl). apply list_lookup_insert_eq. assumption.
      * apply Hon; [assumption|].
        rewrite list_lookup_insert_ne; [assumption|].
        intros ->. contradiction.
    + intros i Hi. apply not_elem_of_cons in Hi as [Hne Hi].
      rewrite (Hoff i Hi). apply list_lookup_insert_ne. congruence.
Qed.

(** C2.  When the parent references lead from [node] up to the root along
    the path [l] and the fuel covers the path, [backpropagate] returns, and
    in the store it leaves every node of the path has [won] more wins and
    one more visit and is otherwise as before, the path holds each of its
    nodes once, and every node off the path is unchanged. *)
Theorem backpropagate_path (σ : store) (node : nat) (l : list nat)
    (won : Z) (fuel : nat) :
  parent_chain σ node l ->
  (length l <= fuel)%nat ->
  exists σ',
    backpropagate fuel σ node won = Ok σ'
    /\ length σ' = length σ
    /\ NoDup l
    /\ head l = Some node
    /\ (forall i nd, i ∈ l -> σ !! i = Some nd ->
          σ' !! i = Some (visited won nd)
          /\ wins (visited won nd) = wins nd + won
          /\ visits (visited won nd) = visits nd + 1)
    /\ (forall i, i ∉ l -> σ' !! i = σ !! i).
Proof. apply backpropagate_chain. Qed.

(** A simulation from the child of the two-node tree: both nodes are on the
    path. *)
Lemma backpropagate_path_witness :
  exists σ',
    backpropagate 2 (forced_store 3) 1 (-1) = Ok σ'
    /\ length σ' = 2%nat
    /\ NoDup [1%nat; 0%nat]
    /\ head [1%nat; 0%nat] = Some 1%nat
    /\ (forall i nd, i ∈ [1%nat; 0%nat] -> forced_store 3 !! i = Some nd ->
          σ' !! i = Some (visited (-1) nd)
          /\ wins (visited (-1) nd) = wins nd + -1
          /\ visits (visited (-1) nd) = visits nd + 1)
    /\ (forall i, i ∉ [1%nat; 0%nat] -> σ' !! i = forced_store 3 !! i).
Proof.
  apply (backpropagate_path (forced_store 3) 1 [1%nat; 0%nat] (-1) 2).
  - eapply chain_step; [reflexivity|reflexivity|].
    eapply chain_root; reflexivity.
  - simpl. lia.
Defined.

(** ** The selection score *)

Section Selector.

Context {State : Type} (board : Board State).

Lemma ucb_value (σ : store) (node pn : MCTSNode) (p : nat) (b : bool) :
  parent node = Some p -> σ !! p = Some pn ->
  0 < visits node -> 1 <= visits pn ->
  ucb σ node b
  = Ok (let rate := (IZR (wins node) / IZR (visits node))%R in
        let explore :=
          (2 * sqrt (ln (IZR (visits pn)) / IZR (visits node)))%R in
        if b then rate + explore else 1 - rate + explore)%R.
Proof.
  intros Hp Hpn Hv Hpv. unfold ucb.
  destruct (visits node =? 0) eqn:E1; [apply Z.eqb_eq in E1; lia|].
  rewrite Hp, (deref_ok _ _ _ Hpn). cbn [bind].
  destruct (visits pn <=? 0) eqn:E2; [apply Z.leb_le in E2; lia|].
  destruct (visits node <? 0) eqn:E3; [apply Z.ltb_lt in E3; lia|].
  reflexivity.
Qed.

(** The two branches of [ucb], for the flag
    [bot_identity == board.current_player(state)]: with the flag true the
    score of a visited child of a visited parent is
    [wins/visits + 2*sqrt(ln(parent.visits)/visits)] and grows strictly with
    [wins]; otherwise it is [(1 - wins/visits) + 2*sqrt(...)] and falls
    strictly as [wins] grows.  Scores are real numbers. *)
Theorem ucb_perspective (σ : store) (state : State) (bot_identity : Player)
    (p : nat) (pn : MCTSNode) pa children untried (v w1 w2 : Z) :
  σ !! p = Some pn ->
  0 < v -> 1 <= visits pn -> w1 < w2 ->
  let child w := mkNode (Some p) pa children untried w v in
  let score w :=
    ucb σ (child w) (bot_identity =? current_player board state) in
  let explore := (2 * sqrt (ln (IZR (visits pn)) / IZR v))%R in
  (bot_identity = current_player board state ->
     score w1 = Ok (IZR w1 / IZR v + explore)%R
     /\ score w2 = Ok (IZR w2 / IZR v + explore)%R
     /\ (IZR w1 / IZR v + explore < IZR w2 / IZR v + explore)%R)
  /\ (bot_identity <> current_player board state ->
     score w1 = Ok (1 - IZR w1 / IZR v + explore)%R
     /\ score w2 = Ok (1 - IZR w2 / IZR v + explore)%R
     /\ (1 - IZR w2 / IZR v + explore < 1 - IZR w1 / IZR v + explore)%R).
Proof.
  intros Hpn Hv Hpv Hw child score explore.
  assert (Hrate : (IZR w1 / IZR v < IZR w2 / IZR v)%R).
  { unfold Rdiv. apply Rmult_lt_compat_r.
    - apply Rinv_0_lt_compat. apply (IZR_lt 0). assumption.
    - apply IZR_lt. assumption. }
  assert (Hscore : forall w b,
    ucb σ (child w) b
    = Ok (if b then IZR w / IZR v + explore
          else 1 - IZR w / IZR v + explore)%R).
  { intros w b. unfold child.
    rewrite (ucb_value σ _ pn p b) by (simpl; auto). reflexivity. }
  split; intros Hbot; unfold score.
  - apply Z.eqb_eq in Hbot. rewrite Hbot, !Hscore.
    split; [reflexivity|]. split; [reflexivity|]. lra.
  - apply Z.eqb_neq in Hbot. rewrite Hbot, !Hscore.
    split; [reflexivity|]. split; [reflexivity|]. lra.
Qed.

End Selector.

(** The child of the two-node tree after three simulations, one more win
    against one fewer; player 2 is to move at [Captured]. *)
Lemma ucb_perspective_witness :
  let explore := (2 * sqrt (ln (IZR 3) / IZR 3))%R in
  let score bot w :=
    ucb (forced_store 3) (mkNode (Some 0%nat) (Some a_draw) [] [] w 3)
      (bot =? current_player toy_board Captured) in
  (score 2 0 = Ok (IZR 0 / IZR 3 + explore)%R
   /\ score 2 1 = Ok (IZR 1 / IZR 3 + explore)%R
   /\ (IZR 0 / IZR 3 + explore < IZR 1 / IZR 3 + explore)%R)
  /\ (score 1 0 = Ok (1 - IZR 0 / IZR 3 + explore)%R
   /\ score 1 1 = Ok (1 - IZR 1 / IZR 3 + explore)%R
   /\ (1 - IZR 1 / IZR 3 + explore < 1 - IZR 0 / IZR 3 + explore)%R).
Proof.
  intros explore score.
  assert (H3 : forced_store 3 !! 0%nat
               = Some (mkNode None None [(a_draw, 1%nat)] [] 0 3))
    by reflexivity.
  split.
  - apply (ucb_perspective toy_board (forced_store 3) Captured 2 0%nat _
             (Some a_draw) [] [] 3 0 1 H3); [lia|simpl; lia|lia|reflexivity].
  - apply (ucb_perspective toy_board (forced_store 3) Captured 1 0%nat _
             (Some a_draw) [] [] 3 0 1 H3); [lia|simpl; lia|lia|discriminate].
Defined.

(** ** The tree built by the search driver *)

Lemma store_grows_inv (σ σ' : store) i nd' :
  store_grows σ σ' -> σ' !! i = Some nd' ->
  exists nd, σ !! i = Some nd /\ same_shape nd nd'.
Proof.
  intros [Hs Hn] H'. destruct (σ !! i) as [nd|] eqn:E.
  - destruct (Hs i nd E) as (nd2 & H2 & Hsh). exists nd.
    split; [reflexivity|]. congruence.
  - rewrite (Hn i E) in H'. discriminate.
Qed.

Lemma tree_ok_grows (σ σ' : store) :
  store_grows σ σ' -> tree_ok σ -> tree_ok σ'.
Proof.
  intros Hg [Hroot Hlt Hsome Hchild Hval Hvis]. split.
  - destruct Hroot as [r Hr]. destruct (proj1 Hg _ _ Hr) as (r' & Hr' & _).
    eauto.
  - intros i nd' p Hi Hp.
    destruct (store_grows_inv _ _ _ _ Hg Hi) as (nd & Hnd & Hsh & _).
    apply (Hlt i nd p); congruence.
  - intros i nd' Hi Hne.
    destruct (store_grows_inv _ _ _ _ Hg Hi) as (nd & Hnd & Hsh & _).
    rewrite Hsh. apply (Hsome i nd); assumption.
  - intros p pn' a c Hp Hin.
    destruct (store_grows_inv _ _ _ _ Hg Hp) as (pn & Hpn & _ & _ & Hch & _).
    rewrite Hch in Hin.
    destruct (Hchild p pn a c Hpn Hin) as (cn & Hcn & Hpar).
    destruct (proj1 Hg _ _ Hcn) as (cn' & Hcn' & Hsh & _).
    exists cn'. split; [assumption|congruence].
  - intros p pn' Hp.
    destruct (store_grows_inv _ _ _ _ Hg Hp) as (pn & Hpn & _ & _ & Hch & _).
    rewrite Hch. apply (Hval p pn). assumption.
  - intros i nd' Hi.
    destruct (store_grows_inv _ _ _ _ Hg Hi) as (nd & Hnd & _ & _ & _ & _ & Hv).
    specialize (Hvis i nd Hnd). lia.
Qed.

Lemma tree_ok_root_store {State : Type} (board : Board State) (s : State) :
  tree_ok (root_store board s)
  /\ children_visited (root_store board s) None
  /\ root_count (root_store board s) 0.
Proof.
  unfold root_store. split; [split|split].
  - eexists. reflexivity.
  - intros [|i] nd p Hi Hp; simpl in Hi; [|discriminate].
    injection Hi as <-. discriminate.
  - intros [|i] nd Hi Hne; simpl in Hi; [congruence|discriminate].
  - intros [|p] pn a c Hp Hin; simpl in Hp; [|discriminate].
    injection Hp as <-. inversion Hin.
  - intros [|p] pn Hp; simpl in Hp; [|discriminate].
    injection Hp as <-. apply NoDup_nil_2.
  - intros [|i] nd Hi; simpl in Hi; [|discriminate].
    injection Hi as <-. simpl. lia.
  - intros [|p] pn a c cn Hp Hin; simpl in Hp; [|discriminate].
    injection Hp as <-. inversion Hin.
  - eexists. split; [reflexivity|]. simpl. split; [reflexivity|lia].
Qed.

(** *** Paths to the root *)

Lemma parent_chain_elem (σ : store) n l i :
  parent_chain σ n l -> i ∈ l -> exists nd, σ !! i = Some nd.
Proof.
  intros H Hi. destruct (parent_chain_from σ n l i H Hi) as (l' & Hl' & _).
  destruct Hl'; eauto.
Qed.

Lemma parent_chain_parent_in (σ : store) n l i nd p :
  parent_chain σ n l -> i ∈ l -> σ !! i = Some nd -> parent nd = Some p ->
  p ∈ l.
Proof.
  intros H. induction H as [n nd0 Hn Hp|n nd0 q l Hn Hp Hl IH];
    intros Hi Hnd Hpar.
  - apply list_elem_of_singleton in Hi as ->. congruence.
  - apply elem_of_cons in Hi as [->|Hi].
    + assert (q = p) as -> by congruence. right.
      destruct Hl; left.
    + right. apply IH; assumption.
Qed.

Lemma tree_ok_root_parent (σ : store) r :
  tree_ok σ -> σ !! 0%nat = Some r -> parent r = None.
Proof.
  intros Hok Hr. destruct (parent r) as [p|] eqn:E; [|reflexivity].
  pose proof (ok_parent_lt σ Hok _ _ _ Hr E). lia.
Qed.

Lemma parent_chain_root_in (σ : store) n l :
  tree_ok σ -> parent_chain σ n l -> 0%nat ∈ l.
Proof.
  intros Hok H. induction H as [n nd Hn Hp|n nd p l Hn Hp Hl IH].
  - destruct (decide (n = 0%nat)) as [->|Hne]; [left|].
    exfalso. exact (ok_parent_some σ Hok n nd Hn Hne Hp).
  - right. assumption.
Qed.

(** At most one node of a path is a child of the root. *)
Lemma parent_chain_root_child (σ : store) n l x y nx ny :
  tree_ok σ -> parent_chain σ n l ->
  x ∈ l -> y ∈ l -> σ !! x = Some nx -> σ !! y = Some ny ->
  parent nx = Some 0%nat -> parent ny = Some 0%nat -> x = y.
Proof.
  intros Hok H. revert x y nx ny.
  assert (Hroot : forall l0 z nz, parent_chain σ 0 l0 -> z ∈ l0 ->
            σ !! z = Some nz -> parent nz = Some 0%nat -> False).
  { intros l0 z nz H0 Hz Hnz Hpz.
    inversion H0 as [n0 nd0 Hn0 Hp0|n0 nd0 p0 l1 Hn0 Hp0 Hl1]; subst.
    - apply list_elem_of_singleton in Hz as ->.
      rewrite Hn0 in Hnz. injection Hnz as <-. congruence.
    - rewrite (tree_ok_root_parent σ nd0 Hok Hn0) in Hp0. discriminate. }
  induction H as [n nd Hn Hp|n nd p l Hn Hp Hl IH];
    intros x y nx ny Hx Hy Hnx Hny Hpx Hpy.
  - apply list_elem_of_singleton in Hx as ->.
    apply list_elem_of_singleton in Hy as ->. reflexivity.
  - apply elem_of_cons in Hx as [->|Hx]; apply elem_of_cons in Hy as [->|Hy].
    + reflexivity.
    + exfalso. assert (p = 0%nat) as -> by congruence.
      exact (Hroot l y ny Hl Hy Hny Hpy).
    + exfalso. assert (p = 0%nat) as -> by congruence.
      exact (Hroot l x nx Hl Hx Hnx Hpx).
    + eapply IH; eassumption.
Qed.

(** A successful backpropagation walked a path to the root. *)
Lemma backpropagate_ok_chain (fuel : nat) (σ σ' : store) (n : nat) (won : Z) :
  backpropagate fuel σ n won = Ok σ' ->
  exists l, parent_chain σ n l /\ (length l <= fuel)%nat.
Proof.
  revert σ n. induction fuel as [|fuel IH]; intros σ n; [discriminate|].
  cbn [backpropagate]. intros H.
  apply bind_ok in H as (nd & Hnd & H). apply deref_inv in Hnd.
  cbv zeta in H. fold (visited won nd) in H.
  destruct (parent nd) as [p|] eqn:Hp.
  - destruct (IH _ _ H) as (l & Hl & Hlen).
    exists (n :: l). split; [|simpl; lia].
    eapply chain_step; [eassumption..|].
    eapply parent_chain_ext; [|exact Hl].
    intros i. symmetry. apply visit_parents. assumption.
  - exists [n]. split; [|simpl; lia]. eapply chain_root; eassumption.
Qed.

(** *** Sums of visits *)

Lemma sum_visits_ext (σ σ' : store) cs :
  (forall c, c ∈ cs -> visits_at σ' c = visits_at σ c) ->
  sum_visits σ' cs = sum_visits σ cs.
Proof.
  induction cs as [|c cs IH]; intros H; [reflexivity|].
  simpl. rewrite (H c) by left. rewrite IH; [reflexivity|].
  intros c' Hc'. apply H. right. assumption.
Qed.

Lemma sum_visits_bump (σ σ' : store) (l cs : list nat) :
  NoDup cs ->
  (forall x y, x ∈ cs -> y ∈ cs -> x ∈ l -> y ∈ l -> x = y) ->
  (forall c, c ∈ l -> visits_at σ' c = visits_at σ c + 1) ->
  (forall c, c ∉ l -> visits_at σ' c = visits_at σ c) ->
  sum_visits σ' cs <= sum_visits σ cs + 1.
Proof.
  intros Hnd Huniq Hon Hoff.
  induction cs as [|c cs IH]; [simpl; lia|].
  apply NoDup_cons in Hnd as [Hc Hnd]. simpl.
  destruct (decide (c ∈ l)) as [Hin|Hout].
  - rewrite (Hon c Hin).
    rewrite (sum_visits_ext σ σ' cs); [lia|].
    intros c' Hc'. apply Hoff. intros Hin'.
    assert (c = c') as -> by (apply Huniq; [left|right|..]; assumption).
    contradiction.
  - rewrite (Hoff c Hout).
    assert (sum_visits σ' cs <= sum_visits σ cs + 1); [|lia].
    apply IH; [assumption|].
    intros x y Hx Hy. apply Huniq; right; assumption.
Qed.

Lemma sum_visits_dict_set (σ σ' : store) d k v :
  (forall c, c ∈ dict_values d ->
     visits_at σ' c = visits_at σ c /\ 0 <= visits_at σ c) ->
  visits_at σ' v = 0 ->
  sum_visits σ' (dict_values (dict_set d k v)) <= sum_visits σ (dict_values d).
Proof.
  intros Hold Hnew. induction d as [|[k' v'] d IH]; simpl.
  - rewrite Hnew. lia.
  - assert (Hrest : forall c, c ∈ dict_values d ->
              visits_at σ' c = visits_at σ c /\ 0 <= visits_at σ c).
    { intros c Hc. apply Hold. right. assumption. }
    destruct (Hold v') as [Hv1 Hv2]; [left|].
    destruct (decide (k' = k)) as [->|Hne]; simpl.
    + rewrite Hnew.
      rewrite (sum_visits_ext σ σ' (dict_values d));
        [lia|intros c Hc; apply Hrest; assumption].
    + rewrite Hv1. specialize (IH Hrest). lia.
Qed.

(** *** One simulation keeps the tree in shape *)

Lemma backpropagate_grows (fuel : nat) (σ σ' : store) (n : nat) (won : Z) :
  backpropagate fuel σ n won = Ok σ' ->
  exists l, parent_chain σ n l /\ head l = Some n
    /\ store_grows σ σ'
    /\ (forall c, c ∈ l -> visits_at σ' c = visits_at σ c + 1)
    /\ (forall c, c ∉ l -> visits_at σ' c = visits_at σ c).
Proof.
  intros Hrun. destruct (backpropagate_ok_chain _ _ _ _ _ Hrun) as (l & Hl & Hlen).
  destruct (backpropagate_chain σ n l won fuel Hl Hlen)
    as (σ2 & Hrun2 & _ & _ & Hhead & Hon & Hoff).
  assert (σ2 = σ') as -> by congruence.
  exists l. split; [assumption|]. split; [assumption|]. split; [split|split].
  - intros i nd Hi. destruct (decide (i ∈ l)) as [Hin|Hout].
    + destruct (Hon i nd Hin Hi) as (Hi' & _). eexists. split; [exact Hi'|].
      unfold same_shape. simpl. repeat split; try reflexivity. lia.
    + rewrite (Hoff i Hout). exists nd. split; [assumption|].
      unfold same_shape. repeat split; reflexivity.
  - intros i Hi. destruct (decide (i ∈ l)) as [Hin|Hout].
    + destruct (parent_chain_elem σ n l i Hl Hin) as [nd Hnd]. congruence.
    + rewrite (Hoff i Hout). assumption.
  - intros c Hc. destruct (parent_chain_elem σ n l c Hl Hc) as [nd Hnd].
    destruct (Hon c nd Hc Hnd) as (Hc' & _). unfold visits_at.
    rewrite Hc', Hnd. reflexivity.
  - intros c Hc. unfold visits_at. rewrite (Hoff c Hc). reflexivity.
Qed.

Lemma backpropagate_inv (fuel : nat) (σ σ' : store) (n : nat) (won : Z) :
  tree_ok σ -> children_visited σ (Some n) ->
  backpropagate fuel σ n won = Ok σ' ->
  tree_ok σ' /\ children_visited σ' None
  /\ forall k, root_count σ k -> root_count σ' (k + 1).
Proof.
  intros Hok Hvis Hrun.
  destruct (backpropagate_grows _ _ _ _ _ Hrun)
    as (l & Hl & Hhead & Hg & Hon & Hoff).
  assert (Hnl : n ∈ l).
  { destruct l as [|n0 l]; [discriminate|]. injection Hhead as ->. left. }
  split; [eapply tree_ok_grows; eassumption|]. split.
  - intros p pn' a c cn' Hp Hin Hc _.
    destruct (store_grows_inv _ _ _ _ Hg Hp)
      as (pn & Hpn & _ & _ & Hch & _ & Hpv).
    destruct (store_grows_inv _ _ _ _ Hg Hc)
      as (cn & Hcn & _ & _ & _ & _ & Hcv).
    rewrite Hch in Hin.
    destruct (decide (c = n)) as [->|Hne].
    + destruct (ok_child σ Hok p pn a n Hpn Hin) as (cn0 & Hcn0 & Hpar).
      assert (cn0 = cn) as -> by congruence.
      assert (Hpl : p ∈ l) by (eapply parent_chain_parent_in; eassumption).
      pose proof (Hon n Hnl) as H1. pose proof (Hon p Hpl) as H2.
      unfold visits_at in H1, H2. rewrite Hc, Hcn in H1. rewrite Hp, Hpn in H2.
      pose proof (ok_visits σ Hok _ _ Hcn). pose proof (ok_visits σ Hok _ _ Hpn).
      lia.
    + destruct (Hvis p pn a c cn Hpn Hin Hcn) as [H1 H2]; [congruence|]. lia.
  - intros k (r & Hr & Hk & Hsum).
    destruct (proj1 Hg _ _ Hr) as (r' & Hr' & _ & _ & Hch & _).
    exists r'. split; [assumption|].
    pose proof (Hon 0%nat (parent_chain_root_in σ n l Hok Hl)) as H0.
    unfold visits_at in H0. rewrite Hr, Hr' in H0. split; [lia|].
    rewrite Hch.
    assert (sum_visits σ' (dict_values (child_nodes r))
            <= sum_visits σ (dict_values (child_nodes r)) + 1); [|lia].
    apply (sum_visits_bump σ σ' l); [eapply ok_values; eassumption| |assumption..].
    assert (Hreg : forall x, x ∈ dict_values (child_nodes r) ->
              exists nx, σ !! x = Some nx /\ parent nx = Some 0%nat).
    { intros x Hx. apply list_elem_of_fmap in Hx as ([a x'] & -> & Hx).
      exact (ok_child σ Hok 0%nat r a x' Hr Hx). }
    intros x y Hx Hy Hxl Hyl.
    destruct (Hreg x Hx) as (nx & Hnx & Hpx).
    destruct (Hreg y Hy) as (ny & Hny & Hpy).
    eapply parent_chain_root_child; eassumption.
Qed.

Lemma list_pop_Some {A : Type} (l r : list A) (x : A) :
  list_pop l = Some (r, x) -> l = r ++ [x].
Proof.
  revert r. induction l as [|y l IH]; intros r; [discriminate|].
  simpl. destruct l as [|z l].
  - intros [= <- <-]. reflexivity.
  - destruct (list_pop (z :: l)) as [[r' w]|]; [|discriminate].
    intros [= <- <-]. rewrite (IH r' eq_refl). reflexivity.
Qed.

Lemma expand_leaf_cases {State : Type} (board : Board State)
    (σ σ1 : store) (leaf newLeaf : nat) (s s2 : State) :
  expand_leaf board σ leaf s = Ok (σ1, newLeaf, s2) ->
  exists nd, σ !! leaf = Some nd
    /\ ((untried_actions nd = [] /\ σ1 = σ /\ newLeaf = leaf /\ s2 = s)
        \/ exists rest a,
             untried_actions nd = rest ++ [a]
             /\ s2 = next_state board s a
             /\ newLeaf = length σ
             /\ σ1 = expanded σ leaf nd rest a (legal_actions board s2)).
Proof.
  unfold expand_leaf. intros H. apply bind_ok in H as (nd & Hnd & H).
  apply deref_inv in Hnd. exists nd. split; [assumption|].
  destruct (list_pop (untried_actions nd)) as [[rest a]|] eqn:Hpop.
  - right. exists rest, a. apply list_pop_Some in Hpop.
    injection H as <- <- <-. repeat split; try assumption; reflexivity.
  - left. apply list_pop_nil in Hpop. injection H as <- <- <-. auto.
Qed.

Section Expanded.

Context (σ : store) (leaf : nat) (nd : MCTSNode) (rest : list Action)
  (a : Action) (action_list : list Action).
Context (Hleaf : σ !! leaf = Some nd).

#[local] Abbreviation σ1 := (expanded σ leaf nd rest a action_list).
#[local] Abbreviation nd' := (expanded_node σ nd rest a).
#[local] Abbreviation new := (MCTSNode_new (Some leaf) (Some a) action_list).

Lemma expanded_leaf : σ1 !! leaf = Some nd'.
Proof.
  pose proof (lookup_lt_Some _ _ _ Hleaf) as Hlt. unfold expanded.
  rewrite lookup_app_l by (rewrite length_insert; lia).
  apply list_lookup_insert_eq. assumption.
Qed.

Lemma expanded_new : σ1 !! length σ = Some new.
Proof.
  unfold expanded. rewrite lookup_app_r by (rewrite length_insert; lia).
  rewrite length_insert, Nat.sub_diag. reflexivity.
Qed.

Lemma expanded_other i :
  i <> leaf -> i <> length σ -> σ1 !! i = σ !! i.
Proof.
  intros Hi Hn. unfold expanded.
  destruct (decide (i < length σ)%nat) as [Hlt|Hge].
  - rewrite lookup_app_l by (rewrite length_insert; lia).
    apply list_lookup_insert_ne. congruence.
  - rewrite (lookup_ge_None_2 σ) by lia. apply lookup_ge_None_2.
    rewrite length_app, length_insert. simpl. lia.
Qed.

Lemma expanded_inv i n1 :
  σ1 !! i = Some n1 ->
  (i = leaf /\ n1 = nd')
  \/ (i = length σ /\ n1 = new)
  \/ (i <> leaf /\ i <> length σ /\ σ !! i = Some n1).
Proof.
  intros H. destruct (decide (i = leaf)) as [->|Hi].
  - left. rewrite expanded_leaf in H. split; congruence.
  - destruct (decide (i = length σ)) as [->|Hn].
    + right. left. rewrite expanded_new in H. split; congruence.
    + right. right. rewrite expanded_other in H by assumption. auto.
Qed.

(** Every old node is still there, with the same parent and counters. *)
Lemma expanded_old i n0 :
  σ !! i = Some n0 ->
  exists n1, σ1 !! i = Some n1 /\ parent n1 = parent n0
             /\ visits n1 = visits n0.
Proof.
  intros H. pose proof (lookup_lt_Some _ _ _ H) as Hlt.
  destruct (decide (i = leaf)) as [->|Hi].
  - exists nd'. split; [apply expanded_leaf|].
    assert (n0 = nd) as -> by congruence. split; reflexivity.
  - exists n0. rewrite expanded_other by lia. auto.
Qed.

Lemma expanded_visits_at i : i <> length σ -> visits_at σ1 i = visits_at σ i.
Proof.
  intros Hn. unfold visits_at. destruct (decide (i = leaf)) as [->|Hi].
  - rewrite expanded_leaf, Hleaf. reflexivity.
  - rewrite expanded_other by assumption. reflexivity.
Qed.

Lemma expanded_tree_ok : tree_ok σ -> tree_ok σ1.
Proof.
  intros Hok. pose proof (lookup_lt_Some _ _ _ Hleaf) as Hlt.
  assert (Hreg : forall p pn k c, σ !! p = Some pn -> (k, c) ∈ child_nodes pn ->
            exists cn, σ1 !! c = Some cn /\ parent cn = Some p).
  { intros p pn k c Hp Hin.
    destruct (ok_child σ Hok p pn k c Hp Hin) as (cn & Hcn & Hpar).
    destruct (expanded_old c cn Hcn) as (cn1 & Hcn1 & Hpar1 & _).
    exists cn1. split; [assumption|congruence]. }
  split.
  - destruct (ok_root σ Hok) as [r Hr].
    destruct (expanded_old _ _ Hr) as (r1 & Hr1 & _). eauto.
  - intros i n1 p Hi Hp.
    destruct (expanded_inv i n1 Hi) as [[-> ->]|[[-> ->]|(_ & _ & Hold)]].
    + apply (ok_parent_lt σ Hok leaf nd p); assumption.
    + simpl in Hp. injection Hp as <-. assumption.
    + apply (ok_parent_lt σ Hok i n1 p); assumption.
  - intros i n1 Hi Hne.
    destruct (expanded_inv i n1 Hi) as [[-> ->]|[[-> ->]|(_ & _ & Hold)]].
    + apply (ok_parent_some σ Hok leaf nd); assumption.
    + discriminate.
    + apply (ok_parent_some σ Hok i n1); assumption.
  - intros p pn k c Hp Hin.
    destruct (expanded_inv p pn Hp) as [[-> ->]|[[-> ->]|(_ & _ & Hold)]].
    + simpl in Hin. apply dict_set_elem in Hin as [Hin|[= -> ->]].
      * eapply Hreg; eassumption.
      * exists new. split; [apply expanded_new|reflexivity].
    + inversion Hin.
    + eapply Hreg; eassumption.
  - intros p pn Hp.
    destruct (expanded_inv p pn Hp) as [[-> ->]|[[-> ->]|(_ & _ & Hold)]].
    + simpl. apply dict_set_values_NoDup; [eapply ok_values; eassumption|].
      intros Hin. apply list_elem_of_fmap in Hin as ([k c] & Heq & Hin).
      simpl in Heq. subst c.
      destruct (ok_child σ Hok leaf nd k _ Hleaf Hin) as (cn & Hcn & _).
      apply lookup_lt_Some in Hcn. lia.
    + apply NoDup_nil_2.
    + eapply ok_values; eassumption.
  - intros i n1 Hi.
    destruct (expanded_inv i n1 Hi) as [[-> ->]|[[-> ->]|(_ & _ & Hold)]].
    + simpl. eapply ok_visits; eassumption.
    + simpl. lia.
    + eapply ok_visits; eassumption.
Qed.

Lemma expanded_children_visited :
  tree_ok σ -> children_visited σ None ->
  children_visited σ1 (Some (length σ)).
Proof.
  intros Hok Hvis p pn1 k c cn1 Hp Hin Hc Hne.
  assert (Hcn : c <> length σ) by congruence.
  assert (Hold : forall pn, σ !! p = Some pn -> (k, c) ∈ child_nodes pn ->
            visits pn = visits pn1 -> 1 <= visits cn1 /\ 1 <= visits pn1).
  { intros pn Hpn Hin0 Hpv.
    destruct (ok_child σ Hok p pn k c Hpn Hin0) as (cn & Hcn0 & _).
    destruct (expanded_old c cn Hcn0) as (cn' & Hcn' & _ & Hcv).
    assert (cn' = cn1) as -> by congruence.
    destruct (Hvis p pn k c cn Hpn Hin0 Hcn0) as [H1 H2]; [discriminate|].
    lia. }
  destruct (expanded_inv p pn1 Hp) as [[-> ->]|[[-> ->]|(_ & _ & Hpold)]].
  - simpl in Hin. apply dict_set_elem in Hin as [Hin|[= -> ->]];
      [|contradiction].
    apply (Hold nd); [assumption..|reflexivity].
  - inversion Hin.
  - apply (Hold pn1); [assumption..|reflexivity].
Qed.

Lemma expanded_root_count k :
  tree_ok σ -> root_count σ k -> root_count σ1 k.
Proof.
  intros Hok (r & Hr & Hk & Hsum).
  assert (Hvals : forall pn p, σ !! p = Some pn ->
            forall c, c ∈ dict_values (child_nodes pn) ->
            visits_at σ1 c = visits_at σ c /\ 0 <= visits_at σ c).
  { intros pn p Hp c Hc. apply list_elem_of_fmap in Hc as ([k0 c'] & -> & Hc).
    destruct (ok_child σ Hok p pn k0 c' Hp Hc) as (cn & Hcn & _). simpl. split.
    - apply expanded_visits_at. apply lookup_lt_Some in Hcn. lia.
    - unfold visits_at. rewrite Hcn. eapply ok_visits; eassumption. }
  destruct (decide (leaf = 0%nat)) as [Hz|Hnz].
  - exists nd'. rewrite <- Hz in Hr |- *.
    assert (Hrn : r = nd) by congruence. subst r.
    split; [apply expanded_leaf|]. split; [assumption|]. simpl.
    etransitivity; [|exact Hsum].
    apply sum_visits_dict_set; [eapply Hvals; eassumption|].
    unfold visits_at. rewrite expanded_new. reflexivity.
  - exists r. split.
    { pose proof (lookup_lt_Some _ _ _ Hr). rewrite expanded_other by lia.
      assumption. }
    split; [assumption|].
    rewrite (sum_visits_ext σ σ1); [assumption|].
    intros c Hc. eapply Hvals; eassumption.
Qed.

End Expanded.

Lemma expand_leaf_preserves {State : Type} (board : Board State)
    (σ σ1 : store) (leaf newLeaf : nat) (s s2 : State) :
  tree_ok σ -> children_visited σ None ->
  expand_leaf board σ leaf s = Ok (σ1, newLeaf, s2) ->
  tree_ok σ1 /\ children_visited σ1 (Some newLeaf)
  /\ forall k, root_count σ k -> root_count σ1 k.
Proof.
  intros Hok Hvis Hrun.
  destruct (expand_leaf_cases board _ _ _ _ _ _ Hrun)
    as (nd & Hnd & [(_ & -> & -> & _)|(rest & a & _ & _ & -> & ->)]).
  - split; [assumption|]. split; [|auto].
    intros p pn k c cn Hp Hin Hc _. eapply Hvis; try eassumption. discriminate.
  - split; [apply expanded_tree_ok; assumption|].
    split; [apply expanded_children_visited; assumption|].
    intros k. apply expanded_root_count; assumption.
Qed.

Section Driver.

Context {State : Type} (board : Board State).

Lemma think_iteration_inv (fuel : nat) (tape : nat -> nat) (s0 : State)
    (bot : Player) (σ σ' : store) (t t' : nat) (k : Z) :
  tree_inv σ k ->
  think_iteration board fuel tape s0 bot (σ, t) = Ok (σ', t') ->
  tree_inv σ' (k + 1).
Proof.
  intros (Hok & Hvis & Hcnt). unfold think_iteration. intros H.
  apply bind_ok in H as ([leafNode s1] & _ & H).
  apply bind_ok in H as ([[σ1 newLeaf] s2] & Hexp & H).
  apply bind_ok in H as ([s3 t3] & _ & H).
  destruct (points_values board s3) as [winValue|]; [|discriminate].
  apply bind_ok in H as (σ2 & Hback & H). injection H as <- <-.
  destruct (expand_leaf_preserves board _ _ _ _ _ _ Hok Hvis Hexp)
    as (Hok1 & Hvis1 & Hcnt1).
  destruct (backpropagate_inv _ _ _ _ _ Hok1 Hvis1 Hback)
    as (Hok2 & Hvis2 & Hcnt2).
  split; [assumption|]. split; [assumption|]. auto.
Qed.

Lemma think_loop_inv (n fuel : nat) (tape : nat -> nat) (s0 : State)
    (bot : Player) (σ σ' : store) (t t' : nat) (k : Z) :
  tree_inv σ k ->
  think_loop board n fuel tape s0 bot (σ, t) = Ok (σ', t') ->
  tree_inv σ' (k + Z.of_nat n).
Proof.
  revert σ t k. induction n as [|n IH]; intros σ t k Hinv H.
  - simpl in H. injection H as <- <-.
    replace (k + Z.of_nat 0) with k by lia. assumption.
  - cbn [think_loop] in H. apply bind_ok in H as ([σ1 t1] & Hit & H).
    replace (k + Z.of_nat (S n)) with (k + 1 + Z.of_nat n) by lia.
    eapply IH; [|exact H]. eapply think_iteration_inv; eassumption.
Qed.

Lemma think_loop_from_root (n fuel : nat) (tape : nat -> nat) (s0 : State)
    (bot : Player) (σ : store) (t : nat) :
  think_loop board n fuel tape s0 bot (root_store board s0, 0%nat)
    = Ok (σ, t) ->
  tree_inv σ (Z.of_nat n).
Proof.
  intros H. change (Z.of_nat n) with (0 + Z.of_nat n).
  eapply think_loop_inv; [|exact H]. apply tree_ok_root_store.
Qed.

(** C6.  When the hundred simulations of [think] all complete, the root has
    [visits = 100 = num_nodes] and the visits of its children sum to at most
    100.  (This holds from any starting position.) *)
Theorem think_root_visits (fuel : nat) (tape : nat -> nat) (s0 : State)
    (σ : store) (t : nat) :
  think_loop board num_nodes fuel tape s0 (current_player board s0)
    (root_store board s0, 0%nat) = Ok (σ, t) ->
  exists root_node,
    σ !! 0%nat = Some root_node
    /\ visits root_node = Z.of_nat num_nodes
    /\ visits root_node = 100
    /\ sum_visits σ (dict_values (child_nodes root_node)) <= 100.
Proof.
  intros H. apply think_loop_from_root in H as (_ & _ & (r & Hr & Hk & Hsum)).
  exists r. split; [assumption|]. split; [assumption|].
  split; [rewrite Hk; reflexivity|]. exact Hsum.
Qed.

(** The scan of the children of a fully expanded node of such a tree runs to
    its end: no child has zero visits, every score is defined. *)
Lemma scan_children_scanned (σ : store) (k : Z) (p : nat) (pn : MCTSNode)
    (s : State) (bot : Player) :
  tree_inv σ k -> σ !! p = Some pn -> untried_actions pn = [] ->
  forall keys, keys ⊆ dict_keys (child_nodes pn) ->
  forall b n a, exists b' n' a',
    scan_children board σ pn s bot keys b n a = Ok (Scanned b' n' a').
Proof.
  intros (Hok & Hvis & _) Hp Hun keys.
  induction keys as [|key keys IH]; intros Hsub b n a.
  - simpl. eauto.
  - assert (Hkey : key ∈ dict_keys (child_nodes pn)) by (apply Hsub; left).
    assert (Hrest : keys ⊆ dict_keys (child_nodes pn)).
    { intros x Hx. apply Hsub. right. assumption. }
    destruct (dict_get_key _ _ Hkey) as [c Hc].
    pose proof (dict_get_elem _ _ _ Hc) as Hin.
    destruct (ok_child σ Hok p pn key c Hp Hin) as (cn & Hcn & Hpar).
    destruct (Hvis p pn key c cn Hp Hin Hcn) as [Hv1 Hv2]; [discriminate|].
    cbn [scan_children]. rewrite Hc. cbn [bind].
    rewrite (deref_ok _ _ _ Hcn). cbn [bind]. rewrite Hun.
    destruct (visits cn =? 0) eqn:E; [apply Z.eqb_eq in E; lia|].
    cbn [orb length Nat.ltb Nat.leb].
    rewrite (ucb_value σ cn pn p _ Hpar Hp) by lia. cbn [bind].
    destruct (Rgt_dec _ b); apply IH; assumption.
Qed.

Lemma traverse_nodes_no_arith (σ : store) (k : Z) (bot : Player) :
  tree_inv σ k ->
  forall fuel node s e,
    traverse_nodes board fuel σ node s bot = Err e ->
    e <> ZeroDivisionError /\ e <> ValueError.
Proof.
  intros Hinv fuel. induction fuel as [|fuel IH]; intros node s e.
  - simpl. intros [= <-]. split; discriminate.
  - cbn [traverse_nodes]. unfold deref.
    destruct (σ !! node) as [nd|] eqn:Hnd; cbn [bind];
      [|intros [= <-]; split; discriminate].
    destruct ((length (untried_actions nd) <? 1)%nat
              && negb (is_ended board s)) eqn:Hc; [|discriminate].
    apply andb_true_iff in Hc as [Hlen _]. apply Nat.ltb_lt in Hlen.
    assert (Hun : untried_actions nd = [])
      by (destruct (untried_actions nd); [reflexivity|simpl in Hlen; lia]).
    destruct (scan_children_scanned σ k node nd s bot Hinv Hnd Hun
                (dict_keys (child_nodes nd)) (reflexivity _)
                (IZR (-999999)) None None) as (b' & n' & a' & ->).
    cbn [bind]. destruct n' as [bn|]; [destruct a' as [ba|]|];
      [apply IH|intros [= <-]; split; discriminate..].
Qed.

End Driver.

(** *** A complete search on the small board *)

(** From [Captured] the game is forced: one move, then a draw.  After the
    first simulation every later one scores the only child of the root,
    descends into it, and adds a visit to both nodes. *)
Lemma forced_first_iteration :
  think_iteration toy_board 2 zero_tape Captured 2
    (root_store toy_board Captured, 0%nat)
  = Ok (forced_store 1, 0%nat).
Proof. reflexivity. Qed.

Lemma forced_score_gt (j : Z) :
  1 <= j ->
  (IZR 0 / IZR j + 2 * sqrt (ln (IZR j) / IZR j) > IZR (-999999))%R.
Proof.
  intros Hj. pose proof (sqrt_pos (ln (IZR j) / IZR j)) as Hs.
  assert (H0 : (IZR 0 / IZR j = 0)%R) by (unfold Rdiv; ring).
  rewrite H0. assert (IZR (-999999) < 0)%R by (apply IZR_lt; lia). lra.
Qed.

Lemma forced_scan (j : Z) :
  1 <= j ->
  exists b,
    scan_children toy_board (forced_store j)
      (mkNode None None [(a_draw, 1%nat)] [] 0 j) Captured 2 [a_draw]
      (IZR (-999999)) None None
    = Ok (Scanned b (Some 1%nat) (Some a_draw)).
Proof.
  intros Hj. cbn [scan_children].
  change (dict_get _ a_draw) with (@Ok nat 1%nat). cbn [bind].
  change (deref (forced_store j) 1)
    with (Ok (mkNode (Some 0%nat) (Some a_draw) [] [] 0 j)).
  cbn [bind visits untried_actions length].
  destruct (j =? 0) eqn:E; [apply Z.eqb_eq in E; lia|].
  change ((0 <? 0)%nat) with false. cbn [orb].
  rewrite (ucb_value (forced_store j) _
             (mkNode None None [(a_draw, 1%nat)] [] 0 j) 0%nat)
    by (try reflexivity; simpl; lia).
  change (2 =? current_player toy_board Captured) with true.
  cbn [bind wins visits].
  destruct (Rgt_dec _ _) as [_|Hn];
    [|exfalso; apply Hn; apply forced_score_gt; assumption].
  eexists. reflexivity.
Qed.

Lemma forced_iteration (j : Z) (t : nat) :
  1 <= j ->
  think_iteration toy_board 2 zero_tape Captured 2 (forced_store j, t)
  = Ok (forced_store (j + 1), t).
Proof.
  intros Hj. destruct (forced_scan j Hj) as [b Hscan].
  assert (Htrav : traverse_nodes toy_board 2 (forced_store j) 0 Captured 2
                  = Ok (1%nat, Drawn)).
  { change (traverse_nodes toy_board 2 (forced_store j) 0 Captured 2)
      with (let* r := scan_children toy_board (forced_store j)
                        (mkNode None None [(a_draw, 1%nat)] [] 0 j)
                        Captured 2 [a_draw] (IZR (-999999)) None None in
            match r with
            | EarlyReturn c s => Ok (c, s)
            | Scanned _ (Some bestNode) (Some bestAction) =>
                traverse_nodes toy_board 1 (forced_store j) bestNode
                  (next_state toy_board Captured bestAction) 2
            | Scanned _ _ _ => Err TypeError
            end).
    rewrite Hscan. reflexivity. }
  unfold think_iteration. rewrite Htrav. cbn [bind].
  change (expand_leaf toy_board (forced_store j) 1 Drawn)
    with (@Ok (store * nat * toy_state) (forced_store j, 1%nat, Drawn)).
  cbn [bind].
  change (rollout toy_board 2 zero_tape t Drawn) with (Ok (Drawn, t)).
  cbn [bind].
  change (points_values toy_board Drawn) with (Some (fun _ : Player => 0)).
  change (backpropagate 2 (forced_store j) 1 0)
    with (@Ok store [mkNode None None [(a_draw, 1%nat)] [] (0 + 0) (j + 1);
                     mkNode (Some 0%nat) (Some a_draw) [] [] (0 + 0) (j + 1)]).
  reflexivity.
Qed.

Lemma forced_loop (n : nat) (j : Z) (t : nat) :
  1 <= j ->
  think_loop toy_board n 2 zero_tape Captured 2 (forced_store j, t)
  = Ok (forced_store (j + Z.of_nat n), t).
Proof.
  revert j. induction n as [|n IH]; intros j Hj.
  - replace (j + Z.of_nat 0) with j by lia. reflexivity.
  - cbn [think_loop]. rewrite forced_iteration by assumption. cbn [bind].
    rewrite IH by lia. do 3 f_equal. lia.
Qed.

Lemma forced_think_loop (n : nat) :
  think_loop toy_board (S n) 2 zero_tape Captured
    (current_player toy_board Captured) (root_store toy_board Captured, 0%nat)
  = Ok (forced_store (Z.of_nat (S n)), 0%nat).
Proof.
  cbn [think_loop]. change (current_player toy_board Captured) with 2.
  rewrite forced_first_iteration. cbn [bind]. rewrite forced_loop by lia.
  do 3 f_equal. lia.
Qed.

(** The search from [Captured] recommends the only legal action. *)
Example think_forced : think toy_board 2 zero_tape Captured = Ok (Some a_draw).
Proof.
  unfold think. unfold num_nodes. rewrite forced_think_loop. reflexivity.
Qed.

Lemma think_root_visits_witness :
  exists root_node,
    forced_store 100 !! 0%nat = Some root_node
    /\ visits root_node = Z.of_nat num_nodes
    /\ visits root_node = 100
    /\ sum_visits (forced_store 100) (dict_values (child_nodes root_node))
       <= 100.
Proof.
  apply (think_root_visits toy_board 2 zero_tape Captured (forced_store 100) 0).
  exact (forced_think_loop 99).
Defined.

(** ** Safety of the selection score during a search *)

Section Safety.

Context {State : Type} (board : Board State).

(** C7.  The store [σ] is the tree at the start of a simulation of [think]
    (after any number [n] of completed ones); [traverse_nodes] reads it and
    does not change it.  Every child registered in it has nonzero visits and
    a parent with nonzero visits, [ucb] returns a score for it, and no
    descent through the tree raises [ZeroDivisionError] or the [ValueError]
    of [log] and [sqrt]. *)
Theorem ucb_no_division_by_zero (n fuel : nat) (tape : nat -> nat)
    (s0 : State) (bot : Player) (σ : store) (t : nat) :
  think_loop board n fuel tape s0 bot (root_store board s0, 0%nat)
    = Ok (σ, t) ->
  (forall p pn a c, σ !! p = Some pn -> (a, c) ∈ child_nodes pn ->
     exists cn, σ !! c = Some cn /\ parent cn = Some p
       /\ visits cn <> 0 /\ visits pn <> 0
       /\ forall is_opponent, exists score, ucb σ cn is_opponent = Ok score)
  /\ (forall fuel' node s e,
        traverse_nodes board fuel' σ node s bot = Err e ->
        e <> ZeroDivisionError /\ e <> ValueError).
Proof.
  intros H. apply think_loop_from_root in H. split.
  - destruct H as (Hok & Hvis & _). intros p pn a c Hp Hin.
    destruct (ok_child σ Hok p pn a c Hp Hin) as (cn & Hcn & Hpar).
    destruct (Hvis p pn a c cn Hp Hin Hcn) as [H1 H2]; [discriminate|].
    exists cn. split; [assumption|]. split; [assumption|].
    split; [lia|]. split; [lia|].
    intros b. eexists. apply (ucb_value σ cn pn p b Hpar Hp); lia.
  - eapply traverse_nodes_no_arith. eassumption.
Qed.

(** C10.  In the tree at the start of a simulation of [think] (after any
    number [n] of completed ones, the last included) every registered child
    exists and has [visits >= 1], and the scan of the children of a node
    without untried actions, which is where [traverse_nodes] runs it, never
    leaves through the [return] of line 39: it runs to its end. *)
Theorem children_always_visited (n fuel : nat) (tape : nat -> nat)
    (s0 : State) (bot : Player) (σ : store) (t : nat) :
  think_loop board n fuel tape s0 bot (root_store board s0, 0%nat)
    = Ok (σ, t) ->
  (forall p pn a c, σ !! p = Some pn -> (a, c) ∈ child_nodes pn ->
     exists cn, σ !! c = Some cn /\ 1 <= visits cn)
  /\ (forall p pn s bot', σ !! p = Some pn -> untried_actions pn = [] ->
        (forall c s', scan_children board σ pn s bot'
                        (dict_keys (child_nodes pn)) (IZR (-999999)) None None
                      <> Ok (EarlyReturn c s'))
        /\ exists b' n' a',
             scan_children board σ pn s bot'
               (dict_keys (child_nodes pn)) (IZR (-999999)) None None
             = Ok (Scanned b' n' a')).
Proof.
  intros H. apply think_loop_from_root in H. split.
  - destruct H as (Hok & Hvis & _). intros p pn a c Hp Hin.
    destruct (ok_child σ Hok p pn a c Hp Hin) as (cn & Hcn & Hpar).
    destruct (Hvis p pn a c cn Hp Hin Hcn) as [H1 H2]; [discriminate|].
    eauto.
  - intros p pn s bot' Hp Hun.
    destruct (scan_children_scanned board σ _ p pn s bot' H Hp Hun
                (dict_keys (child_nodes pn)) (reflexivity _)
                (IZR (-999999)) None None) as (b' & n' & a' & Heq).
    split; [|eauto]. intros c s'. rewrite Heq. discriminate.
Qed.

End Safety.

Lemma ucb_no_division_by_zero_witness :
  (forall p pn a c, forced_store 100 !! p = Some pn ->
     (a, c) ∈ child_nodes pn ->
     exists cn, forced_store 100 !! c = Some cn /\ parent cn = Some p
       /\ visits cn <> 0 /\ visits pn <> 0
       /\ forall is_opponent,
            exists score, ucb (forced_store 100) cn is_opponent = Ok score)
  /\ (forall fuel' node s e,
        traverse_nodes toy_board fuel' (forced_store 100) node s 2 = Err e ->
        e <> ZeroDivisionError /\ e <> ValueError).
Proof.
  apply (ucb_no_division_by_zero toy_board 100 2 zero_tape Captured 2
           (forced_store 100) 0).
  exact (forced_think_loop 99).
Defined.

Lemma children_always_visited_witness :
  (forall p pn a c, forced_store 100 !! p = Some pn ->
     (a, c) ∈ child_nodes pn ->
     exists cn, forced_store 100 !! c = Some cn /\ 1 <= visits cn)
  /\ (forall p pn s bot', forced_store 100 !! p = Some pn ->
        untried_actions pn = [] ->
        (forall c s', scan_children toy_board (forced_store 100) pn s bot'
                        (dict_keys (child_nodes pn)) (IZR (-999999)) None None
                      <> Ok (EarlyReturn c s'))
        /\ exists b' n' a',
             scan_children toy_board (forced_store 100) pn s bot'
               (dict_keys (child_nodes pn)) (IZR (-999999)) None None
             = Ok (Scanned b' n' a')).
Proof.
  apply (children_always_visited toy_board 100 2 zero_tape Captured 2
           (forced_store 100) 0).
  exact (forced_think_loop 99).
Defined.

(** * Further properties of the module *)

(** ** The turns of a rollout *)

Section PlayoutTurns.

Context {State : Type} (board : Board State).

Lemma scan_actions_spec (state : State) (actions valid : list Action) :
  scan_actions board state actions valid
  = match List.find (decisive board state) actions with
    | Some a => Chosen a
    | None => Pool (valid ++ List.filter (neutral board state) actions)
    end.
Proof.
  revert valid. induction actions as [|b actions IH]; intros valid.
  - simpl. rewrite app_nil_r. reflexivity.
  - destruct b as [[[R C] r] c].
    cbn [scan_actions List.find List.filter].
    unfold decisive, neutral, is_winning, is_losing, claims_box, hands_box.
    destruct (points_values board (next_state board state (R, C, r, c)))
      as [score|].
    + destruct (score (current_player board state) =? 1) eqn:Hw;
        [reflexivity|].
      destruct (score (current_player board state) =? -1) eqn:Hl;
        cbn [negb andb orb]; [apply IH|].
      destruct (owned_boxes board _ _ =? current_player board state);
        cbn [negb andb orb]; [reflexivity|].
      destruct (owned_boxes board _ _ =? 3 - current_player board state);
        cbn [negb andb orb]; [apply IH|].
      rewrite IH. destruct (List.find _ actions); [reflexivity|].
      rewrite <- app_assoc. reflexivity.
    + cbn [negb andb orb].
      destruct (owned_boxes board _ _ =? current_player board state);
        cbn [negb andb orb]; [reflexivity|].
      destruct (owned_boxes board _ _ =? 3 - current_player board state);
        cbn [negb andb orb]; [apply IH|].
      rewrite IH. destruct (List.find _ actions); [reflexivity|].
      rewrite <- app_assoc. reflexivity.
Qed.

(** X1.  The loop over the legal actions, read as a search and a filter: the
    rollout leaves the loop with the first decisive action, and when there is
    none the list of valid actions holds exactly the neutral ones, in the
    order of the legal actions. *)
Theorem scan_actions_find_filter (state : State) (actions valid : list Action) :
  scan_actions board state actions valid
  = match List.find (decisive board state) actions with
    | Some a => Chosen a
    | None => Pool (valid ++ List.filter (neutral board state) actions)
    end.
Proof. apply scan_actions_spec. Qed.

Lemma choice_elem (tape : nat -> nat) (k k' : nat) (seq : list Action) a :
  choice tape k seq = Ok (a, k') -> In a seq /\ k' = S k.
Proof.
  unfold choice. destruct seq as [|b seq]; [discriminate|].
  assert (Hlt : (tape k mod length (b :: seq) < length (b :: seq))%nat)
    by (apply Nat.mod_upper_bound; discriminate).
  pose proof (nth_In (b :: seq) b Hlt) as Hin.
  intros H. injection H as Ha Hk. subst a k'. split; [exact Hin|reflexivity].
Qed.

Lemma decisive_not_losing (state : State) a :
  decisive board state a = true ->
  is_losing board state a = false
  /\ (is_winning board state a = true \/ hands_box board state a = false).
Proof.
  unfold decisive, is_winning, is_losing, claims_box, hands_box.
  destruct a as [[[R C] r] c].
  destruct (points_values board _) as [score|].
  - destruct (score (current_player board state) =? 1) eqn:Hw.
    + intros _. apply Z.eqb_eq in Hw. rewrite Hw. auto.
    + simpl. intros H. apply andb_true_iff in H as [Hl Hc].
      apply negb_true_iff in Hl. split; [assumption|]. right.
      apply Z.eqb_eq in Hc. apply Z.eqb_neq. lia.
  - simpl. intros Hc. split; [reflexivity|]. right.
    apply Z.eqb_eq in Hc. apply Z.eqb_neq. lia.
Qed.

(** X2.  A turn of the rollout applies a legal action and moves to its successor;
    the action is never an immediate loss for the player to move, and unless
    it wins at once it does not hand the sub-board played in to the other
    player.  The turn draws at most once from the tape. *)
Theorem rollout_step_sound (tape : nat -> nat) (k k' : nat)
    (state state' : State) (a : Action) :
  rollout_step board tape k state = Ok (a, state', k') ->
  a ∈ legal_actions board state
  /\ state' = next_state board state a
  /\ is_losing board state a = false
  /\ (is_winning board state a = true \/ hands_box board state a = false)
  /\ (k' = k \/ k' = S k).
Proof.
  unfold rollout_step. rewrite scan_actions_spec.
  destruct (List.find _ _) as [b|] eqn:Hfind; cbn [bind app].
  - intros [= <- <- <-]. apply find_some in Hfind as [Hin Hdec].
    destruct (decisive_not_losing state b Hdec) as [Hl Hw].
    split; [apply list_elem_of_In; assumption|]. auto.
  - intros H. apply bind_ok in H as ([b k1] & Hch & H).
    injection H as <- <- <-. apply choice_elem in Hch as [Hin ->].
    apply filter_In in Hin as [Hin Hn].
    split; [apply list_elem_of_In; assumption|]. split; [reflexivity|].
    unfold neutral in Hn. apply andb_true_iff in Hn as [Hn Hh].
    apply andb_true_iff in Hn as [Hn _].
    apply andb_true_iff in Hn as [_ Hl].
    apply negb_true_iff in Hl. apply negb_true_iff in Hh. auto.
Qed.

(** X3.  A rollout that returns has reached, by turns of its loop, a state where
    the game is ended, and returns that state. *)
Theorem rollout_returns_ended (fuel : nat) (tape : nat -> nat) (k k' : nat)
    (state state' : State) :
  rollout board fuel tape k state = Ok (state', k') ->
  is_ended board state' = true
  /\ exists n, (n <= fuel)%nat
       /\ rollout_reaches board tape k state k' state' n.
Proof.
  revert k state. induction fuel as [|fuel IH]; intros k state;
    cbn [rollout]; destruct (is_ended board state) eqn:Hend;
    try discriminate.
  - intros [= <- <-]. split; [assumption|].
    exists 0%nat. split; [lia|constructor].
  - intros [= <- <-]. split; [assumption|].
    exists 0%nat. split; [lia|constructor].
  - intros H. apply bind_ok in H as ([[a s1] k1] & Hstep & H).
    destruct (IH _ _ H) as (Hend' & n & Hn & Hreach).
    split; [assumption|]. exists (S n). split; [lia|].
    econstructor; eassumption.
Qed.

End PlayoutTurns.

Lemma rollout_step_sound_witness :
  a_draw ∈ legal_actions toy_board Captured
  /\ Drawn = next_state toy_board Captured a_draw
  /\ is_losing toy_board Captured a_draw = false
  /\ (is_winning toy_board Captured a_draw = true
      \/ hands_box toy_board Captured a_draw = false)
  /\ (1%nat = 0%nat \/ 1%nat = 1%nat).
Proof.
  apply (rollout_step_sound toy_board zero_tape 0 1 Captured Drawn a_draw).
  reflexivity.
Defined.

Lemma rollout_returns_ended_witness :
  is_ended toy_board Drawn = true
  /\ exists n, (n <= 3)%nat
       /\ rollout_reaches toy_board zero_tape 0 Fork 1 Drawn n.
Proof.
  apply (rollout_returns_ended toy_board 3 zero_tape 0 1 Fork Drawn).
  reflexivity.
Defined.

(** ** Errors of the recommender and bounds of the score *)

Lemma scan_rates_unvisited (σ : store) (children : list nat) :
  (forall c, c ∈ children -> exists child, σ !! c = Some child) ->
  (exists c child, c ∈ children /\ σ !! c = Some child /\ visits child = 0) ->
  forall action bestRate,
    scan_rates σ children action bestRate = Err ZeroDivisionError.
Proof.
  induction children as [|c rest IH]; intros Hall (z & zn & Hz & Hzn & Hzv).
  - inversion Hz.
  - intros action bestRate. destruct (Hall c) as [child Hchild]; [left|].
    cbn [scan_rates]. rewrite (deref_ok _ _ _ Hchild). cbn [bind].
    destruct (visits child =? 0) eqn:E; [reflexivity|].
    apply Z.eqb_neq in E.
    assert (Hrest : exists c' child', c' ∈ rest /\ σ !! c' = Some child'
                                      /\ visits child' = 0).
    { apply elem_of_cons in Hz as [->|Hz]; [congruence|eauto]. }
    assert (Hall' : forall c', c' ∈ rest -> exists child', σ !! c' = Some child')
      by (intros c' Hc'; apply Hall; right; assumption).
    destruct (_ : bool); apply IH; assumption.
Qed.

(** X5.  A root one of whose children has never been visited: the division
    [child.wins / child.visits] raises [ZeroDivisionError], whatever the
    other children are. *)
Theorem get_best_action_unvisited_child (σ : store) (root_node : MCTSNode) :
  (forall c, c ∈ dict_values (child_nodes root_node) ->
     exists child, σ !! c = Some child) ->
  (exists c child, c ∈ dict_values (child_nodes root_node)
     /\ σ !! c = Some child /\ visits child = 0) ->
  get_best_action σ root_node = Err ZeroDivisionError.
Proof.
  intros Hall Hz. unfold get_best_action.
  apply scan_rates_unvisited; assumption.
Qed.

Lemma get_best_action_unvisited_child_witness :
  exists root_node, unvisited_store !! 0%nat = Some root_node
    /\ get_best_action unvisited_store root_node = Err ZeroDivisionError.
Proof.
  eexists. split; [reflexivity|].
  apply get_best_action_unvisited_child.
  - intros c Hc. simpl in Hc.
    repeat (apply elem_of_cons in Hc as [->|Hc]); [| |inversion Hc];
      eexists; reflexivity.
  - exists 2%nat. eexists. split; [right; left|]. split; reflexivity.
Defined.

Lemma explore_term_nonneg (pv v : Z) :
  (0 <= 2 * sqrt (ln (IZR pv) / IZR v))%R.
Proof. pose proof (sqrt_pos (ln (IZR pv) / IZR v)). lra. Qed.

Lemma rate_bounds (w v : Z) :
  0 < v -> - v <= w <= v -> (-1 <= IZR w / IZR v <= 1)%R.
Proof.
  intros Hv [Hlo Hhi].
  assert (Hvr : (0 < IZR v)%R) by (apply (IZR_lt 0); assumption).
  apply IZR_le in Hlo, Hhi. rewrite opp_IZR in Hlo.
  split.
  - apply Rmult_le_reg_r with (IZR v); [assumption|].
    unfold Rdiv. rewrite Rmult_assoc, Rinv_l by lra. lra.
  - apply Rmult_le_reg_r with (IZR v); [assumption|].
    unfold Rdiv. rewrite Rmult_assoc, Rinv_l by lra. lra.
Qed.

(** A score of a visited child whose wins lie between [-visits] and
    [visits] is at least -1: it beats the initial [bestUCB] of -999999. *)
Lemma ucb_above_initial (σ : store) (node pn : MCTSNode) (p : nat) (b : bool) :
  parent node = Some p -> σ !! p = Some pn ->
  0 < visits node -> 1 <= visits pn ->
  - visits node <= wins node <= visits node ->
  exists r, ucb σ node b = Ok r /\ (-1 <= r)%R /\ (r > IZR (-999999))%R.
Proof.
  intros Hp Hpn Hv Hpv Hw. eexists. split; [apply (ucb_value σ node pn p b); assumption|].
  pose proof (rate_bounds _ _ Hv Hw) as [Hlo Hhi].
  pose proof (explore_term_nonneg (visits pn) (visits node)) as He.
  assert (IZR (-999999) < -1)%R by (apply (IZR_lt _ (-1)); lia).
  cbv zeta. destruct b; split; lra.
Qed.

(** X6.  The exploration term grows with the visits of the parent: for a child
    whose counters stay as they are, a score computed when the parent has
    more visits is not lower, in both perspectives. *)
Theorem ucb_monotone_in_parent_visits (σ σ' : store) (node pn pn' : MCTSNode)
    (p : nat) (b : bool) :
  parent node = Some p -> σ !! p = Some pn -> σ' !! p = Some pn' ->
  0 < visits node -> 1 <= visits pn -> visits pn <= visits pn' ->
  exists r r', ucb σ node b = Ok r /\ ucb σ' node b = Ok r' /\ (r <= r')%R.
Proof.
  intros Hp Hpn Hpn' Hv Hpv Hle.
  rewrite (ucb_value σ node pn p b) by assumption.
  rewrite (ucb_value σ' node pn' p b) by (try assumption; lia).
  eexists. eexists. split; [reflexivity|]. split; [reflexivity|].
  assert (Hvr : (0 < IZR (visits node))%R) by (apply (IZR_lt 0); assumption).
  assert (Hln : (ln (IZR (visits pn)) <= ln (IZR (visits pn')))%R).
  { destruct (Z.eq_dec (visits pn) (visits pn')) as [->|Hne]; [lra|].
    left. apply ln_increasing; [apply (IZR_lt 0); lia|apply IZR_lt; lia]. }
  assert (Hs : (sqrt (ln (IZR (visits pn)) / IZR (visits node))
                <= sqrt (ln (IZR (visits pn')) / IZR (visits node)))%R).
  { apply sqrt_le_1_alt. unfold Rdiv. apply Rmult_le_compat_r; [|assumption].
    left. apply Rinv_0_lt_compat. assumption. }
  cbv zeta. destruct b; lra.
Qed.

Lemma ucb_monotone_in_parent_visits_witness :
  exists r r',
    ucb (forced_store 3) (mkNode (Some 0%nat) (Some a_draw) [] [] 0 3) true
      = Ok r
    /\ ucb (forced_store 5) (mkNode (Some 0%nat) (Some a_draw) [] [] 0 3) true
       = Ok r'
    /\ (r <= r')%R.
Proof.
  apply (ucb_monotone_in_parent_visits (forced_store 3) (forced_store 5)
           (mkNode (Some 0%nat) (Some a_draw) [] [] 0 3)
           (mkNode None None [(a_draw, 1%nat)] [] 0 3)
           (mkNode None None [(a_draw, 1%nat)] [] 0 5) 0%nat true);
    try reflexivity; simpl; lia.
Defined.

(** ** The descent of the selector *)

Section Descent.

Context {State : Type} (board : Board State).

(** What the scan of the children hands on: a registered child with the
    successor position under its action, whichever way the loop ends. *)
Lemma scan_children_registered (σ : store) (cur : MCTSNode) (s : State)
    (bot : Player) (keys : list Action) b n a :
  best_registered cur n a ->
  match scan_children board σ cur s bot keys b n a with
  | Ok (EarlyReturn c s') =>
      exists key cn, dict_get (child_nodes cur) key = Ok c
        /\ s' = next_state board s key /\ σ !! c = Some cn
        /\ (visits cn = 0 \/ untried_actions cur <> [])
  | Ok (Scanned _ n' a') => best_registered cur n' a'
  | Err _ => True
  end.
Proof.
  revert b n a. induction keys as [|key keys IH]; intros b n a Hreg.
  - exact Hreg.
  - cbn [scan_children].
    destruct (dict_get (child_nodes cur) key) as [c|] eqn:Hc; cbn [bind];
      [|exact I].
    unfold deref. destruct (σ !! c) as [cn|] eqn:Hcn; cbn [bind]; [|exact I].
    destruct ((visits cn =? 0) || (0 <? length (untried_actions cur))%nat)
      eqn:Hearly.
    + exists key, cn. repeat split; try assumption.
      apply orb_true_iff in Hearly as [Hz|Hu].
      * left. apply Z.eqb_eq. assumption.
      * right. apply Nat.ltb_lt in Hu. intros Hnil. rewrite Hnil in Hu.
        simpl in Hu. lia.
    + destruct (ucb σ cn _) as [r|]; cbn [bind]; [|exact I].
      destruct (Rgt_dec r b); apply IH; [exact Hc|exact Hreg].
Qed.

(** X7.  The selector returns a node of the store that still has an untried
    action, or whose position is ended, or that was never visited. *)
Theorem traverse_nodes_stops (fuel : nat) (σ : store) (node : nat)
    (s : State) (bot : Player) (leaf : nat) (s' : State) :
  traverse_nodes board fuel σ node s bot = Ok (leaf, s') ->
  exists nd, σ !! leaf = Some nd
    /\ (untried_actions nd <> [] \/ is_ended board s' = true
        \/ visits nd = 0).
Proof.
  revert node s. induction fuel as [|fuel IH]; intros node s; [discriminate|].
  cbn [traverse_nodes]. intros H.
  apply bind_ok in H as (cur & Hcur & H). apply deref_inv in Hcur.
  destruct ((length (untried_actions cur) <? 1)%nat
            && negb (is_ended board s)) eqn:Hc.
  - apply andb_true_iff in Hc as [Hlen _]. apply Nat.ltb_lt in Hlen.
    assert (Hun : untried_actions cur = [])
      by (destruct (untried_actions cur); [reflexivity|simpl in Hlen; lia]).
    apply bind_ok in H as (r & Hscan & H).
    pose proof (scan_children_registered σ cur s bot
                  (dict_keys (child_nodes cur)) (IZR (-999999)) None None I)
      as Hreg.
    rewrite Hscan in Hreg. destruct r as [c sc|b' [bn|] [ba|]];
      try discriminate.
    + injection H as <- <-.
      destruct Hreg as (key & cn & _ & _ & Hcn & [Hz|Hne]); [|contradiction].
      exists cn. auto.
    + eapply IH. eassumption.
  - injection H as <- <-. exists cur. split; [assumption|].
    apply andb_false_iff in Hc as [Hlen|Hend].
    + left. apply Nat.ltb_ge in Hlen. intros Hnil. rewrite Hnil in Hlen.
      simpl in Hlen. lia.
    + right. left. apply negb_false_iff in Hend. assumption.
Qed.

End Descent.

(** The descent from the root of the two-node tree ends at the child. *)
Lemma forced_traverse (j : Z) :
  1 <= j ->
  traverse_nodes toy_board 2 (forced_store j) 0 Captured 2
  = Ok (1%nat, Drawn).
Proof.
  intros Hj. destruct (forced_scan j Hj) as [b Hscan].
  change (traverse_nodes toy_board 2 (forced_store j) 0 Captured 2)
    with (let* r := scan_children toy_board (forced_store j)
                      (mkNode None None [(a_draw, 1%nat)] [] 0 j)
                      Captured 2 [a_draw] (IZR (-999999)) None None in
          match r with
          | EarlyReturn c s => Ok (c, s)
          | Scanned _ (Some bestNode) (Some bestAction) =>
              traverse_nodes toy_board 1 (forced_store j) bestNode
                (next_state toy_board Captured bestAction) 2
          | Scanned _ _ _ => Err TypeError
          end).
  rewrite Hscan. reflexivity.
Qed.

Lemma traverse_nodes_stops_witness :
  exists nd, forced_store 4 !! 1%nat = Some nd
    /\ (untried_actions nd <> [] \/ is_ended toy_board Drawn = true
        \/ visits nd = 0).
Proof.
  apply (traverse_nodes_stops toy_board 2 (forced_store 4) 0 Captured 2
           1 Drawn).
  apply forced_traverse. lia.
Defined.

(** ** Paths and termination in a tree *)

Lemma parent_chain_le (σ : store) n l x :
  tree_ok σ -> parent_chain σ n l -> x ∈ l -> (x <= n)%nat.
Proof.
  intros Hok H. induction H as [n nd Hn Hp|n nd p l Hn Hp Hl IH]; intros Hx.
  - apply list_elem_of_singleton in Hx as ->. lia.
  - apply elem_of_cons in Hx as [->|Hx]; [lia|].
    pose proof (ok_parent_lt σ Hok n nd p Hn Hp). specialize (IH Hx). lia.
Qed.

(** In a tree every node has a path to the root, no longer than its index
    plus one. *)
Lemma parent_chain_exists (σ : store) (n : nat) (nd : MCTSNode) :
  tree_ok σ -> σ !! n = Some nd ->
  exists l, parent_chain σ n l /\ (length l <= S n)%nat.
Proof.
  intros Hok. revert nd.
  induction n as [n IH] using (well_founded_induction lt_wf). intros nd Hn.
  destruct (parent nd) as [p|] eqn:Hp.
  - pose proof (ok_parent_lt σ Hok n nd p Hn Hp) as Hlt.
    assert (exists pn, σ !! p = Some pn) as [pn Hpn].
    { apply lookup_lt_is_Some. apply lookup_lt_Some in Hn. lia. }
    destruct (IH p Hlt pn Hpn) as (l & Hl & Hlen).
    exists (n :: l). split; [eapply chain_step; eassumption|simpl; lia].
  - exists [n]. split; [eapply chain_root; eassumption|simpl; lia].
Qed.

(** At most one node of a path is a child of a given node. *)
Lemma parent_chain_child_unique (σ : store) n l p x y nx ny :
  tree_ok σ -> parent_chain σ n l ->
  x ∈ l -> y ∈ l -> σ !! x = Some nx -> σ !! y = Some ny ->
  parent nx = Some p -> parent ny = Some p -> x = y.
Proof.
  intros Hok H. revert x y nx ny.
  induction H as [n nd Hn Hp|n nd q l Hn Hp Hl IH];
    intros x y nx ny Hx Hy Hnx Hny Hpx Hpy.
  - apply list_elem_of_singleton in Hx as ->.
    apply list_elem_of_singleton in Hy as ->. reflexivity.
  - assert (Hup : forall z nz, z ∈ l -> σ !! z = Some nz ->
              parent nz = Some q -> False).
    { intros z nz Hz Hnz Hpz.
      pose proof (parent_chain_le σ q l z Hok Hl Hz).
      pose proof (ok_parent_lt σ Hok z nz q Hnz Hpz). lia. }
    apply elem_of_cons in Hx as [->|Hx]; apply elem_of_cons in Hy as [->|Hy].
    + reflexivity.
    + exfalso. assert (q = p) as -> by congruence. eapply Hup; eassumption.
    + exfalso. assert (q = p) as -> by congruence. eapply Hup; eassumption.
    + eapply IH; eassumption.
Qed.

(** X9.  In a tree the backpropagation from any node returns as soon as the fuel
    exceeds the index of the node: the walk up the parent references cannot
    run forever. *)
Theorem backpropagate_terminates (fuel : nat) (σ : store) (node : nat)
    (nd : MCTSNode) (won : Z) :
  tree_ok σ -> σ !! node = Some nd -> (node < fuel)%nat ->
  exists σ', backpropagate fuel σ node won = Ok σ' /\ length σ' = length σ.
Proof.
  intros Hok Hn Hfuel.
  destruct (parent_chain_exists σ node nd Hok Hn) as (l & Hl & Hlen).
  destruct (backpropagate_chain σ node l won fuel Hl) as (σ' & Hrun & Hlen' & _);
    [lia|].
  eauto.
Qed.

Section Iteration.

Context {State : Type} (board : Board State).

(** The four phases of a simulation that completes. *)
Lemma think_iteration_phases (fuel : nat) (tape : nat -> nat) (s0 : State)
    (bot : Player) (σ σ' : store) (t t' : nat) :
  think_iteration board fuel tape s0 bot (σ, t) = Ok (σ', t') ->
  exists leaf s1 σ1 newLeaf s2 s3 winValue,
    traverse_nodes board fuel σ 0 s0 bot = Ok (leaf, s1)
    /\ expand_leaf board σ leaf s1 = Ok (σ1, newLeaf, s2)
    /\ rollout board fuel tape t s2 = Ok (s3, t')
    /\ points_values board s3 = Some winValue
    /\ backpropagate fuel σ1 newLeaf (winValue bot) = Ok σ'.
Proof.
  unfold think_iteration. intros H.
  apply bind_ok in H as ([leaf s1] & Htrav & H).
  apply bind_ok in H as ([[σ1 newLeaf] s2] & Hexp & H).
  apply bind_ok in H as ([s3 t3] & Hroll & H).
  destruct (points_values board s3) as [winValue|] eqn:Hpv; [|discriminate].
  apply bind_ok in H as (σ2 & Hback & H). injection H as <- <-.
  exists leaf, s1, σ1, newLeaf, s2, s3, winValue. auto.
Qed.

(** Induction over the simulations of a search. *)
Lemma think_loop_induction (P : store -> Z -> Prop) (fuel : nat)
    (tape : nat -> nat) (s0 : State) (bot : Player) :
  (forall σ t σ' t' k,
     P σ k -> think_iteration board fuel tape s0 bot (σ, t) = Ok (σ', t') ->
     P σ' (k + 1)) ->
  forall n σ t σ' t' k,
    P σ k -> think_loop board n fuel tape s0 bot (σ, t) = Ok (σ', t') ->
    P σ' (k + Z.of_nat n).
Proof.
  intros Hstep n. induction n as [|n IH]; intros σ t σ' t' k HP H.
  - simpl in H. injection H as <- <-.
    replace (k + Z.of_nat 0) with k by lia. assumption.
  - cbn [think_loop] in H. apply bind_ok in H as ([σ1 t1] & Hit & H).
    replace (k + Z.of_nat (S n)) with (k + 1 + Z.of_nat n) by lia.
    eapply IH; [|exact H]. eapply Hstep; eassumption.
Qed.

End Iteration.

Lemma backpropagate_terminates_witness :
  exists σ', backpropagate 2 (forced_store 7) 1 1 = Ok σ'
             /\ length σ' = length (forced_store 7).
Proof.
  apply (backpropagate_terminates 2 (forced_store 7) 1
           (mkNode (Some 0%nat) (Some a_draw) [] [] 0 7) 1).
  - exact (proj1 (think_loop_from_root toy_board 7 2 zero_tape Captured 2
                    (forced_store 7) 0 (forced_think_loop 6))).
  - reflexivity.
  - lia.
Defined.

(** ** Accounts of wins and visits *)

Lemma backpropagate_effect (fuel : nat) (σ σ' : store) (n : nat) (won : Z) :
  backpropagate fuel σ n won = Ok σ' ->
  exists l, parent_chain σ n l
    /\ (forall i nd, i ∈ l -> σ !! i = Some nd ->
          σ' !! i = Some (visited won nd))
    /\ (forall i, i ∉ l -> σ' !! i = σ !! i).
Proof.
  intros Hrun.
  destruct (backpropagate_ok_chain _ _ _ _ _ Hrun) as (l & Hl & Hlen).
  destruct (backpropagate_chain σ n l won fuel Hl Hlen)
    as (σ2 & Hrun2 & _ & _ & _ & Hon & Hoff).
  assert (σ2 = σ') as -> by congruence.
  exists l. split; [assumption|]. split; [|assumption].
  intros i nd Hi Hnd. apply (Hon i nd Hi Hnd).
Qed.

Lemma expand_leaf_wins_bounded {State : Type} (board : Board State)
    (σ σ1 : store) (leaf newLeaf : nat) (s s2 : State) :
  wins_bounded σ ->
  expand_leaf board σ leaf s = Ok (σ1, newLeaf, s2) ->
  wins_bounded σ1.
Proof.
  intros Hw Hrun.
  destruct (expand_leaf_cases board _ _ _ _ _ _ Hrun)
    as (nd & Hnd & [(_ & -> & _)|(rest & a & _ & _ & _ & ->)]);
    [assumption|].
  intros i n1 Hi.
  destruct (expanded_inv σ leaf nd rest a _ Hnd i n1 Hi)
    as [[-> ->]|[[-> ->]|(_ & _ & Hold)]].
  - simpl. apply (Hw leaf nd Hnd).
  - simpl. lia.
  - apply (Hw i n1 Hold).
Qed.

Lemma backpropagate_wins_bounded (fuel : nat) (σ σ' : store) (n : nat)
    (won : Z) :
  wins_bounded σ -> -1 <= won <= 1 ->
  backpropagate fuel σ n won = Ok σ' ->
  wins_bounded σ'.
Proof.
  intros Hw Hwon Hrun.
  destruct (backpropagate_effect _ _ _ _ _ Hrun) as (l & Hl & Hon & Hoff).
  intros i nd' Hi. destruct (decide (i ∈ l)) as [Hin|Hout].
  - destruct (parent_chain_elem σ n l i Hl Hin) as [nd Hnd].
    rewrite (Hon i nd Hin Hnd) in Hi. injection Hi as <-.
    specialize (Hw i nd Hnd). simpl. lia.
  - rewrite (Hoff i Hout) in Hi. apply (Hw i nd' Hi).
Qed.

Lemma expand_leaf_children_sum {State : Type} (board : Board State)
    (σ σ1 : store) (leaf newLeaf : nat) (s s2 : State) :
  tree_ok σ -> children_sum_ok σ ->
  expand_leaf board σ leaf s = Ok (σ1, newLeaf, s2) ->
  children_sum_ok σ1.
Proof.
  intros Hok Hsum Hrun.
  destruct (expand_leaf_cases board _ _ _ _ _ _ Hrun)
    as (nd & Hnd & [(_ & -> & _)|(rest & a & _ & _ & _ & ->)]);
    [assumption|].
  assert (Hvals : forall pn p, σ !! p = Some pn ->
            forall c, c ∈ dict_values (child_nodes pn) ->
            visits_at (expanded σ leaf nd rest a (legal_actions board s2)) c
            = visits_at σ c /\ 0 <= visits_at σ c).
  { intros pn p Hp c Hc. apply list_elem_of_fmap in Hc as ([k0 c'] & -> & Hc).
    destruct (ok_child σ Hok p pn k0 c' Hp Hc) as (cn & Hcn & _). simpl. split.
    - apply expanded_visits_at; [assumption|].
      apply lookup_lt_Some in Hcn. lia.
    - unfold visits_at. rewrite Hcn. eapply ok_visits; eassumption. }
  intros p pn1 Hp.
  destruct (expanded_inv σ leaf nd rest a _ Hnd p pn1 Hp)
    as [[-> ->]|[[-> ->]|(_ & _ & Hold)]].
  - simpl. etransitivity; [|exact (Hsum leaf nd Hnd)].
    apply sum_visits_dict_set; [eapply Hvals; eassumption|].
    unfold visits_at. rewrite (expanded_new σ leaf nd rest a). reflexivity.
  - simpl. lia.
  - rewrite (sum_visits_ext σ); [exact (Hsum p pn1 Hold)|].
    intros c Hc. eapply Hvals; eassumption.
Qed.

Lemma backpropagate_children_sum (fuel : nat) (σ σ' : store) (n : nat)
    (won : Z) :
  tree_ok σ -> children_sum_ok σ ->
  backpropagate fuel σ n won = Ok σ' ->
  children_sum_ok σ'.
Proof.
  intros Hok Hsum Hrun.
  destruct (backpropagate_grows _ _ _ _ _ Hrun)
    as (l & Hl & _ & Hg & Hon & Hoff).
  intros p pn' Hp.
  destruct (store_grows_inv _ _ _ _ Hg Hp) as (pn & Hpn & _ & _ & Hch & _).
  rewrite Hch. specialize (Hsum p pn Hpn).
  assert (Hreg : forall x, x ∈ dict_values (child_nodes pn) ->
            exists nx, σ !! x = Some nx /\ parent nx = Some p).
  { intros x Hx. apply list_elem_of_fmap in Hx as ([a x'] & -> & Hx).
    exact (ok_child σ Hok p pn a x' Hpn Hx). }
  destruct (decide (p ∈ l)) as [Hin|Hout].
  - pose proof (Hon p Hin) as Hv. unfold visits_at in Hv.
    rewrite Hp, Hpn in Hv.
    assert (sum_visits σ' (dict_values (child_nodes pn))
            <= sum_visits σ (dict_values (child_nodes pn)) + 1); [|lia].
    apply (sum_visits_bump σ σ' l);
      [eapply ok_values; eassumption| |assumption..].
    intros x y Hx Hy Hxl Hyl.
    destruct (Hreg x Hx) as (nx & Hnx & Hpx).
    destruct (Hreg y Hy) as (ny & Hny & Hpy).
    eapply (parent_chain_child_unique σ n l p); eassumption.
  - pose proof (Hoff p Hout) as Hv. unfold visits_at in Hv.
    rewrite Hp, Hpn in Hv.
    rewrite (sum_visits_ext σ σ'); [lia|].
    intros c Hc. apply Hoff. intros Hcl.
    destruct (Hreg c Hc) as (nc & Hnc & Hpc).
    apply Hout. eapply parent_chain_parent_in; eassumption.
Qed.

Section Accounts.

Context {State : Type} (board : Board State).

(** X10.  Tree accounting.  Between the simulations of a search the visits of the
    children of every node sum to no more than the visits of the node: a
    simulation passes through at most one child of each node it visits. *)
Theorem think_children_sum (n fuel : nat) (tape : nat -> nat) (s0 : State)
    (bot : Player) (σ : store) (t : nat) :
  think_loop board n fuel tape s0 bot (root_store board s0, 0%nat)
    = Ok (σ, t) ->
  forall p pn, σ !! p = Some pn ->
    sum_visits σ (dict_values (child_nodes pn)) <= visits pn.
Proof.
  intros H.
  apply (think_loop_induction board
           (fun σ k => tree_inv σ k /\ children_sum_ok σ)
           fuel tape s0 bot) with (k := 0) in H; [apply H| |].
  - clear. intros σ t σ' t' k [Hinv Hsum] Hit.
    split; [eapply think_iteration_inv; eassumption|].
    destruct Hinv as (Hok & Hvis & _).
    destruct (think_iteration_phases board _ _ _ _ _ _ _ _ Hit)
      as (leaf & s1 & σ1 & newLeaf & s2 & s3 & w & _ & Hexp & _ & _ & Hback).
    destruct (expand_leaf_preserves board _ _ _ _ _ _ Hok Hvis Hexp)
      as (Hok1 & _).
    eapply backpropagate_children_sum; [exact Hok1| |exact Hback].
    exact (expand_leaf_children_sum board _ _ _ _ _ _ Hok Hsum Hexp).
  - split; [apply tree_ok_root_store|].
    intros [|p] pn Hp; simpl in Hp; [|discriminate].
    injection Hp as <-. simpl. lia.
Qed.

Lemma think_loop_wins_bounded (n fuel : nat) (tape : nat -> nat) (s0 : State)
    (bot : Player) (σ : store) (t : nat) :
  outcomes_bounded board ->
  think_loop board n fuel tape s0 bot (root_store board s0, 0%nat)
    = Ok (σ, t) ->
  wins_bounded σ.
Proof.
  intros Hb H.
  apply (think_loop_induction board (fun σ _ => wins_bounded σ)
           fuel tape s0 bot) with (k := 0) in H; [apply H| |].
  - intros σ1 t1 σ' t' _ Hw Hit.
    destruct (think_iteration_phases board _ _ _ _ _ _ _ _ Hit)
      as (leaf & s1 & σ2 & newLeaf & s2 & s3 & w & _ & Hexp & _ & Hpv & Hback).
    eapply backpropagate_wins_bounded; [|exact (Hb s3 w bot Hpv)|exact Hback].
    eapply expand_leaf_wins_bounded; eassumption.
  - intros [|i] nd Hi; simpl in Hi; [|discriminate].
    injection Hi as <-. simpl. lia.
Qed.

(** X11.  When the outcomes of the board lie between -1 and 1, between the
    simulations of a search the wins of every node lie between minus its
    visits and its visits. *)
Theorem think_wins_bounded (n fuel : nat) (tape : nat -> nat) (s0 : State)
    (bot : Player) (σ : store) (t : nat) :
  outcomes_bounded board ->
  think_loop board n fuel tape s0 bot (root_store board s0, 0%nat)
    = Ok (σ, t) ->
  forall i nd, σ !! i = Some nd -> - visits nd <= wins nd <= visits nd.
Proof. apply think_loop_wins_bounded. Qed.

End Accounts.

Lemma fork_think_loop :
  think_loop toy_board 2 3 zero_tape Fork 1 (root_store toy_board Fork, 0%nat)
  = Ok (fork_store, 1%nat).
Proof. vm_compute. reflexivity. Qed.

Lemma toy_outcomes_bounded : outcomes_bounded toy_board.
Proof.
  intros s score p H. destruct s; simpl in H; try discriminate;
    injection H as <-; try destruct (p =? 1); lia.
Qed.

Lemma think_children_sum_witness :
  sum_visits fork_store
    (dict_values (child_nodes
       (mkNode None None [(a_win, 1%nat); (a_capture, 2%nat)] [] 1 2)))
  <= visits (mkNode None None [(a_win, 1%nat); (a_capture, 2%nat)] [] 1 2).
Proof.
  apply (think_children_sum toy_board 2 3 zero_tape Fork 1 fork_store 1
           fork_think_loop 0%nat).
  reflexivity.
Defined.

Lemma think_wins_bounded_witness :
  - visits (mkNode (Some 0%nat) (Some a_win) [] [] 1 1)
  <= wins (mkNode (Some 0%nat) (Some a_win) [] [] 1 1)
  <= visits (mkNode (Some 0%nat) (Some a_win) [] [] 1 1).
Proof.
  apply (think_wins_bounded toy_board 2 3 zero_tape Fork 1 fork_store 1
           toy_outcomes_bounded fork_think_loop 1%nat).
  reflexivity.
Defined.

(** ** Positions of the nodes *)

Lemma dict_set_keys d k v k0 :
  k0 ∈ dict_keys (dict_set d k v) <-> (k0 ∈ dict_keys d \/ k0 = k).
Proof.
  unfold dict_keys. induction d as [|[k' v'] d IH]; simpl.
  - rewrite list_elem_of_singleton. split; [auto|]. intros [H|H]; [inversion H|auto].
  - destruct (decide (k' = k)) as [->|Hne]; simpl.
    + rewrite !elem_of_cons. tauto.
    + rewrite !elem_of_cons, IH. tauto.
Qed.

Lemma dict_set_nonempty d k v : dict_set d k v <> [].
Proof.
  destruct d as [|[k' v'] d]; simpl; [discriminate|].
  destruct (decide (k' = k)); discriminate.
Qed.

Section Positions.

Context {State : Type} (board : Board State) (s0 : State).

Lemma represents_functional (σ : store) n s s' :
  represents board s0 σ n s -> represents board s0 σ n s' -> s = s'.
Proof.
  intros H. revert s'.
  induction H as [n nd Hn Hp|n nd p a s Hn Hp Ha _ IH]; intros s' H';
    inversion H' as [n' nd' Hn' Hp'|n' nd' p' a' s1 Hn' Hp' Ha' Hrep'];
    subst; try congruence.
  assert (nd' = nd) as -> by congruence.
  assert (p' = p) as -> by congruence.
  assert (a' = a) as -> by congruence.
  rewrite (IH s1 Hrep'). reflexivity.
Qed.

Lemma represents_mono (σ σ' : store) n s :
  (forall i nd, σ !! i = Some nd ->
     exists nd', σ' !! i = Some nd' /\ parent nd' = parent nd
                 /\ parent_action nd' = parent_action nd) ->
  represents board s0 σ n s -> represents board s0 σ' n s.
Proof.
  intros Hext H. induction H as [n nd Hn Hp|n nd p a s Hn Hp Ha _ IH].
  - destruct (Hext n nd Hn) as (nd' & Hn' & Hp' & _).
    apply (rep_root board s0 σ' n nd'); congruence.
  - destruct (Hext n nd Hn) as (nd' & Hn' & Hp' & Ha').
    apply (rep_child board s0 σ' n nd' p a s); congruence.
Qed.

Lemma represents_root (σ : store) s :
  tree_ok σ -> represents board s0 σ 0 s -> s = s0.
Proof.
  intros Hok H.
  inversion H as [n nd Hn Hp|n nd p a s1 Hn Hp Ha Hrep]; subst;
    [reflexivity|].
  pose proof (ok_parent_lt σ Hok _ _ _ Hn Hp). lia.
Qed.

Lemma represents_root_intro (σ : store) :
  tree_ok σ -> represents board s0 σ 0 s0.
Proof.
  intros Hok. destruct (ok_root σ Hok) as [r Hr].
  apply (rep_root board s0 σ 0%nat r Hr).
  eapply tree_ok_root_parent; eassumption.
Qed.

Lemma represents_grows (σ σ' : store) n s :
  store_grows σ σ' ->
  represents board s0 σ n s <-> represents board s0 σ' n s.
Proof.
  intros Hg. split; apply represents_mono.
  - intros i nd Hi. destruct (proj1 Hg i nd Hi) as (nd' & Hi' & Hp & Ha & _).
    eauto.
  - intros i nd' Hi'.
    destruct (store_grows_inv _ _ _ _ Hg Hi') as (nd & Hi & Hp & Ha & _).
    exists nd. auto.
Qed.

(** The selector returns a node together with the position it stands for. *)
Lemma traverse_nodes_represents (fuel : nat) (σ : store) (bot : Player) :
  tree_ok σ -> actions_ok board s0 σ ->
  forall node s leaf s',
    represents board s0 σ node s ->
    traverse_nodes board fuel σ node s bot = Ok (leaf, s') ->
    represents board s0 σ leaf s'.
Proof.
  intros Hok Hact. induction fuel as [|fuel IH]; intros node s leaf s' Hrep;
    [discriminate|].
  cbn [traverse_nodes]. intros H.
  apply bind_ok in H as (cur & Hcur & H). apply deref_inv in Hcur.
  assert (Hchild : forall key c, dict_get (child_nodes cur) key = Ok c ->
            represents board s0 σ c (next_state board s key)).
  { intros key c Hget. apply dict_get_elem in Hget.
    destruct (ok_child σ Hok node cur key c Hcur Hget) as (cn & Hcn & Hpar).
    apply (rep_child board s0 σ c cn node key s); try assumption.
    exact (ok_action board s0 σ Hact node cur key c cn Hcur Hget Hcn). }
  destruct ((length (untried_actions cur) <? 1)%nat
            && negb (is_ended board s)); [|injection H as <- <-; assumption].
  apply bind_ok in H as (r & Hscan & H).
  pose proof (scan_children_registered board σ cur s bot
                (dict_keys (child_nodes cur)) (IZR (-999999)) None None I)
    as Hreg.
  rewrite Hscan in Hreg. destruct r as [c sc|b' [bn|] [ba|]];
    try discriminate.
  - injection H as <- <-. destruct Hreg as (key & cn & Hget & -> & _).
    apply Hchild. assumption.
  - eapply IH; [|exact H]. apply Hchild. exact Hreg.
Qed.

Lemma expanded_old_action (σ : store) leaf nd rest a action_list i n0 :
  σ !! leaf = Some nd -> σ !! i = Some n0 ->
  exists n1, expanded σ leaf nd rest a action_list !! i = Some n1
    /\ parent n1 = parent n0 /\ parent_action n1 = parent_action n0.
Proof.
  intros Hleaf H. pose proof (lookup_lt_Some _ _ _ H) as Hlt.
  destruct (decide (i = leaf)) as [->|Hi].
  - eexists. split; [apply expanded_leaf; assumption|].
    assert (n0 = nd) as -> by congruence. split; reflexivity.
  - exists n0. rewrite expanded_other by (try assumption; lia). auto.
Qed.

Lemma expanded_represents_old (σ : store) leaf nd rest a action_list n s :
  tree_ok σ -> σ !! leaf = Some nd -> (n < length σ)%nat ->
  represents board s0 (expanded σ leaf nd rest a action_list) n s ->
  represents board s0 σ n s.
Proof.
  intros Hok Hleaf Hlt H. revert Hlt.
  induction H as [n n1 Hn Hp|n n1 p a' s Hn Hp Ha _ IH]; intros Hlt.
  - destruct (expanded_inv σ leaf nd rest a _ Hleaf n n1 Hn)
      as [[-> ->]|[[-> _]|(_ & _ & Hold)]]; [|lia|].
    + apply (rep_root board s0 σ leaf nd); assumption.
    + apply (rep_root board s0 σ n n1); assumption.
  - destruct (expanded_inv σ leaf nd rest a _ Hleaf n n1 Hn)
      as [[-> ->]|[[-> _]|(_ & _ & Hold)]]; [|lia|].
    + simpl in Hp, Ha.
      pose proof (ok_parent_lt σ Hok leaf nd p Hleaf Hp).
      apply (rep_child board s0 σ leaf nd p a' s); try assumption.
      apply IH. lia.
    + pose proof (ok_parent_lt σ Hok n n1 p Hold Hp).
      apply (rep_child board s0 σ n n1 p a' s); try assumption.
      apply IH. lia.
Qed.

Lemma expanded_actions_ok (σ : store) leaf nd rest a s1 :
  tree_ok σ -> actions_ok board s0 σ ->
  σ !! leaf = Some nd -> untried_actions nd = rest ++ [a] ->
  represents board s0 σ leaf s1 ->
  actions_ok board s0
    (expanded σ leaf nd rest a
       (legal_actions board (next_state board s1 a))).
Proof.
  intros Hok Hact Hleaf Hun Hrep.
  set (action_list := legal_actions board (next_state board s1 a)).
  set (σ1 := expanded σ leaf nd rest a action_list).
  assert (Hfwd : forall n s, represents board s0 σ n s ->
            represents board s0 σ1 n s).
  { intros n s. apply represents_mono. intros i n0 Hi.
    apply expanded_old_action; assumption. }
  split.
  - intros p pn1 a0 c cn1 Hp Hin Hc.
    assert (Hold : forall pn, σ !! p = Some pn -> (a0, c) ∈ child_nodes pn ->
              parent_action cn1 = Some a0).
    { intros pn Hpn Hin0.
      destruct (ok_child σ Hok p pn a0 c Hpn Hin0) as (cn & Hcn & _).
      destruct (expanded_old_action σ leaf nd rest a action_list c cn
                  Hleaf Hcn) as (cn' & Hcn' & _ & Hpa).
      assert (cn' = cn1) as -> by (unfold σ1 in Hc; congruence).
      rewrite Hpa. exact (ok_action board s0 σ Hact p pn a0 c cn Hpn Hin0 Hcn). }
    destruct (expanded_inv σ leaf nd rest a _ Hleaf p pn1 Hp)
      as [[-> ->]|[[-> ->]|(_ & _ & Hpold)]].
    + simpl in Hin. apply dict_set_elem in Hin as [Hin|Heq].
      * eapply Hold; eassumption.
      * injection Heq as -> ->. unfold σ1 in Hc.
        rewrite (expanded_new σ leaf nd rest a) in Hc. injection Hc as <-.
        reflexivity.
    + inversion Hin.
    + eapply Hold; eassumption.
  - intros n n1 s Hn Hs a0.
    destruct (expanded_inv σ leaf nd rest a _ Hleaf n n1 Hn)
      as [[-> ->]|[[-> ->]|(_ & _ & Hold)]].
    + pose proof (lookup_lt_Some _ _ _ Hleaf) as Hlt.
      apply expanded_represents_old in Hs; try assumption.
      rewrite (ok_legal board s0 σ Hact leaf nd s Hleaf Hs a0), Hun.
      simpl. rewrite dict_set_keys, elem_of_app, list_elem_of_singleton. tauto.
    + inversion Hs as [n' nd' Hn' Hp'|n' nd' p' a' sp Hn' Hp' Ha' Hrep'];
        subst; unfold σ1 in Hn'; rewrite (expanded_new σ leaf nd rest a) in Hn';
        injection Hn' as <-; simpl in *; [discriminate|].
      injection Hp' as <-. injection Ha' as <-.
      assert (sp = s1) as ->
        by (eapply represents_functional; [exact Hrep'|apply Hfwd; exact Hrep]).
      unfold dict_keys. simpl. split; [auto|].
      intros [H|H]; [assumption|inversion H].
    + pose proof (lookup_lt_Some _ _ _ Hold) as Hlt.
      apply expanded_represents_old in Hs; try assumption.
      apply (ok_legal board s0 σ Hact n n1 s Hold Hs a0).
Qed.

Lemma actions_ok_grows (σ σ' : store) :
  store_grows σ σ' -> actions_ok board s0 σ -> actions_ok board s0 σ'.
Proof.
  intros Hg Hact. split.
  - intros p pn' a c cn' Hp Hin Hc.
    destruct (store_grows_inv _ _ _ _ Hg Hp) as (pn & Hpn & _ & _ & Hch & _).
    destruct (store_grows_inv _ _ _ _ Hg Hc) as (cn & Hcn & _ & Hpa & _).
    rewrite Hpa. rewrite Hch in Hin.
    exact (ok_action board s0 σ Hact p pn a c cn Hpn Hin Hcn).
  - intros n nd' s Hn Hs a.
    destruct (store_grows_inv _ _ _ _ Hg Hn)
      as (nd & Hnd & _ & _ & Hch & Hun & _).
    rewrite Hch, Hun. apply (ok_legal board s0 σ Hact n nd s Hnd).
    apply (represents_grows σ σ' n s Hg). assumption.
Qed.

Lemma actions_ok_root_store : actions_ok board s0 (root_store board s0).
Proof.
  split.
  - intros [|p] pn a c cn Hp Hin; simpl in Hp; [|discriminate].
    injection Hp as <-. inversion Hin.
  - intros [|n] nd s Hn Hs a; simpl in Hn; [|discriminate].
    injection Hn as <-.
    apply represents_root in Hs; [|apply tree_ok_root_store]. subst s.
    simpl. split; [auto|]. intros [H|H]; [assumption|inversion H].
Qed.

(** The state of the tree and of its positions between two simulations. *)
Lemma think_iteration_actions (fuel : nat) (tape : nat -> nat) (bot : Player)
    (σ σ' : store) (t t' : nat) (k : Z) :
  tree_inv σ k -> actions_ok board s0 σ ->
  think_iteration board fuel tape s0 bot (σ, t) = Ok (σ', t') ->
  actions_ok board s0 σ'.
Proof.
  intros (Hok & Hvis & _) Hact Hit.
  destruct (think_iteration_phases board _ _ _ _ _ _ _ _ Hit)
    as (leaf & s1 & σ1 & newLeaf & s2 & s3 & w & Htrav & Hexp & _ & _ & Hback).
  pose proof (traverse_nodes_represents fuel σ bot Hok Hact 0%nat s0 leaf s1
                (represents_root_intro σ Hok) Htrav) as Hrep.
  destruct (backpropagate_grows _ _ _ _ _ Hback) as (l & _ & _ & Hg & _).
  apply (actions_ok_grows σ1 σ' Hg).
  destruct (expand_leaf_cases board _ _ _ _ _ _ Hexp)
    as (nd & Hnd & [(_ & -> & _)|(rest & a & Hun & -> & _ & ->)]);
    [assumption|].
  apply expanded_actions_ok; assumption.
Qed.

Lemma think_loop_actions (n fuel : nat) (tape : nat -> nat) (bot : Player)
    (σ : store) (t : nat) :
  think_loop board n fuel tape s0 bot (root_store board s0, 0%nat)
    = Ok (σ, t) ->
  tree_inv σ (Z.of_nat n) /\ actions_ok board s0 σ.
Proof.
  intros H.
  apply (think_loop_induction board
           (fun σ k => tree_inv σ k /\ actions_ok board s0 σ)
           fuel tape s0 bot) with (k := 0) in H; [exact H| |].
  - clear. intros σ t σ' t' k [Hinv Hact] Hit.
    split; [eapply think_iteration_inv; eassumption|].
    eapply think_iteration_actions; eassumption.
  - split; [apply tree_ok_root_store|apply actions_ok_root_store].
Qed.

End Positions.

(** ** The depth of the descent *)

Section Depth.

Context {State : Type} (board : Board State).

Lemma ucb_never_out_of_fuel (σ : store) (node : MCTSNode) (b : bool) :
  ucb σ node b <> Err OutOfFuel.
Proof.
  unfold ucb. destruct (visits node =? 0); [discriminate|].
  destruct (parent node) as [p|]; [|discriminate].
  unfold deref. destruct (σ !! p) as [pn|]; cbn [bind]; [|discriminate].
  destruct (visits pn <=? 0); [discriminate|].
  destruct ((visits node <? 0) && (2 <=? visits pn)); discriminate.
Qed.

Lemma scan_children_never_out_of_fuel (σ : store) (cur : MCTSNode)
    (s : State) (bot : Player) (keys : list Action) b n a :
  scan_children board σ cur s bot keys b n a <> Err OutOfFuel.
Proof.
  revert b n a. induction keys as [|key keys IH]; intros b n a;
    [discriminate|].
  cbn [scan_children].
  destruct (dict_get (child_nodes cur) key) as [c|e] eqn:Hc; cbn [bind].
  - unfold deref. destruct (σ !! c) as [cn|]; cbn [bind]; [|discriminate].
    destruct ((visits cn =? 0) || _); [discriminate|].
    destruct (ucb σ cn _) as [r|e] eqn:Hu; cbn [bind].
    + destruct (Rgt_dec r b); apply IH.
    + intros [= ->]. exact (ucb_never_out_of_fuel _ _ _ Hu).
  - intros [= ->]. clear -Hc.
    induction (child_nodes cur) as [|[k' v'] d IHd]; simpl in Hc;
      [discriminate|].
    destruct (decide (k' = key)); [discriminate|auto].
Qed.

(** X8.  In a tree the descent from a node never runs out of fuel once the fuel
    covers the nodes allocated after it: each step goes to a child, which was
    allocated after its parent, so the depth of the recursion is bounded by
    the size of the tree. *)
Theorem traverse_nodes_depth (fuel : nat) (σ : store) (node : nat)
    (s : State) (bot : Player) :
  tree_ok σ -> (node < length σ)%nat -> (length σ - node <= fuel)%nat ->
  traverse_nodes board fuel σ node s bot <> Err OutOfFuel.
Proof.
  intros Hok. revert node s.
  induction fuel as [|fuel IH]; intros node s Hlt Hfuel; [lia|].
  cbn [traverse_nodes]. unfold deref.
  destruct (σ !! node) as [cur|] eqn:Hcur; cbn [bind]; [|discriminate].
  destruct ((length (untried_actions cur) <? 1)%nat
            && negb (is_ended board s)); [|discriminate].
  pose proof (scan_children_registered board σ cur s bot
                (dict_keys (child_nodes cur)) (IZR (-999999)) None None I)
    as Hreg.
  destruct (scan_children board σ cur s bot _ _ None None) as [r|e] eqn:Hscan;
    cbn [bind].
  - destruct r as [c sc|b' [bn|] [ba|]]; try discriminate.
    apply dict_get_elem in Hreg.
    destruct (ok_child σ Hok node cur ba bn Hcur Hreg) as (cn & Hcn & Hpar).
    pose proof (ok_parent_lt σ Hok bn cn node Hcn Hpar).
    pose proof (lookup_lt_Some _ _ _ Hcn).
    apply IH; lia.
  - intros [= ->]. exact (scan_children_never_out_of_fuel _ _ _ _ _ _ _ _ Hscan).
Qed.

End Depth.

Lemma traverse_nodes_depth_witness :
  traverse_nodes toy_board 2 (forced_store 9) 0 Captured 2 <> Err OutOfFuel.
Proof.
  apply (traverse_nodes_depth toy_board 2 (forced_store 9) 0 Captured 2).
  - exact (proj1 (think_loop_from_root toy_board 9 2 zero_tape Captured 2
                    (forced_store 9) 0 (forced_think_loop 8))).
  - simpl. lia.
  - simpl. lia.
Defined.

(** ** The search as a whole *)

Lemma rate_above_initial (w v : Z) :
  0 < v -> - v <= w ->
  (inject_Z (-999999) < inject_Z w / inject_Z v)%Q.
Proof.
  intros Hv Hw. apply Qlt_shift_div_l.
  - change 0%Q with (inject_Z 0). rewrite <- Zlt_Qlt. assumption.
  - rewrite <- inject_Z_mult, <- Zlt_Qlt. nia.
Qed.

Section Whole.

Context {State : Type} (board : Board State).

(** X13.  Tree shape of a search.  Between the simulations every child is
    registered under its own parent action and points back to the node that
    holds it, and at every node the untried actions together with the actions
    of the children are exactly the legal actions of the position the node
    stands for. *)
Theorem think_actions_partition (n fuel : nat) (tape : nat -> nat)
    (s0 : State) (bot : Player) (σ : store) (t : nat) :
  think_loop board n fuel tape s0 bot (root_store board s0, 0%nat)
    = Ok (σ, t) ->
  (forall p pn a c, σ !! p = Some pn -> (a, c) ∈ child_nodes pn ->
     exists cn, σ !! c = Some cn /\ parent cn = Some p
                /\ parent_action cn = Some a)
  /\ (forall node nd s, σ !! node = Some nd ->
        represents board s0 σ node s ->
        forall a, a ∈ legal_actions board s
                  <-> (a ∈ untried_actions nd
                       \/ a ∈ dict_keys (child_nodes nd))).
Proof.
  intros H. apply think_loop_actions in H as [(Hok & _) Hact]. split.
  - intros p pn a c Hp Hin.
    destruct (ok_child σ Hok p pn a c Hp Hin) as (cn & Hcn & Hpar).
    exists cn. split; [assumption|]. split; [assumption|].
    exact (ok_action board s0 σ Hact p pn a c cn Hp Hin Hcn).
  - exact (ok_legal board s0 σ Hact).
Qed.

Lemma traverse_nodes_stops_inv (σ : store) (k : Z) (bot : Player) :
  tree_inv σ k ->
  forall fuel node s leaf s',
    traverse_nodes board fuel σ node s bot = Ok (leaf, s') ->
    exists nd, σ !! leaf = Some nd
      /\ (untried_actions nd <> [] \/ is_ended board s' = true).
Proof.
  intros Hinv fuel. induction fuel as [|fuel IH]; intros node s leaf s';
    [discriminate|].
  cbn [traverse_nodes]. intros H.
  apply bind_ok in H as (cur & Hcur & H). apply deref_inv in Hcur.
  destruct ((length (untried_actions cur) <? 1)%nat
            && negb (is_ended board s)) eqn:Hc.
  - apply andb_true_iff in Hc as [Hlen _]. apply Nat.ltb_lt in Hlen.
    assert (Hun : untried_actions cur = [])
      by (destruct (untried_actions cur); [reflexivity|simpl in Hlen; lia]).
    destruct (scan_children_scanned board σ k node cur s bot Hinv Hcur Hun
                (dict_keys (child_nodes cur)) (reflexivity _)
                (IZR (-999999)) None None) as (b' & n' & a' & Heq).
    rewrite Heq in H. cbn [bind] in H.
    destruct n' as [bn|]; [destruct a' as [ba|]|]; try discriminate.
    eapply IH. eassumption.
  - injection H as <- <-. exists cur. split; [assumption|].
    apply andb_false_iff in Hc as [Hlen|Hend].
    + left. apply Nat.ltb_ge in Hlen. intros Hnil. rewrite Hnil in Hlen.
      simpl in Hlen. lia.
    + right. apply negb_false_iff in Hend. assumption.
Qed.

(** X15.  The selector in a search: from the root and the starting position it
    returns a node together with the position that node stands for, and the
    node has an untried action or its position is ended. *)
Theorem think_traverse_position (n fuel fuel' : nat) (tape : nat -> nat)
    (s0 : State) (bot bot' : Player) (σ : store) (t : nat) (leaf : nat)
    (s' : State) :
  think_loop board n fuel tape s0 bot (root_store board s0, 0%nat)
    = Ok (σ, t) ->
  traverse_nodes board fuel' σ 0 s0 bot' = Ok (leaf, s') ->
  represents board s0 σ leaf s'
  /\ exists nd, σ !! leaf = Some nd
       /\ (untried_actions nd <> [] \/ is_ended board s' = true).
Proof.
  intros H Htrav. apply think_loop_actions in H as [Hinv Hact].
  split.
  - destruct Hinv as (Hok & _).
    exact (traverse_nodes_represents board s0 fuel' σ bot' Hok Hact
             0%nat s0 leaf s' (represents_root_intro board s0 σ Hok) Htrav).
  - eapply traverse_nodes_stops_inv; eassumption.
Qed.

Lemma scan_children_picks (σ : store) (k : Z) (p : nat) (pn : MCTSNode)
    (s : State) (bot : Player) :
  tree_inv σ k -> wins_bounded σ -> σ !! p = Some pn ->
  untried_actions pn = [] ->
  forall keys, keys ⊆ dict_keys (child_nodes pn) ->
  forall b n a,
    best_registered pn n a ->
    (keys <> [] /\ b = IZR (-999999))
    \/ (exists bn ba, n = Some bn /\ a = Some ba) ->
    exists b' bn' ba',
      scan_children board σ pn s bot keys b n a
      = Ok (Scanned b' (Some bn') (Some ba'))
      /\ dict_get (child_nodes pn) ba' = Ok bn'.
Proof.
  intros (Hok & Hvis & _) Hw Hp Hun keys.
  induction keys as [|key keys IH]; intros Hsub b n a Hreg Hstart.
  - destruct Hstart as [[Hne _]|(bn & ba & -> & ->)]; [congruence|].
    exists b, bn, ba. split; [reflexivity|exact Hreg].
  - assert (Hkey : key ∈ dict_keys (child_nodes pn)) by (apply Hsub; left).
    assert (Hrest : keys ⊆ dict_keys (child_nodes pn)).
    { intros x Hx. apply Hsub. right. assumption. }
    destruct (dict_get_key _ _ Hkey) as [c Hc].
    pose proof (dict_get_elem _ _ _ Hc) as Hin.
    destruct (ok_child σ Hok p pn key c Hp Hin) as (cn & Hcn & Hpar).
    destruct (Hvis p pn key c cn Hp Hin Hcn) as [Hv1 Hv2]; [discriminate|].
    cbn [scan_children]. rewrite Hc. cbn [bind].
    rewrite (deref_ok _ _ _ Hcn). cbn [bind]. rewrite Hun.
    destruct (visits cn =? 0) eqn:E; [apply Z.eqb_eq in E; lia|].
    cbn [orb length Nat.ltb Nat.leb].
    destruct (ucb_above_initial σ cn pn p
                (bot =? current_player board s) Hpar Hp)
      as (r & -> & _ & Hr); [lia|lia|exact (Hw c cn Hcn)|].
    cbn [bind]. destruct (Rgt_dec r b) as [Hgt|Hngt].
    + apply IH; [assumption|exact Hc|]. right. eauto.
    + apply IH; [assumption|exact Hreg|]. right.
      destruct Hstart as [[_ ->]|Hsome]; [contradiction|assumption].
Qed.

Lemma traverse_nodes_returns (s0 : State) (σ : store) (k : Z) (bot' : Player)
    (fuel' : nat) :
  moves_until_end board ->
  tree_inv σ k -> actions_ok board s0 σ -> wins_bounded σ ->
  (length σ <= fuel')%nat ->
  exists leaf s', traverse_nodes board fuel' σ 0 s0 bot' = Ok (leaf, s').
Proof.
  intros Hm Hinv Hact Hw Hfuel.
  pose proof Hinv as (Hok & Hvis & _).
  assert (Hgen : forall f node s,
            represents board s0 σ node s -> (length σ - node <= f)%nat ->
            exists leaf s', traverse_nodes board f σ node s bot'
                            = Ok (leaf, s')).
  { induction f as [|f IH]; intros node s Hrep Hf.
    - exfalso. assert (exists nd, σ !! node = Some nd) as [nd Hnd]
        by (inversion Hrep; eauto).
      apply lookup_lt_Some in Hnd. lia.
    - assert (exists cur, σ !! node = Some cur) as [cur Hcur]
        by (inversion Hrep; eauto).
      cbn [traverse_nodes]. rewrite (deref_ok _ _ _ Hcur). cbn [bind].
      destruct ((length (untried_actions cur) <? 1)%nat
                && negb (is_ended board s)) eqn:Hc; [|eauto].
      apply andb_true_iff in Hc as [Hlen Hend]. apply Nat.ltb_lt in Hlen.
      apply negb_true_iff in Hend.
      assert (Hun : untried_actions cur = [])
        by (destruct (untried_actions cur); [reflexivity|simpl in Hlen; lia]).
      assert (Hkeys : dict_keys (child_nodes cur) <> []).
      { pose proof (Hm s Hend) as Hlegal.
        destruct (legal_actions board s) as [|a0 l0] eqn:El; [congruence|].
        assert (Ha0 : a0 ∈ legal_actions board s) by (rewrite El; left).
        apply (ok_legal board s0 σ Hact node cur s Hcur Hrep) in Ha0.
        rewrite Hun in Ha0. destruct Ha0 as [Ha0|Ha0]; [inversion Ha0|].
        intros Hnil. rewrite Hnil in Ha0. inversion Ha0. }
      destruct (scan_children_picks σ _ node cur s bot' Hinv Hw Hcur Hun
                  (dict_keys (child_nodes cur)) (reflexivity _)
                  (IZR (-999999)) None None I)
        as (b' & bn & ba & -> & Hget); [left; auto|].
      cbn [bind]. pose proof (dict_get_elem _ _ _ Hget) as Hin.
      destruct (ok_child σ Hok node cur ba bn Hcur Hin) as (cn & Hcn & Hpar).
      pose proof (ok_parent_lt σ Hok bn cn node Hcn Hpar).
      apply IH; [|lia].
      apply (rep_child board s0 σ bn cn node ba s); try assumption.
      exact (ok_action board s0 σ Hact node cur ba bn cn Hcur Hin Hcn). }
  apply Hgen; [apply represents_root_intro; assumption|lia].
Qed.

(** X17.  The selector cannot fail in a search on a board that keeps its
    contract (outcomes between -1 and 1, a legal action wherever the game is
    not ended): from the root, with fuel for the size of the tree, it
    returns. *)
Theorem think_traverse_returns (n fuel fuel' : nat) (tape : nat -> nat)
    (s0 : State) (bot bot' : Player) (σ : store) (t : nat) :
  outcomes_bounded board -> moves_until_end board ->
  think_loop board n fuel tape s0 bot (root_store board s0, 0%nat)
    = Ok (σ, t) ->
  (length σ <= fuel')%nat ->
  exists leaf s', traverse_nodes board fuel' σ 0 s0 bot' = Ok (leaf, s').
Proof.
  intros Hb Hm H Hfuel.
  pose proof (think_loop_wins_bounded board n fuel tape s0 bot σ t Hb H) as Hw.
  apply think_loop_actions in H as [Hinv Hact].
  eapply traverse_nodes_returns; eassumption.
Qed.

End Whole.

Section Recommendation.

Context {State : Type} (board : Board State).

Lemma expand_leaf_ok (σ : store) (leaf : nat) (nd : MCTSNode) (s : State) :
  σ !! leaf = Some nd ->
  exists σ1 newLeaf s2 n1,
    expand_leaf board σ leaf s = Ok (σ1, newLeaf, s2)
    /\ σ1 !! newLeaf = Some n1 /\ (newLeaf <= length σ)%nat.
Proof.
  intros Hnd. pose proof (lookup_lt_Some _ _ _ Hnd) as Hlt.
  unfold expand_leaf. rewrite (deref_ok _ _ _ Hnd). cbn [bind].
  destruct (list_pop (untried_actions nd)) as [[rest a]|].
  - eexists. eexists. eexists. eexists. split; [reflexivity|].
    split; [|lia].
    apply (expanded_new σ leaf nd rest a).
  - exists σ, leaf, s, nd. split; [reflexivity|]. split; [assumption|lia].
Qed.

(** After a simulation of a search from a position with a legal action the
    root has a child. *)
Lemma think_iteration_root_child (fuel : nat) (tape : nat -> nat)
    (s0 : State) (bot : Player) (σ σ' : store) (t t' : nat) (k : Z) :
  legal_actions board s0 <> [] ->
  tree_inv σ k -> actions_ok board s0 σ ->
  think_iteration board fuel tape s0 bot (σ, t) = Ok (σ', t') ->
  exists r', σ' !! 0%nat = Some r' /\ child_nodes r' <> [].
Proof.
  intros Hlegal (Hok & Hvis & _) Hact Hit.
  destruct (think_iteration_phases board _ _ _ _ _ _ _ _ Hit)
    as (leaf & s1 & σ1 & newLeaf & s2 & s3 & w & Htrav & Hexp & _ & _ & Hback).
  destruct (ok_root σ Hok) as [r Hr].
  assert (H1 : exists r1, σ1 !! 0%nat = Some r1 /\ child_nodes r1 <> []).
  { destruct (expand_leaf_cases board _ _ _ _ _ _ Hexp)
      as (nd & Hnd & [(Hun & -> & _)|(rest & a & Hun & _ & _ & ->)]).
    - exists r. split; [assumption|]. intros Hnil.
      destruct fuel as [|fuel]; [discriminate|].
      cbn [traverse_nodes] in Htrav. rewrite (deref_ok _ _ _ Hr) in Htrav.
      cbn [bind] in Htrav.
      destruct (legal_actions board s0) as [|a0 l0] eqn:El; [congruence|].
      assert (Ha0 : a0 ∈ legal_actions board s0) by (rewrite El; left).
      apply (ok_legal board s0 σ Hact 0%nat r s0 Hr
               (represents_root_intro board s0 σ Hok)) in Ha0.
      rewrite Hnil in Ha0. destruct Ha0 as [Ha0|Ha0]; [|inversion Ha0].
      destruct (untried_actions r) as [|u us] eqn:Eu; [inversion Ha0|].
      cbn [length Nat.ltb Nat.leb andb] in Htrav.
      injection Htrav as <- <-.
      assert (nd = r) as -> by congruence. congruence.
    - destruct (decide (leaf = 0%nat)) as [->|Hne].
      + eexists. split; [apply expanded_leaf; assumption|].
        simpl. apply dict_set_nonempty.
      + destruct (decide (child_nodes r = [])) as [Hnil|Hnn].
        * exfalso. destruct fuel as [|fuel]; [discriminate|].
          cbn [traverse_nodes] in Htrav. rewrite (deref_ok _ _ _ Hr) in Htrav.
          cbn [bind] in Htrav.
          destruct (legal_actions board s0) as [|a0 l0] eqn:El; [congruence|].
          assert (Ha0 : a0 ∈ legal_actions board s0) by (rewrite El; left).
          apply (ok_legal board s0 σ Hact 0%nat r s0 Hr
                   (represents_root_intro board s0 σ Hok)) in Ha0.
          rewrite Hnil in Ha0. destruct Ha0 as [Ha0|Ha0]; [|inversion Ha0].
          destruct (untried_actions r) as [|u us] eqn:Eu; [inversion Ha0|].
          cbn [length Nat.ltb Nat.leb andb] in Htrav.
          injection Htrav as <- <-. congruence.
        * exists r. split; [|assumption].
          pose proof (lookup_lt_Some _ _ _ Hr).
          rewrite expanded_other by (try assumption; lia). assumption. }
  destruct H1 as (r1 & Hr1 & Hne).
  destruct (backpropagate_grows _ _ _ _ _ Hback) as (l & _ & _ & Hg & _).
  destruct (proj1 Hg _ _ Hr1) as (r' & Hr' & _ & _ & Hch & _).
  exists r'. split; [assumption|]. congruence.
Qed.

Lemma think_loop_root_child (n fuel : nat) (tape : nat -> nat) (s0 : State)
    (bot : Player) (σ : store) (t : nat) :
  legal_actions board s0 <> [] ->
  think_loop board (S n) fuel tape s0 bot (root_store board s0, 0%nat)
    = Ok (σ, t) ->
  exists r, σ !! 0%nat = Some r /\ child_nodes r <> [].
Proof.
  intros Hlegal H.
  apply (think_loop_induction board
           (fun σ k => (tree_inv σ k /\ actions_ok board s0 σ)
                       /\ (1 <= k -> exists r, σ !! 0%nat = Some r
                                        /\ child_nodes r <> []))
           fuel tape s0 bot) with (k := 0) in H; [apply H; lia| |].
  - intros σ1 t1 σ' t' k [[Hinv Hact] _] Hit. split; [split|].
    + eapply think_iteration_inv; eassumption.
    + eapply think_iteration_actions; eassumption.
    + intros _. eapply think_iteration_root_child; eassumption.
  - split; [split; [apply tree_ok_root_store|apply actions_ok_root_store]|].
    lia.
Qed.

(** X19.  The result of a search.  On a board whose outcomes lie between -1 and 1,
    from a position with a legal action, a search that returns returns a
    legal action of that position (never [None]). *)
Theorem think_returns_legal_action (fuel : nat) (tape : nat -> nat)
    (s0 : State) (r : option Action) :
  outcomes_bounded board -> legal_actions board s0 <> [] ->
  think board fuel tape s0 = Ok r ->
  exists a, r = Some a /\ a ∈ legal_actions board s0.
Proof.
  intros Hb Hlegal. unfold think. intros H.
  apply bind_ok in H as ([σ t] & Hloop & H).
  apply bind_ok in H as (root_node & Hroot & H). apply deref_inv in Hroot.
  pose proof (think_loop_wins_bounded board _ _ _ _ _ _ _ Hb Hloop) as Hw.
  destruct (think_loop_root_child 99 _ _ _ _ _ _ Hlegal Hloop)
    as (r0 & Hr0 & Hne).
  assert (r0 = root_node) as -> by congruence.
  apply think_loop_actions in Hloop as [(Hok & Hvis & _) Hact].
  assert (Hchildren : forall c, c ∈ dict_values (child_nodes root_node) ->
            exists a child, (a, c) ∈ child_nodes root_node
              /\ σ !! c = Some child /\ 0 < visits child
              /\ parent_action child = Some a).
  { intros c Hc. apply list_elem_of_fmap in Hc as ([a c'] & -> & Hin).
    destruct (ok_child σ Hok 0%nat root_node a c' Hroot Hin)
      as (child & Hchild & _).
    destruct (Hvis 0%nat root_node a c' child Hroot Hin Hchild)
      as [Hv _]; [discriminate|].
    exists a, child. repeat split; try assumption; [simpl; lia|].
    exact (ok_action board s0 σ Hact 0%nat root_node a c' child
             Hroot Hin Hchild). }
  unfold get_best_action in H.
  destruct (scan_rates_spec σ (dict_values (child_nodes root_node)))
    with (action := @None Action) (bestRate := inject_Z (-999999))
    as (res & Hres & [[-> Hle]|(j & c & best & Hj & Hbest & -> & _)]).
  - intros c Hc. destruct (Hchildren c Hc) as (a & child & _ & ? & ? & _).
    eauto.
  - exfalso. destruct (child_nodes root_node) as [|[a c] d] eqn:Ech;
      [congruence|].
    destruct (Hchildren c) as (a' & child & _ & Hchild & Hv & _);
      [simpl; left|].
    pose proof (Hw c child Hchild) as [Hlo _].
    apply (Qlt_not_le _ _ (rate_above_initial _ _ Hv Hlo)).
    apply (Hle c); [simpl; left|assumption].
  - destruct (Hchildren c) as (a & child & Hin & Hchild & _ & Hpa).
    { apply list_elem_of_lookup. eauto. }
    assert (child = best) as -> by congruence.
    exists a. split; [congruence|].
    apply (ok_legal board s0 σ Hact 0%nat root_node s0 Hroot
             (represents_root_intro board s0 σ Hok)).
    right. apply list_elem_of_fmap. exists (a, c). auto.
Qed.

(** X18.  In a search on a board that keeps its contract only the rollout can make
    a simulation fail: with fuel above the size of the tree the selector and
    the expander return, and if the rollout returns a state with an outcome
    the whole simulation returns. *)
Theorem think_iteration_progress (n fuel fuel' : nat) (tape : nat -> nat)
    (s0 : State) (bot : Player) (σ : store) (t : nat) :
  outcomes_bounded board -> moves_until_end board ->
  think_loop board n fuel tape s0 bot (root_store board s0, 0%nat)
    = Ok (σ, t) ->
  (length σ < fuel')%nat ->
  exists leaf s1 σ1 newLeaf s2,
    traverse_nodes board fuel' σ 0 s0 bot = Ok (leaf, s1)
    /\ expand_leaf board σ leaf s1 = Ok (σ1, newLeaf, s2)
    /\ forall s3 t' w,
         rollout board fuel' tape t s2 = Ok (s3, t') ->
         points_values board s3 = Some w ->
         exists σ', think_iteration board fuel' tape s0 bot (σ, t)
                    = Ok (σ', t').
Proof.
  intros Hb Hm H Hfuel.
  pose proof (think_loop_wins_bounded board n fuel tape s0 bot σ t Hb H) as Hw.
  apply think_loop_actions in H as [Hinv Hact].
  pose proof Hinv as (Hok & Hvis & _).
  destruct (traverse_nodes_returns board s0 σ _ bot fuel' Hm Hinv Hact Hw)
    as (leaf & s1 & Htrav); [lia|].
  destruct (traverse_nodes_stops_inv board σ _ bot Hinv _ _ _ _ _ Htrav)
    as (nd & Hnd & _).
  destruct (expand_leaf_ok σ leaf nd s1 Hnd)
    as (σ1 & newLeaf & s2 & n1 & Hexp & Hn1 & Hle).
  exists leaf, s1, σ1, newLeaf, s2. split; [assumption|].
  split; [assumption|]. intros s3 t' w Hroll Hpv.
  destruct (expand_leaf_preserves board _ _ _ _ _ _ Hok Hvis Hexp)
    as (Hok1 & _).
  destruct (parent_chain_exists σ1 newLeaf n1 Hok1 Hn1) as (l & Hl & Hlen).
  destruct (backpropagate_chain σ1 newLeaf l (w bot) fuel' Hl)
    as (σ' & Hback & _); [lia|].
  exists σ'. unfold think_iteration. rewrite Htrav. cbn [bind].
  rewrite Hexp. cbn [bind]. rewrite Hroll. cbn [bind]. rewrite Hpv, Hback.
  reflexivity.
Qed.

(** X20.  A search from a position where the game is ended (no legal action, an
    outcome) builds no child and returns [None]. *)
Theorem think_on_ended_position (fuel : nat) (tape : nat -> nat)
    (s0 : State) (w : Player -> Z) :
  is_ended board s0 = true -> legal_actions board s0 = [] ->
  points_values board s0 = Some w -> (1 <= fuel)%nat ->
  think board fuel tape s0 = Ok None.
Proof.
  intros Hend Hlegal Hpv Hfuel.
  destruct fuel as [|fuel]; [lia|].
  assert (Hloop : forall n w0 v0 t,
            exists w1 v1,
              think_loop board n (S fuel) tape s0
                (current_player board s0)
                ([mkNode None None [] [] w0 v0], t)
              = Ok ([mkNode None None [] [] w1 v1], t)).
  { induction n as [|n IH]; intros w0 v0 t; [simpl; eauto|].
    cbn [think_loop think_iteration traverse_nodes deref lookup list_lookup
         bind untried_actions length Nat.ltb Nat.leb andb].
    rewrite Hend. cbn [negb andb bind expand_leaf deref lookup list_lookup
                       untried_actions list_pop rollout].
    rewrite Hend. cbn [bind]. rewrite Hpv.
    cbn [backpropagate deref lookup list_lookup bind parent insert
         list_insert].
    apply IH. }
  unfold think, root_store, MCTSNode_new. rewrite Hlegal.
  destruct (Hloop num_nodes 0 0 0%nat) as (w1 & v1 & ->).
  reflexivity.
Qed.

(** X21.  A search from a position that is not ended but has no legal action
    returns no action: the first descent finds no child and raises an
    exception. *)
Theorem think_without_moves (fuel : nat) (tape : nat -> nat) (s0 : State) :
  is_ended board s0 = false -> legal_actions board s0 = [] ->
  (1 <= fuel)%nat ->
  exists e, think board fuel tape s0 = Err e /\ e <> OutOfFuel.
Proof.
  intros Hend Hlegal Hfuel. destruct fuel as [|fuel]; [lia|].
  exists TypeError. split; [|discriminate].
  unfold think, root_store, MCTSNode_new, num_nodes. rewrite Hlegal.
  cbn [think_loop think_iteration traverse_nodes deref lookup list_lookup
       bind untried_actions length Nat.ltb Nat.leb andb].
  rewrite Hend. reflexivity.
Qed.

End Recommendation.

Section Size.

Context {State : Type} (board : Board State).

Lemma backpropagate_length (fuel : nat) (σ σ' : store) (n : nat) (won : Z) :
  backpropagate fuel σ n won = Ok σ' -> length σ' = length σ.
Proof.
  intros Hrun.
  destruct (backpropagate_ok_chain _ _ _ _ _ Hrun) as (l & Hl & Hlen).
  destruct (backpropagate_chain σ n l won fuel Hl Hlen)
    as (σ2 & Hrun2 & Hlen2 & _).
  congruence.
Qed.

(** X12.  A simulation allocates at most one node: after [n] simulations the tree
    has at most [n + 1] nodes, the root included, so fuel [n + 2] covers
    every descent and every backpropagation of the next simulation. *)
Theorem think_tree_size (n fuel : nat) (tape : nat -> nat) (s0 : State)
    (bot : Player) (σ : store) (t : nat) :
  think_loop board n fuel tape s0 bot (root_store board s0, 0%nat)
    = Ok (σ, t) ->
  (1 <= length σ <= n + 1)%nat.
Proof.
  intros H.
  apply (think_loop_induction board
           (fun σ k => 1 <= Z.of_nat (length σ) <= k + 1)
           fuel tape s0 bot) with (k := 0) in H; [lia| |simpl; lia].
  clear. intros σ t σ' t' k Hlen Hit.
  destruct (think_iteration_phases board _ _ _ _ _ _ _ _ Hit)
    as (leaf & s1 & σ1 & newLeaf & s2 & s3 & w & _ & Hexp & _ & _ & Hback).
  rewrite (backpropagate_length _ _ _ _ _ Hback).
  destruct (expand_leaf_cases board _ _ _ _ _ _ Hexp)
    as (nd & Hnd & [(_ & -> & _)|(rest & a & _ & _ & _ & ->)]); [lia|].
  unfold expanded. rewrite length_app, length_insert. simpl. lia.
Qed.

(** X22.  On a board whose ended states all have an outcome, the state a rollout
    returns passes the assertion of [is_win]. *)
Theorem is_win_after_rollout (fuel : nat) (tape : nat -> nat) (k k' : nat)
    (state state' : State) (identity_of_bot : Player) :
  (forall s, is_ended board s = true -> points_values board s <> None) ->
  rollout board fuel tape k state = Ok (state', k') ->
  exists outcome,
    points_values board state' = Some outcome
    /\ is_win board state' identity_of_bot
       = Ok (outcome identity_of_bot =? 1).
Proof.
  intros Hcons Hroll.
  assert (Hend : is_ended board state' = true).
  { clear Hcons. revert k state Hroll.
    induction fuel as [|fuel IH]; intros k state; cbn [rollout];
      destruct (is_ended board state) eqn:E; try discriminate.
    - intros [= <- <-]. assumption.
    - intros [= <- <-]. assumption.
    - intros H. apply bind_ok in H as ([[a s1] k1] & _ & H). eauto. }
  unfold is_win. specialize (Hcons state' Hend).
  destruct (points_values board state') as [outcome|]; [eauto|congruence].
Qed.

End Size.

(** ** The searches of the small board *)

Lemma toy_moves_until_end : moves_until_end toy_board.
Proof. intros s H. destruct s; simpl in *; discriminate. Qed.

Lemma think_tree_size_witness :
  (1 <= length (forced_store 100) <= 100 + 1)%nat.
Proof.
  apply (think_tree_size toy_board 100 2 zero_tape Captured 2
           (forced_store 100) 0).
  exact (forced_think_loop 99).
Defined.

Lemma is_win_after_rollout_witness :
  exists outcome,
    points_values toy_board Drawn = Some outcome
    /\ is_win toy_board Drawn 2 = Ok (outcome 2 =? 1).
Proof.
  apply (is_win_after_rollout toy_board 3 zero_tape 0 1 Fork Drawn 2).
  - intros s H. destruct s; simpl in *; discriminate.
  - reflexivity.
Defined.

Lemma think_actions_partition_witness :
  (forall p pn a c, fork_store !! p = Some pn ->
     (a, c) ∈ child_nodes pn ->
     exists cn, fork_store !! c = Some cn /\ parent cn = Some p
                /\ parent_action cn = Some a)
  /\ (forall node nd s, fork_store !! node = Some nd ->
        represents toy_board Fork fork_store node s ->
        forall a, a ∈ legal_actions toy_board s
                  <-> (a ∈ untried_actions nd
                       \/ a ∈ dict_keys (child_nodes nd))).
Proof.
  apply (think_actions_partition toy_board 2 3 zero_tape Fork 1 fork_store 1).
  exact fork_think_loop.
Defined.

Lemma think_traverse_position_witness :
  represents toy_board Captured (forced_store 100) 1 Drawn
  /\ exists nd, forced_store 100 !! 1%nat = Some nd
       /\ (untried_actions nd <> [] \/ is_ended toy_board Drawn = true).
Proof.
  apply (think_traverse_position toy_board 100 2 2 zero_tape Captured 2 2
           (forced_store 100) 0 1 Drawn).
  - exact (forced_think_loop 99).
  - apply forced_traverse. lia.
Defined.

Lemma think_traverse_returns_witness :
  exists leaf s',
    traverse_nodes toy_board 2 (forced_store 100) 0 Captured 1
    = Ok (leaf, s').
Proof.
  apply (think_traverse_returns toy_board 100 2 2 zero_tape Captured 2 1
           (forced_store 100) 0).
  - exact toy_outcomes_bounded.
  - exact toy_moves_until_end.
  - exact (forced_think_loop 99).
  - simpl. lia.
Defined.

Lemma think_returns_legal_action_witness :
  exists a, Some a_draw = Some a /\ a ∈ legal_actions toy_board Captured.
Proof.
  apply (think_returns_legal_action toy_board 2 zero_tape Captured
           (Some a_draw)).
  - exact toy_outcomes_bounded.
  - discriminate.
  - exact think_forced.
Defined.

Lemma think_iteration_progress_witness :
  exists leaf s1 σ1 newLeaf s2,
    traverse_nodes toy_board 3 (forced_store 100) 0 Captured 2
    = Ok (leaf, s1)
    /\ expand_leaf toy_board (forced_store 100) leaf s1
       = Ok (σ1, newLeaf, s2)
    /\ forall s3 t' w,
         rollout toy_board 3 zero_tape 0 s2 = Ok (s3, t') ->
         points_values toy_board s3 = Some w ->
         exists σ', think_iteration toy_board 3 zero_tape Captured 2
                      (forced_store 100, 0%nat)
                    = Ok (σ', t').
Proof.
  apply (think_iteration_progress toy_board 100 2 3 zero_tape Captured 2
           (forced_store 100) 0).
  - exact toy_outcomes_bounded.
  - exact toy_moves_until_end.
  - exact (forced_think_loop 99).
  - simpl. lia.
Defined.

Lemma think_on_ended_position_witness :
  think toy_board 1 zero_tape Won = Ok None.
Proof.
  apply (think_on_ended_position toy_board 1 zero_tape Won
           (fun p => if p =? 1 then 1 else -1)).
  - reflexivity.
  - reflexivity.
  - reflexivity.
  - lia.
Defined.

Lemma think_without_moves_witness :
  exists e, think stuck_board 1 zero_tape Trap = Err e /\ e <> OutOfFuel.
Proof.
  apply (think_without_moves stuck_board 1 zero_tape Trap).
  - reflexivity.
  - reflexivity.
  - lia.
Defined.

(** ** The order of expansion *)

Lemma dict_set_keys_fresh d k v :
  k ∉ dict_keys d -> dict_keys (dict_set d k v) = dict_keys d ++ [k].
Proof.
  unfold dict_keys. induction d as [|[k' v'] d IH]; simpl; intros Hk;
    [reflexivity|].
  apply not_elem_of_cons in Hk as [Hne Hk].
  destruct (decide (k' = k)) as [->|_]; [congruence|].
  simpl. rewrite IH by assumption. reflexivity.
Qed.

Section Order.

Context {State : Type} (board : Board State) (s0 : State).

Lemma expanded_order_ok (σ : store) leaf nd rest a s1 :
  tree_ok σ -> order_ok board s0 σ ->
  σ !! leaf = Some nd -> untried_actions nd = rest ++ [a] ->
  represents board s0 σ leaf s1 ->
  NoDup (legal_actions board s1) ->
  order_ok board s0
    (expanded σ leaf nd rest a
       (legal_actions board (next_state board s1 a))).
Proof.
  intros Hok Hord Hleaf Hun Hrep Hnd.
  set (action_list := legal_actions board (next_state board s1 a)).
  set (σ1 := expanded σ leaf nd rest a action_list).
  assert (Hfwd : forall n s, represents board s0 σ n s ->
            represents board s0 σ1 n s).
  { intros n s. apply represents_mono. intros i n0 Hi.
    apply expanded_old_action; assumption. }
  intros n n1 s Hn Hs.
  destruct (expanded_inv σ leaf nd rest a _ Hleaf n n1 Hn)
    as [[-> ->]|[[-> ->]|(_ & _ & Hold)]].
  - pose proof (lookup_lt_Some _ _ _ Hleaf) as Hlt.
    apply (expanded_represents_old board s0) in Hs; try assumption.
    assert (s = s1) as -> by (eapply represents_functional; eassumption).
    pose proof (Hord leaf nd s1 Hleaf Hrep) as Heq. rewrite Hun in Heq.
    assert (Hfresh : a ∉ dict_keys (child_nodes nd)).
    { rewrite <- Heq in Hnd. apply NoDup_app in Hnd as (_ & Hdis & _).
      intros Hin. apply (Hdis a).
      - apply elem_of_app. right. left.
      - apply elem_of_reverse. assumption. }
    simpl. rewrite (dict_set_keys_fresh _ _ _ Hfresh), reverse_snoc.
    rewrite <- Heq, <- app_assoc. reflexivity.
  - inversion Hs as [n' nd' Hn' Hp'|n' nd' p' a' sp Hn' Hp' Ha' Hrep'];
      subst; unfold σ1 in Hn'; rewrite (expanded_new σ leaf nd rest a) in Hn';
      injection Hn' as <-; simpl in *; [discriminate|].
    injection Hp' as <-. injection Ha' as <-.
    assert (sp = s1) as ->
      by (eapply represents_functional; [exact Hrep'|apply Hfwd; exact Hrep]).
    unfold dict_keys. simpl. apply app_nil_r.
  - pose proof (lookup_lt_Some _ _ _ Hold) as Hlt.
    apply (expanded_represents_old board s0) in Hs; try assumption.
    apply (Hord n n1 s Hold Hs).
Qed.

Lemma order_ok_grows (σ σ' : store) :
  store_grows σ σ' -> order_ok board s0 σ -> order_ok board s0 σ'.
Proof.
  intros Hg Hord n nd' s Hn Hs.
  destruct (store_grows_inv _ _ _ _ Hg Hn)
    as (nd & Hnd & _ & _ & Hch & Hun & _).
  rewrite Hch, Hun. apply (Hord n nd s Hnd).
  apply (represents_grows board s0 σ σ' n s Hg). assumption.
Qed.

(** X14.  The order of expansion.  On a board whose lists of legal actions hold no
    action twice, between the simulations of a search the untried actions of
    every node followed by the actions of its children, from the last
    registered to the first, are the list of legal actions of its position:
    actions are expanded from the last legal action backwards, no action is
    both untried and expanded, and none is expanded twice. *)
Theorem think_expansion_order (n fuel : nat) (tape : nat -> nat)
    (bot : Player) (σ : store) (t : nat) :
  (forall s, NoDup (legal_actions board s)) ->
  think_loop board n fuel tape s0 bot (root_store board s0, 0%nat)
    = Ok (σ, t) ->
  forall node nd s,
    σ !! node = Some nd -> represents board s0 σ node s ->
    untried_actions nd ++ reverse (dict_keys (child_nodes nd))
    = legal_actions board s.
Proof.
  intros Hnodup H.
  apply (think_loop_induction board
           (fun σ k => (tree_inv σ k /\ actions_ok board s0 σ)
                       /\ order_ok board s0 σ)
           fuel tape s0 bot) with (k := 0) in H; [apply H| |].
  - clear -Hnodup. intros σ t σ' t' k [[Hinv Hact] Hord] Hit. split; [split|].
    + eapply think_iteration_inv; eassumption.
    + eapply think_iteration_actions; eassumption.
    + destruct Hinv as (Hok & _).
      destruct (think_iteration_phases board _ _ _ _ _ _ _ _ Hit)
        as (leaf & s1 & σ1 & newLeaf & s2 & s3 & w & Htrav & Hexp & _ & _
            & Hback).
      pose proof (traverse_nodes_represents board s0 fuel σ bot Hok Hact
                    0%nat s0 leaf s1 (represents_root_intro board s0 σ Hok)
                    Htrav) as Hrep.
      destruct (backpropagate_grows _ _ _ _ _ Hback) as (l & _ & _ & Hg & _).
      apply (order_ok_grows σ1 σ' Hg).
      destruct (expand_leaf_cases board _ _ _ _ _ _ Hexp)
        as (nd & Hnd & [(_ & -> & _)|(rest & a & Hun & -> & _ & ->)]);
        [assumption|].
      apply expanded_order_ok; auto.
  - split; [split; [apply tree_ok_root_store|apply actions_ok_root_store]|].
    intros [|m] nd s Hm Hs; simpl in Hm; [|discriminate].
    injection Hm as <-.
    apply represents_root in Hs; [|apply tree_ok_root_store]. subst s.
    simpl. apply app_nil_r.
Qed.

End Order.

Lemma think_expansion_order_witness :
  untried_actions
    (mkNode None None [(a_win, 1%nat); (a_capture, 2%nat)] [] 1 2)
  ++ reverse (dict_keys (child_nodes
       (mkNode None None [(a_win, 1%nat); (a_capture, 2%nat)] [] 1 2)))
  = legal_actions toy_board Fork.
Proof.
  assert (Hnodup : forall s, NoDup (legal_actions toy_board s)).
  { intros s. destruct s; simpl; repeat constructor;
      rewrite ?elem_of_cons, ?elem_of_nil; intros H; intuition discriminate. }
  apply (think_expansion_order toy_board Fork 2 3 zero_tape 1 fork_store 1
           Hnodup fork_think_loop 0%nat).
  - reflexivity.
  - eapply rep_root; reflexivity.
Defined.

(** ** The choice of the selector *)

Section Choice.

Context {State : Type} (board : Board State).

(** The scan of the children of a fully expanded node of a tree, from any
    point: either no remaining child beats the best score so far and the
    accumulators stay, or they hold the first remaining child of greatest
    score. *)
Lemma scan_children_argmax (σ : store) (k : Z) (p : nat) (pn : MCTSNode)
    (s : State) (bot : Player) :
  tree_inv σ k -> σ !! p = Some pn -> untried_actions pn = [] ->
  forall keys, keys ⊆ dict_keys (child_nodes pn) ->
  forall b n a,
  exists b' n' a',
    scan_children board σ pn s bot keys b n a = Ok (Scanned b' n' a')
    /\ ((b' = b /\ n' = n /\ a' = a
         /\ forall key c cn r,
              key ∈ keys -> dict_get (child_nodes pn) key = Ok c ->
              σ !! c = Some cn ->
              ucb σ cn (bot =? current_player board s) = Ok r ->
              (r <= b)%R)
        \/ (exists j key c cn,
              keys !! j = Some key
              /\ dict_get (child_nodes pn) key = Ok c /\ σ !! c = Some cn
              /\ ucb σ cn (bot =? current_player board s) = Ok b'
              /\ n' = Some c /\ a' = Some key /\ (b < b')%R
              /\ forall i key' c' cn' r',
                   keys !! i = Some key' ->
                   dict_get (child_nodes pn) key' = Ok c' ->
                   σ !! c' = Some cn' ->
                   ucb σ cn' (bot =? current_player board s) = Ok r' ->
                   (r' <= b')%R /\ ((i < j)%nat -> (r' < b')%R))).
Proof.
  intros (Hok & Hvis & _) Hp Hun keys.
  induction keys as [|key keys IH]; intros Hsub b n a.
  - exists b, n, a. split; [reflexivity|]. left. repeat split.
    intros key c cn r Hkey. inversion Hkey.
  - assert (Hkey : key ∈ dict_keys (child_nodes pn)) by (apply Hsub; left).
    assert (Hrest : keys ⊆ dict_keys (child_nodes pn)).
    { intros x Hx. apply Hsub. right. assumption. }
    specialize (IH Hrest).
    destruct (dict_get_key _ _ Hkey) as [c Hc].
    pose proof (dict_get_elem _ _ _ Hc) as Hin.
    destruct (ok_child σ Hok p pn key c Hp Hin) as (cn & Hcn & Hpar).
    destruct (Hvis p pn key c cn Hp Hin Hcn) as [Hv1 Hv2]; [discriminate|].
    cbn [scan_children]. rewrite Hc. cbn [bind].
    rewrite (deref_ok _ _ _ Hcn). cbn [bind]. rewrite Hun.
    destruct (visits cn =? 0) eqn:E; [apply Z.eqb_eq in E; lia|].
    cbn [orb length Nat.ltb Nat.leb].
    pose proof (ucb_value σ cn pn p (bot =? current_player board s)
                  Hpar Hp ltac:(lia) ltac:(lia)) as Hucb.
    destruct (ucb σ cn (bot =? current_player board s)) as [r0|] eqn:Hr0;
      [|discriminate Hucb].
    clear Hucb. cbn [bind].
    assert (Hhead : forall key' c' cn' r',
              (key :: keys) !! 0%nat = Some key' ->
              dict_get (child_nodes pn) key' = Ok c' ->
              σ !! c' = Some cn' ->
              ucb σ cn' (bot =? current_player board s) = Ok r' ->
              r' = r0).
    { intros key' c' cn' r' Hk Hg Hn Hu. simpl in Hk. injection Hk as <-.
      assert (c' = c) as -> by congruence.
      assert (cn' = cn) as -> by congruence. congruence. }
    destruct (Rgt_dec r0 b) as [Hgt|Hngt].
    + destruct (IH r0 (Some c) (Some key))
        as (b' & n' & a' & Hscan
            & [(-> & -> & -> & Hle)
              |(j & key1 & c1 & cn1 & Hj & Hg1 & Hn1 & Hu1 & -> & -> & Hlt
                & Hmax)]).
      * exists r0, (Some c), (Some key). split; [exact Hscan|]. right.
        exists 0%nat, key, c, cn. repeat split; try assumption; try reflexivity.
        -- destruct i as [|i].
           ++ rewrite (Hhead key' c' cn' r'); [lra|assumption..].
           ++ simpl in H. apply (Hle key' c' cn' r'); try assumption.
              apply list_elem_of_lookup. eauto.
        -- lia.
      * exists b', (Some c1), (Some key1). split; [exact Hscan|]. right.
        exists (S j), key1, c1, cn1. repeat split; try assumption;
          try reflexivity.
        -- lra.
        -- destruct i as [|i].
           ++ rewrite (Hhead key' c' cn' r'); [lra|assumption..].
           ++ simpl in H. apply (Hmax i key' c' cn' r'); assumption.
        -- destruct i as [|i].
           ++ rewrite (Hhead key' c' cn' r'); [lra|assumption..].
           ++ simpl in H. intros Hi.
              apply (Hmax i key' c' cn' r'); [assumption..|lia].
    + assert (Hle0 : (r0 <= b)%R) by lra.
      destruct (IH b n a)
        as (b' & n' & a' & Hscan
            & [(-> & -> & -> & Hle)
              |(j & key1 & c1 & cn1 & Hj & Hg1 & Hn1 & Hu1 & -> & -> & Hlt
                & Hmax)]).
      * exists b, n, a. split; [exact Hscan|]. left. repeat split.
        intros key' c' cn' r' Hk Hg Hn Hu.
        apply elem_of_cons in Hk as [->|Hk].
        -- assert (c' = c) as -> by congruence.
           assert (cn' = cn) as -> by congruence.
           assert (r' = r0) as -> by congruence. assumption.
        -- apply (Hle key' c' cn' r'); assumption.
      * exists b', (Some c1), (Some key1). split; [exact Hscan|]. right.
        exists (S j), key1, c1, cn1. repeat split; try assumption;
          try reflexivity.
        -- destruct i as [|i].
           ++ rewrite (Hhead key' c' cn' r'); [lra|assumption..].
           ++ simpl in H. apply (Hmax i key' c' cn' r'); assumption.
        -- destruct i as [|i].
           ++ rewrite (Hhead key' c' cn' r'); [lra|assumption..].
           ++ simpl in H. intros Hi.
              apply (Hmax i key' c' cn' r'); [assumption..|lia].
Qed.

(** X16.  The choice of the selector.  In a search on a board whose outcomes lie
    between -1 and 1, at a node without untried actions and with a child the
    scan selects a child of greatest score; every child before it in the
    order of the mapping has a strictly lower score, so ties keep the first
    child. *)
Theorem think_selects_best_child (n fuel : nat) (tape : nat -> nat)
    (s0 : State) (bot : Player) (σ : store) (t : nat)
    (p : nat) (pn : MCTSNode) (s : State) (bot' : Player) :
  outcomes_bounded board ->
  think_loop board n fuel tape s0 bot (root_store board s0, 0%nat)
    = Ok (σ, t) ->
  σ !! p = Some pn -> untried_actions pn = [] -> child_nodes pn <> [] ->
  exists j key c cn best,
    dict_keys (child_nodes pn) !! j = Some key
    /\ dict_get (child_nodes pn) key = Ok c /\ σ !! c = Some cn
    /\ ucb σ cn (bot' =? current_player board s) = Ok best
    /\ scan_children board σ pn s bot' (dict_keys (child_nodes pn))
         (IZR (-999999)) None None
       = Ok (Scanned best (Some c) (Some key))
    /\ forall i key' c' cn' r',
         dict_keys (child_nodes pn) !! i = Some key' ->
         dict_get (child_nodes pn) key' = Ok c' ->
         σ !! c' = Some cn' ->
         ucb σ cn' (bot' =? current_player board s) = Ok r' ->
         (r' <= best)%R /\ ((i < j)%nat -> (r' < best)%R).
Proof.
  intros Hb H Hp Hun Hne.
  pose proof (think_loop_wins_bounded board n fuel tape s0 bot σ t Hb H) as Hw.
  apply think_loop_from_root in H.
  destruct (scan_children_argmax σ _ p pn s bot' H Hp Hun
              (dict_keys (child_nodes pn)) (reflexivity _)
              (IZR (-999999)) None None)
    as (b' & n' & a' & Hscan
        & [(-> & -> & -> & Hle)
          |(j & key & c & cn & Hj & Hg & Hn & Hu & -> & -> & _ & Hmax)]).
  - exfalso. destruct H as (Hok & Hvis & _).
    destruct (child_nodes pn) as [|[key c] d] eqn:Ech; [congruence|].
    assert (Hin : (key, c) ∈ child_nodes pn) by (rewrite Ech; left).
    destruct (ok_child σ Hok p pn key c Hp Hin) as (cn & Hcn & Hpar).
    destruct (Hvis p pn key c cn Hp Hin Hcn) as [Hv1 Hv2]; [discriminate|].
    destruct (ucb_above_initial σ cn pn p
                (bot' =? current_player board s) Hpar Hp)
      as (r & Hr & _ & Hgt); [lia|lia|exact (Hw c cn Hcn)|].
    assert (Hget : dict_get ((key, c) :: d) key = Ok c).
    { simpl. destruct (decide (key = key)); congruence. }
    pose proof (Hle key c cn r ltac:(simpl; left) Hget Hcn Hr) as Hcontra.
    lra.
  - exists j, key, c, cn, b'. repeat split; try assumption.
    + apply (Hmax i key' c' cn' r'); assumption.
    + apply (Hmax i key' c' cn' r'); assumption.
Qed.

(** X4.  The cause of a failed rollout.  A rollout fails only by running out of
    fuel or with the [IndexError] of [choice], and then it had reached a
    position that is not ended where the scan chose no action and left no
    valid action. *)
Theorem rollout_error_cause (fuel : nat) (tape : nat -> nat) (k : nat)
    (state : State) (e : error) :
  rollout board fuel tape k state = Err e ->
  e = OutOfFuel
  \/ (e = IndexError
      /\ exists n k1 s1,
           rollout_reaches board tape k state k1 s1 n
           /\ is_ended board s1 = false
           /\ scan_actions board s1 (legal_actions board s1) [] = Pool []).
Proof.
  revert k state. induction fuel as [|fuel IH]; intros k state;
    cbn [rollout]; destruct (is_ended board state) eqn:Hend;
    try discriminate.
  - intros [= <-]. left. reflexivity.
  - destruct (rollout_step board tape k state) as [[[a s1] k1]|e1] eqn:Hstep;
      cbn [bind].
    + intros H. destruct (IH _ _ H) as [->|(-> & n & k2 & s2 & Hr & He & Hs)];
        [left; reflexivity|].
      right. split; [reflexivity|]. exists (S n), k2, s2.
      split; [econstructor; eassumption|]. auto.
    + intros [= <-]. right. unfold rollout_step in Hstep.
      destruct (scan_actions board state (legal_actions board state) [])
        as [a|valid] eqn:Hscan; cbn [bind] in Hstep; [discriminate|].
      destruct valid as [|v valid]; [|discriminate].
      simpl in Hstep. injection Hstep as <-. split; [reflexivity|].
      exists 0%nat, k, state. split; [constructor|]. auto.
Qed.

End Choice.

Lemma think_selects_best_child_witness :
  exists j key c cn best,
    dict_keys [(a_win, 1%nat); (a_capture, 2%nat)] !! j = Some key
    /\ dict_get [(a_win, 1%nat); (a_capture, 2%nat)] key = Ok c /\ fork_store !! c = Some cn
    /\ ucb fork_store cn (1 =? current_player toy_board Fork) = Ok best
    /\ scan_children toy_board fork_store
         (mkNode None None [(a_win, 1%nat); (a_capture, 2%nat)] [] 1 2) Fork 1
         (dict_keys [(a_win, 1%nat); (a_capture, 2%nat)]) (IZR (-999999)) None None
       = Ok (Scanned best (Some c) (Some key))
    /\ forall i key' c' cn' r',
         dict_keys [(a_win, 1%nat); (a_capture, 2%nat)] !! i = Some key' ->
         dict_get [(a_win, 1%nat); (a_capture, 2%nat)] key' = Ok c' ->
         fork_store !! c' = Some cn' ->
         ucb fork_store cn' (1 =? current_player toy_board Fork) = Ok r' ->
         (r' <= best)%R /\ ((i < j)%nat -> (r' < best)%R).
Proof.
  apply (think_selects_best_child toy_board 2 3 zero_tape Fork 1
           fork_store 1 0
           (mkNode None None [(a_win, 1%nat); (a_capture, 2%nat)] [] 1 2)
           Fork 1).
  - exact toy_outcomes_bounded.
  - exact fork_think_loop.
  - reflexivity.
  - reflexivity.
  - discriminate.
Defined.

Lemma rollout_error_cause_witness :
  IndexError = OutOfFuel
  \/ (IndexError = IndexError
      /\ exists n k1 s1,
           rollout_reaches toy_board zero_tape 0 Trap k1 s1 n
           /\ is_ended toy_board s1 = false
           /\ scan_actions toy_board s1 (legal_actions toy_board s1) []
              = Pool []).
Proof.
  apply (rollout_error_cause toy_board 4 zero_tape 0 Trap IndexError).
  reflexivity.
Defined.

(** ** The perspective of the selector *)

Section Perspective.

Context {State : Type} (board : Board State).

(** One turn of the scan of the children of a fully expanded node at a
    visited child: the child is scored by [ucb] with the flag taken at the
    state of the node, and the score is compared with the best so far. *)
Lemma scan_children_step (σ : store) (p : nat) (pn : MCTSNode) (s : State)
    (bot : Player) (key : Action) (rest : list Action) (c : nat)
    (cn : MCTSNode) b n a :
  σ !! p = Some pn -> untried_actions pn = [] -> 1 <= visits pn ->
  dict_get (child_nodes pn) key = Ok c -> σ !! c = Some cn ->
  parent cn = Some p -> 0 < visits cn ->
  ucb σ cn (bot =? current_player board s)
  = Ok (perspective_score (bot =? current_player board s) cn pn)
  /\ scan_children board σ pn s bot (key :: rest) b n a
     = if Rgt_dec
            (perspective_score (bot =? current_player board s) cn pn) b
       then scan_children board σ pn s bot rest
              (perspective_score (bot =? current_player board s) cn pn)
              (Some c) (Some key)
       else scan_children board σ pn s bot rest b n a.
Proof.
  intros Hp Hun Hpv Hget Hcn Hpar Hv.
  pose proof (ucb_value σ cn pn p (bot =? current_player board s)
                Hpar Hp Hv Hpv) as Hucb.
  split; [exact Hucb|].
  cbn [scan_children]. rewrite Hget. cbn [bind].
  rewrite (deref_ok _ _ _ Hcn). cbn [bind]. rewrite Hun.
  destruct (visits cn =? 0) eqn:E; [apply Z.eqb_eq in E; lia|].
  cbn [orb length Nat.ltb Nat.leb]. rewrite Hucb. reflexivity.
Qed.

(** The scan of the children of a fully expanded node whose children are all
    visited, from any point: either no remaining child beats the best score
    so far and the accumulators stay, or they hold the first remaining child
    of greatest perspective score. *)
Lemma scan_children_best_score (σ : store) (p : nat) (pn : MCTSNode)
    (s : State) (bot : Player) :
  σ !! p = Some pn -> untried_actions pn = [] -> 1 <= visits pn ->
  (forall key c, dict_get (child_nodes pn) key = Ok c ->
     exists cn, σ !! c = Some cn /\ parent cn = Some p /\ 0 < visits cn) ->
  forall keys, keys ⊆ dict_keys (child_nodes pn) ->
  forall b n a,
  exists b' n' a',
    scan_children board σ pn s bot keys b n a = Ok (Scanned b' n' a')
    /\ ((b' = b /\ n' = n /\ a' = a
         /\ forall key c cn,
              key ∈ keys -> dict_get (child_nodes pn) key = Ok c ->
              σ !! c = Some cn ->
              (perspective_score (bot =? current_player board s) cn pn
               <= b)%R)
        \/ (exists j key c cn,
              keys !! j = Some key
              /\ dict_get (child_nodes pn) key = Ok c /\ σ !! c = Some cn
              /\ b' = perspective_score (bot =? current_player board s) cn pn
              /\ n' = Some c /\ a' = Some key /\ (b < b')%R
              /\ forall i key' c' cn',
                   keys !! i = Some key' ->
                   dict_get (child_nodes pn) key' = Ok c' ->
                   σ !! c' = Some cn' ->
                   (perspective_score (bot =? current_player board s) cn' pn
                    <= b')%R
                   /\ ((i < j)%nat ->
                       (perspective_score (bot =? current_player board s)
                          cn' pn < b')%R))).
Proof.
  intros Hp Hun Hpv Hreg keys.
  induction keys as [|key keys IH]; intros Hsub b n a.
  - exists b, n, a. split; [reflexivity|]. left. repeat split.
    intros key c cn Hkey. inversion Hkey.
  - assert (Hkey : key ∈ dict_keys (child_nodes pn)) by (apply Hsub; left).
    assert (Hrest : keys ⊆ dict_keys (child_nodes pn)).
    { intros x Hx. apply Hsub. right. assumption. }
    specialize (IH Hrest).
    destruct (dict_get_key _ _ Hkey) as [c Hc].
    destruct (Hreg key c Hc) as (cn & Hcn & Hpar & Hv).
    destruct (scan_children_step σ p pn s bot key keys c cn b n a
                Hp Hun Hpv Hc Hcn Hpar Hv) as [_ ->].
    set (r0 := perspective_score (bot =? current_player board s) cn pn).
    assert (Hhead : forall key' c' cn',
              (key :: keys) !! 0%nat = Some key' ->
              dict_get (child_nodes pn) key' = Ok c' ->
              σ !! c' = Some cn' ->
              perspective_score (bot =? current_player board s) cn' pn = r0).
    { intros key' c' cn' Hk Hg Hn. simpl in Hk. injection Hk as <-.
      assert (c' = c) as -> by congruence.
      assert (cn' = cn) as -> by congruence. reflexivity. }
    destruct (Rgt_dec r0 b) as [Hgt|Hngt].
    + destruct (IH r0 (Some c) (Some key))
        as (b' & n' & a' & Hscan
            & [(-> & -> & -> & Hle)
              |(j & key1 & c1 & cn1 & Hj & Hg1 & Hn1 & -> & -> & -> & Hlt
                & Hmax)]).
      * exists r0, (Some c), (Some key). split; [exact Hscan|]. right.
        exists 0%nat, key, c, cn.
        split; [reflexivity|]. split; [assumption|]. split; [assumption|].
        split; [reflexivity|]. split; [reflexivity|]. split; [reflexivity|].
        split; [lra|]. intros i key' c' cn' Hi Hg Hn.
        destruct i as [|i].
        -- rewrite (Hhead key' c' cn' Hi Hg Hn). split; [lra|lia].
        -- simpl in Hi. split; [|lia].
           apply (Hle key' c' cn'); try assumption.
           apply list_elem_of_lookup. eauto.
      * eexists. exists (Some c1), (Some key1). split; [exact Hscan|]. right.
        exists (S j), key1, c1, cn1.
        split; [assumption|]. split; [assumption|]. split; [assumption|].
        split; [reflexivity|]. split; [reflexivity|]. split; [reflexivity|].
        split; [lra|]. intros i key' c' cn' Hi Hg Hn.
        destruct i as [|i].
        -- rewrite (Hhead key' c' cn' Hi Hg Hn). split; [lra|intros _; lra].
        -- simpl in Hi. destruct (Hmax i key' c' cn' Hi Hg Hn) as [H1 H2].
           split; [assumption|]. intros Hij. apply H2. lia.
    + assert (Hle0 : (r0 <= b)%R) by lra.
      destruct (IH b n a)
        as (b' & n' & a' & Hscan
            & [(-> & -> & -> & Hle)
              |(j & key1 & c1 & cn1 & Hj & Hg1 & Hn1 & -> & -> & -> & Hlt
                & Hmax)]).
      * exists b, n, a. split; [exact Hscan|]. left. repeat split.
        intros key' c' cn' Hk Hg Hn.
        apply elem_of_cons in Hk as [->|Hk].
        -- assert (c' = c) as -> by congruence.
           assert (cn' = cn) as -> by congruence. exact Hle0.
        -- apply (Hle key' c' cn'); assumption.
      * eexists. exists (Some c1), (Some key1). split; [exact Hscan|]. right.
        exists (S j), key1, c1, cn1.
        split; [assumption|]. split; [assumption|]. split; [assumption|].
        split; [reflexivity|]. split; [reflexivity|]. split; [reflexivity|].
        split; [assumption|]. intros i key' c' cn' Hi Hg Hn.
        destruct i as [|i].
        -- rewrite (Hhead key' c' cn' Hi Hg Hn). split; [lra|intros _; lra].
        -- simpl in Hi. destruct (Hmax i key' c' cn' Hi Hg Hn) as [H1 H2].
           split; [assumption|]. intros Hij. apply H2. lia.
Qed.

Lemma perspective_score_monotone (own : bool) (child child' pn : MCTSNode) :
  0 < visits child -> visits child' = visits child ->
  wins child < wins child' ->
  if own
  then (perspective_score own child pn < perspective_score own child' pn)%R
  else (perspective_score own child' pn < perspective_score own child pn)%R.
Proof.
  intros Hv Heq Hw. unfold perspective_score. rewrite Heq.
  assert (Hrate : (IZR (wins child) / IZR (visits child)
                   < IZR (wins child') / IZR (visits child))%R).
  { unfold Rdiv. apply Rmult_lt_compat_r.
    - apply Rinv_0_lt_compat. apply (IZR_lt 0). assumption.
    - apply IZR_lt. assumption. }
  cbv zeta. destruct own; lra.
Qed.

End Perspective.

Section SelectorPerspective.

Context {State : Type} (board : Board State).

(** C1.  The selector at a node without untried actions whose position
    [state] is not ended, all of whose children have [visits > 0] (and
    whose own visits are at least 1, where [log] is defined).
    - Every child is scored by [ucb] with the flag
      [bot_identity == current_player(state)] taken at the position of the
      node, the parent of the child, and this score is what the scan
      compares with the best so far.
    - When the bot is to move at the parent the score is
      [wins/visits + 2*sqrt(ln(parent.visits)/visits)] and strictly
      increasing in the wins of the child, visits held fixed; when the
      opponent is to move it is [(1 - wins/visits) + 2*sqrt(...)] and
      strictly decreasing.
    - The descent of [traverse_nodes] continues into the first child of
      greatest such score, at the successor position under its action (when
      no score exceeds the initial -999999 no child is selected and the call
      fails).
    Scores are real numbers. *)
Theorem selector_ucb_perspective (σ : store) (p : nat) (pn : MCTSNode)
    (state : State) (bot_identity : Player) (fuel : nat) :
  σ !! p = Some pn -> untried_actions pn = [] ->
  is_ended board state = false -> 1 <= visits pn ->
  (forall key c, dict_get (child_nodes pn) key = Ok c ->
     exists cn, σ !! c = Some cn /\ parent cn = Some p /\ 0 < visits cn) ->
  let own := bot_identity =? current_player board state in
  let score := fun cn : MCTSNode => perspective_score own cn pn in
  (forall key rest c cn b n a,
     dict_get (child_nodes pn) key = Ok c -> σ !! c = Some cn ->
     ucb σ cn own = Ok (score cn)
     /\ scan_children board σ pn state bot_identity (key :: rest) b n a
        = if Rgt_dec (score cn) b
          then scan_children board σ pn state bot_identity rest
                 (score cn) (Some c) (Some key)
          else scan_children board σ pn state bot_identity rest b n a)
  /\ (forall child child' : MCTSNode,
        0 < visits child -> visits child' = visits child ->
        wins child < wins child' ->
        (bot_identity = current_player board state ->
           score child
           = (IZR (wins child) / IZR (visits child)
              + 2 * sqrt (ln (IZR (visits pn)) / IZR (visits child)))%R
           /\ (score child < score child')%R)
        /\ (bot_identity <> current_player board state ->
           score child
           = (1 - IZR (wins child) / IZR (visits child)
              + 2 * sqrt (ln (IZR (visits pn)) / IZR (visits child)))%R
           /\ (score child' < score child)%R))
  /\ (exists b' n' a',
        scan_children board σ pn state bot_identity
          (dict_keys (child_nodes pn)) (IZR (-999999)) None None
        = Ok (Scanned b' n' a')
        /\ ((n' = None /\ a' = None
             /\ traverse_nodes board (S fuel) σ p state bot_identity
                = Err TypeError
             /\ forall key c cn,
                  key ∈ dict_keys (child_nodes pn) ->
                  dict_get (child_nodes pn) key = Ok c ->
                  σ !! c = Some cn ->
                  (score cn <= IZR (-999999))%R)
            \/ (exists j key c cn,
                  dict_keys (child_nodes pn) !! j = Some key
                  /\ dict_get (child_nodes pn) key = Ok c
                  /\ σ !! c = Some cn
                  /\ b' = score cn /\ n' = Some c /\ a' = Some key
                  /\ traverse_nodes board (S fuel) σ p state bot_identity
                     = traverse_nodes board fuel σ c
                         (next_state board state key) bot_identity
                  /\ forall i key' c' cn',
                       dict_keys (child_nodes pn) !! i = Some key' ->
                       dict_get (child_nodes pn) key' = Ok c' ->
                       σ !! c' = Some cn' ->
                       (score cn' <= score cn)%R
                       /\ ((i < j)%nat -> (score cn' < score cn)%R)))).
Proof.
  intros Hp Hun Hend Hpv Hreg own score.
  assert (Htrav : forall r,
    scan_children board σ pn state bot_identity
      (dict_keys (child_nodes pn)) (IZR (-999999)) None None = Ok r ->
    traverse_nodes board (S fuel) σ p state bot_identity
    = match r with
      | EarlyReturn c s => Ok (c, s)
      | Scanned _ (Some bestNode) (Some bestAction) =>
          traverse_nodes board fuel σ bestNode
            (next_state board state bestAction) bot_identity
      | Scanned _ _ _ => Err TypeError
      end).
  { intros r Hr. cbn [traverse_nodes]. rewrite (deref_ok _ _ _ Hp).
    cbn [bind]. rewrite Hun, Hend. cbn [length Nat.ltb Nat.leb negb andb].
    rewrite Hr. reflexivity. }
  split; [|split].
  - intros key rest c cn b n a Hget Hcn.
    destruct (Hreg key c Hget) as (cn0 & Hcn0 & Hpar & Hv).
    assert (cn0 = cn) as -> by congruence.
    exact (scan_children_step board σ p pn state bot_identity key rest c cn
             b n a Hp Hun Hpv Hget Hcn Hpar Hv).
  - intros child child' Hv Heq Hw.
    pose proof (perspective_score_monotone own child child' pn Hv Heq Hw)
      as Hmono.
    split; intros Hbot; unfold score, own in *.
    + apply Z.eqb_eq in Hbot. rewrite Hbot in *.
      split; [reflexivity|exact Hmono].
    + apply Z.eqb_neq in Hbot. rewrite Hbot in *.
      split; [reflexivity|exact Hmono].
  - destruct (scan_children_best_score board σ p pn state bot_identity
                Hp Hun Hpv Hreg (dict_keys (child_nodes pn)) (reflexivity _)
                (IZR (-999999)) None None)
      as (b' & n' & a' & Hscan
          & [(-> & -> & -> & Hle)
            |(j & key & c & cn & Hj & Hg & Hn & -> & -> & -> & _ & Hmax)]).
    + eexists. exists None, None. split; [exact Hscan|]. left.
      split; [reflexivity|]. split; [reflexivity|].
      split; [rewrite (Htrav _ Hscan); reflexivity|exact Hle].
    + eexists. exists (Some c), (Some key). split; [exact Hscan|]. right.
      exists j, key, c, cn. split; [assumption|]. split; [assumption|].
      split; [assumption|]. split; [reflexivity|]. split; [reflexivity|].
      split; [reflexivity|].
      split; [rewrite (Htrav _ Hscan); reflexivity|exact Hmax].
Qed.

End SelectorPerspective.

(** At the root of the tree of two simulations from [Fork] the child under
    [a_win] has one win in one visit and the child under [a_capture] none in
    one visit.  When player 1, to move at [Fork], is the bot the selector
    descends into the first; when player 2 is the bot it descends into the
    second. *)
Lemma selector_ucb_perspective_witness :
  traverse_nodes toy_board 2 fork_store 0 Fork 1 = Ok (1%nat, Won)
  /\ traverse_nodes toy_board 2 fork_store 0 Fork 2 = Ok (2%nat, Captured).
Proof.
  set (root_node :=
         mkNode None None [(a_win, 1%nat); (a_capture, 2%nat)] [] 1 2).
  set (won_child := mkNode (Some 0%nat) (Some a_win) [] [] 1 1).
  set (captured_child := mkNode (Some 0%nat) (Some a_capture) [] [a_draw] 0 1).
  assert (Hreg : forall key c, dict_get (child_nodes root_node) key = Ok c ->
            exists cn, fork_store !! c = Some cn /\ parent cn = Some 0%nat
                       /\ 0 < visits cn).
  { intros key c Hget. apply dict_get_elem in Hget. simpl in Hget.
    apply elem_of_cons in Hget as [[= -> ->]|Hget];
      [exists won_child; repeat split; reflexivity|].
    apply elem_of_cons in Hget as [[= -> ->]|Hget];
      [exists captured_child; repeat split; reflexivity|].
    inversion Hget. }
  assert (Hwin : dict_get (child_nodes root_node) a_win = Ok 1%nat)
    by reflexivity.
  assert (Hcap : dict_get (child_nodes root_node) a_capture = Ok 2%nat)
    by reflexivity.
  assert (Hone : (IZR 1 / IZR 1 = 1)%R) by (unfold Rdiv; rewrite Rinv_1; lra).
  assert (Hzero : (IZR 0 / IZR 1 = 0)%R) by (unfold Rdiv; lra).
  pose proof (sqrt_pos (ln (IZR 2) / IZR 1)) as Hexplore.
  split.
  - destruct (selector_ucb_perspective toy_board fork_store 0 root_node
                Fork 1 1 eq_refl eq_refl eq_refl ltac:(simpl; lia) Hreg)
      as (_ & _ & b' & n' & a' & _
          & [(_ & _ & _ & Hall)
            |(j & key & c & cn & Hj & Hg & Hn & _ & _ & _ & Htrav & Hmax)]).
    + exfalso.
      pose proof (Hall a_win 1%nat won_child ltac:(simpl; left) Hwin eq_refl)
        as H.
      unfold perspective_score in H. simpl in H. rewrite Hone in H.
      assert (IZR (-999999) < 0)%R by (apply (IZR_lt _ 0); lia). lra.
    + destruct j as [|[|j]]; simpl in Hj; [| |discriminate].
      * injection Hj as Hkey. subst key. rewrite Hwin in Hg. injection Hg as Hc. subst c.
        rewrite Htrav. reflexivity.
      * exfalso. injection Hj as Hkey. subst key. rewrite Hcap in Hg. injection Hg as Hc. subst c.
        change (fork_store !! 2%nat) with (Some captured_child) in Hn.
        injection Hn as Hcn. subst cn.
        destruct (Hmax 0%nat a_win 1%nat won_child eq_refl Hwin eq_refl)
          as [_ H].
        specialize (H ltac:(lia)). unfold perspective_score in H.
        simpl in H. rewrite Hone, Hzero in H. lra.
  - destruct (selector_ucb_perspective toy_board fork_store 0 root_node
                Fork 2 1 eq_refl eq_refl eq_refl ltac:(simpl; lia) Hreg)
      as (_ & _ & b' & n' & a' & _
          & [(_ & _ & _ & Hall)
            |(j & key & c & cn & Hj & Hg & Hn & _ & _ & _ & Htrav & Hmax)]).
    + exfalso.
      pose proof (Hall a_capture 2%nat captured_child
                    ltac:(simpl; right; left) Hcap eq_refl) as H.
      unfold perspective_score in H. simpl in H. rewrite Hzero in H.
      assert (IZR (-999999) < 0)%R by (apply (IZR_lt _ 0); lia). lra.
    + destruct j as [|[|j]]; simpl in Hj; [| |discriminate].
      * exfalso. injection Hj as Hkey. subst key. rewrite Hwin in Hg. injection Hg as Hc. subst c.
        change (fork_store !! 1%nat) with (Some won_child) in Hn.
        injection Hn as Hcn. subst cn.
        destruct (Hmax 1%nat a_capture 2%nat captured_child eq_refl Hcap
                    eq_refl) as [H _].
        unfold perspective_score in H. simpl in H.
        rewrite Hone, Hzero in H. lra.
      * injection Hj as Hkey. subst key. rewrite Hcap in Hg. injection Hg as Hc. subst c.
        rewrite Htrav. reflexivity.
Defined.
